(** * attest-tools: wire framing, PCR mask policy and exact-length I/O

    A shallow embedding of the parts of attest-tools that decide the
    behaviour of its enrollment protocol:

    - [libs/util.c]: [attest_util_rw_buf] (with its two wrappers),
      [attest_util_check_mask], [attest_util_parse_pcr_list],
      [attest_util_read_file], [attest_util_read_seq_file],
      [attest_util_write_file], [attest_util_copy_file], and the
      hexadecimal codec [_bin2hex], [_hex2bin];
    - [src/attest_ra_client.c]: [send_receive];
    - [src/attest_ra_server.c]: the PCR mask loop and the accept loop of
      [main], with the pointers it frees at the end of each turn;
    - [src/attest_tls_client.c]: [send_receive_attest_data] and [main].

    Data model.  The target is an LP64 machine: [size_t] is an unsigned
    64-bit word, [int] a signed 32-bit word, [uint8_t] an integer in
    [0, 256).  Words are integers of [Z] with the wrap-around written out;
    the byte order of the host is a parameter wherever an object is sent
    as its in-memory representation. *)

From Stdlib Require Import Ascii String ZArith List Bool Lia.
Import ListNotations.
Local Open Scope Z_scope.

(** ** errno values (Linux, asm-generic/errno-base.h) *)

Definition ENOENT : Z := 2.
Definition EIO    : Z := 5.
Definition ENOMEM : Z := 12.
Definition EACCES : Z := 13.
Definition EINVAL : Z := 22.
Definition ERANGE : Z := 34.

(** ** Machine words *)

Definition SIZE_WIDTH : Z := 64.
Definition size_modulus : Z := 2 ^ SIZE_WIDTH.
Definition sizeof_size_t : Z := 8.
Definition sizeof_int : Z := 4.

(** Conversion of an integer to [size_t]. *)
Definition to_size_t (z : Z) : Z := z mod size_modulus.

(** Conversion of an integer to [uint32_t]. *)
Definition to_uint32 (z : Z) : Z := z mod 2 ^ 32.

(** Conversion of an integer to [int] (two's complement, as gcc and clang
    define the out-of-range case). *)
Definition to_int (z : Z) : Z := (z + 2 ^ 31) mod 2 ^ 32 - 2 ^ 31.

Definition is_u8 (b : Z) : Prop := 0 <= b < 256.
Definition u8_list (l : list Z) : Prop := Forall is_u8 l.

(** ** Arrays of [uint8_t] reached through a pointer

    A C function that receives [uint8_t *p] can read [p[i]] for any [i]; the
    array the caller owns is [elems], and [past k] is the byte that happens
    to lie [k] places after its last element. *)

Record u8array := mkArr { elems : list Z; past : Z -> Z }.

Definition alen (a : u8array) : Z := Z.of_nat (length (elems a)).

Definition aget (a : u8array) (i : Z) : Z :=
  if i <? alen a then nth (Z.to_nat i) (elems a) 0 else past a (i - alen a).

(** ** util.c: attest_util_check_mask *)

Module Mask.

Section Loop.
Variables (mask_in_len : Z) (mask_in : u8array) (mask_ref : u8array).

(** The [for] loop, [n] iterations left, at index [i]. *)
Fixpoint check_mask_loop (n : nat) (i : Z) : Z :=
  match n with
  | O => 0
  | S n' =>
      if (i >? mask_in_len) && negb (aget mask_ref i =? 0) then - ENOENT
      else if negb (Z.land (aget mask_in i) (aget mask_ref i) =? aget mask_ref i)
           then - ENOENT
           else check_mask_loop n' (i + 1)
  end.
End Loop.

Definition attest_util_check_mask (mask_in_len : Z) (mask_in : u8array)
    (mask_ref_len : Z) (mask_ref : u8array) : Z :=
  if mask_in_len >? mask_ref_len then - EINVAL
  else check_mask_loop mask_in_len mask_in mask_ref (Z.to_nat mask_ref_len) 0.

(** The call on two masks that carry their own lengths: [A] is the asserted
    mask ([mask_in]), [R] the required one ([mask_ref]). *)
Definition check_mask (A R : u8array) : Z :=
  attest_util_check_mask (alen A) A (alen R) R.

(** Bit [k] of a mask: bit [k mod 8] of byte [k / 8]; a mask has no bit set
    past its last byte. *)
Definition mask_bit (m : list Z) (k : nat) : bool :=
  Z.testbit (nth (k / 8) m 0) (Z.of_nat (k mod 8)).

(** Every bit set in [R] is set in [A]. *)
Definition covers (A R : list Z) : Prop :=
  forall k, mask_bit R k = true -> mask_bit A k = true.

(** What one iteration of the loop demands of index [j] to go on. *)
Definition index_ok (L : Z) (A R : u8array) (j : Z) : Prop :=
  (j >? L) && negb (aget R j =? 0) = false
  /\ Z.land (aget A j) (aget R j) = aget R j.

End Mask.

(** ** The file descriptor as the code sees it

    A connected socket is a byte queue in each direction and a kernel that
    decides, call by call, how much of a request it serves.  [rx] holds the
    bytes the peer sends on this connection that are not read yet (when it
    is empty the peer has shut down: [read] returns 0); [tx] holds the bytes
    written so far; [kern] is the kernel's script, one entry per system
    call: a negative entry makes the call fail with -1, an entry [g >= 0]
    lets it transfer at most [g] bytes.  With the script used up the kernel
    serves every request in full. *)

Record sock := mkSock { rx : list Z; tx : list Z; kern : list Z }.

Definition grant (s : sock) (count : Z) : Z :=
  match kern s with [] => count | g :: _ => g end.

(** [read(fd, buf + processed, count)]: the value returned, the bytes
    delivered and the socket afterwards. *)
Definition sys_read (s : sock) (count : Z) : Z * list Z * sock :=
  let g := grant s count in
  if g <? 0 then (-1, [], mkSock (rx s) (tx s) (tl (kern s)))
  else
    let n := Z.to_nat (Z.min (Z.min g count) (Z.of_nat (length (rx s)))) in
    (Z.of_nat n, firstn n (rx s), mkSock (skipn n (rx s)) (tx s) (tl (kern s))).

(** [write(fd, buf + processed, count)], [data] being the [count] bytes at
    [buf + processed] that the list holds: a request that runs past the end
    of the list is served up to there. *)
Definition sys_write (s : sock) (data : list Z) : Z * sock :=
  let count := Z.of_nat (length data) in
  let g := grant s count in
  if g <? 0 then (-1, mkSock (rx s) (tx s) (tl (kern s)))
  else
    let n := Z.to_nat (Z.min g count) in
    (Z.of_nat n, mkSock (rx s) (tx s ++ firstn n data) (tl (kern s))).

(** A kernel that reports no error and never refuses to make progress. *)
Definition healthy (s : sock) : Prop := Forall (fun g => 0 < g) (kern s).

(** Memory at [buf]: the [count] bytes at offset [p], and a store of the
    bytes [d] at offset [p]. *)
Definition peek (buf : list Z) (p count : Z) : list Z :=
  firstn (Z.to_nat count) (skipn (Z.to_nat p) buf).

Definition poke (buf : list Z) (p : Z) (d : list Z) : list Z :=
  firstn (Z.to_nat p) buf ++ d ++ skipn (Z.to_nat p + length d) buf.

(** ** util.c: attest_util_rw_buf, attest_util_read_buf, attest_util_write_buf *)

Module RwBuf.

Definition O_RDONLY : Z := 0.
Definition O_WRONLY : Z := 1.

(** The system call of one iteration: the value it returns, the memory at
    [buf] and the socket afterwards.  Any [op] but [O_RDONLY] writes. *)
Definition rw_call (op : Z) (s : sock) (buf : list Z) (buf_len processed : Z)
    : Z * list Z * sock :=
  if op =? O_RDONLY then
    let '(r, d, s1) := sys_read s (buf_len - processed) in
    (r, poke buf processed d, s1)
  else
    let '(r, s1) := sys_write s (peek buf processed (buf_len - processed)) in
    (r, buf, s1).

(** The [while] loop.  [processed] and [cur_processed] are [size_t]: the
    value returned by [read]/[write], an [ssize_t], is converted on
    assignment, and the sum wraps.  The result is the return code, the
    memory at [buf] and the socket; [None] when [fuel] iterations were not
    enough. *)
Fixpoint rw_loop (fuel : nat) (op : Z) (s : sock) (buf : list Z)
    (buf_len processed : Z) : option (Z * list Z * sock) :=
  if processed <? buf_len then
    match fuel with
    | O => None
    | S fuel' =>
        let '(ret, buf', s') := rw_call op s buf buf_len processed in
        let cur_processed := to_size_t ret in
        if cur_processed <=? 0 then Some (- EIO, buf', s')
        else rw_loop fuel' op s' buf' buf_len (to_size_t (processed + cur_processed))
    end
  else Some (0, buf, s).

(** [buf_len] arrives as a [size_t].  Every iteration uses one entry of the
    kernel's script, and once the script is used up two iterations end the
    loop ([rw_loop_fuel] below): this much fuel is always enough and the
    default is never taken. *)
Definition attest_util_rw_buf (s : sock) (buf : list Z) (buf_len : Z) (op : Z)
    : Z * list Z * sock :=
  match rw_loop (S (S (length (kern s)))) op s buf (to_size_t buf_len) 0 with
  | Some r => r
  | None => (- EIO, buf, s)
  end.

Definition attest_util_read_buf (s : sock) (buf : list Z) (buf_len : Z) :=
  attest_util_rw_buf s buf buf_len O_RDONLY.

Definition attest_util_write_buf (s : sock) (buf : list Z) (buf_len : Z) :=
  attest_util_rw_buf s buf buf_len O_WRONLY.

End RwBuf.

(** ** Objects in memory

    The address of [len], cast to a byte pointer, hands the object
    representation of the integer to the socket: its bytes in the order of
    the host. *)

Inductive byte_order := LittleEndian | BigEndian.

Fixpoint le_bytes (w : nat) (v : Z) : list Z :=
  match w with
  | O => []
  | S w' => v mod 256 :: le_bytes w' (v / 256)
  end.

Fixpoint le_value (l : list Z) : Z :=
  match l with
  | [] => 0
  | b :: l' => b + 256 * le_value l'
  end.

Definition obj_bytes (bo : byte_order) (w : nat) (v : Z) : list Z :=
  match bo with
  | LittleEndian => le_bytes w v
  | BigEndian => rev (le_bytes w v)
  end.

Definition obj_value (bo : byte_order) (l : list Z) : Z :=
  match bo with
  | LittleEndian => le_value l
  | BigEndian => le_value (rev l)
  end.

(** The process and the machine it runs on: the byte order, which
    allocation sizes [malloc] serves, and what fresh heap memory holds. *)
Record machine := mkMachine {
  host_order : byte_order;
  malloc_ok : Z -> bool;
  heap_junk : nat -> Z }.

Section Memory.
Variable M : machine.

Definition store_size_t (v : Z) : list Z := obj_bytes (host_order M) 8 v.
Definition store_int (v : Z) : list Z := obj_bytes (host_order M) 4 v.
Definition load_size_t (b : list Z) : Z := to_size_t (obj_value (host_order M) b).
Definition load_int (b : list Z) : Z := to_int (obj_value (host_order M) b).

(** [htonl]/[ntohl] of arpa/inet.h: the argument is converted to
    [uint32_t]; the result is the host value whose four bytes in memory
    are the argument's, most significant first. *)
Definition htonl (hostlong : Z) : Z :=
  obj_value (host_order M) (rev (le_bytes 4 (to_uint32 hostlong))).
Definition ntohl (netlong : Z) : Z := htonl netlong.

(** The [n] bytes [malloc(n)] returns. *)
Definition fresh_mem (n : Z) : list Z := map (heap_junk M) (seq 0 (Z.to_nat n)).
End Memory.

(** A C string is the list of the bytes at the pointer; the string ends at
    the first 0 byte, or with the list. *)
Fixpoint strlen (m : list Z) : Z :=
  match m with
  | [] => 0
  | c :: m' => if c =? 0 then 0 else 1 + strlen m'
  end.

(** ** Counts the kernel refuses

    [read] and [write] take the count as a [size_t] and return an
    [ssize_t].  A count above [SSIZE_MAX] has no return value of its own:
    Linux refuses it with [EINVAL] before it looks at the descriptor or
    at the buffer.  Where the code derives such a count - a length field
    below the header size, minus the header size - the call is one the
    kernel's script fails. *)

Definition SSIZE_MAX : Z := 2 ^ 63 - 1.

Definition refusing (s : sock) : sock := mkSock (rx s) (tx s) (-1 :: kern s).

(** ** attest_ra_client.c: send_receive *)

Module RaClient.
Import RwBuf.

Section Client.
Variable M : machine.

(** Lines 89-106: the response is read.  [len] is the variable as the
    request left it.  The result is the return code, the buffer
    [*message_out] when one was allocated, and the socket as it is when
    it is closed.  A length field below 8 makes [len - sizeof(len)] wrap:
    the count handed to [read] is at least [2 ^ 64 - 7], and the kernel
    refuses it ([refusing]) without a look at the block of [len] bytes. *)
Definition receive_response (len : Z) (fd : sock)
    : Z * option (list Z) * option sock :=
  let '(rc, lenb, fd) :=
    attest_util_read_buf fd (store_size_t M len) sizeof_size_t in
  if negb (rc =? 0) then (rc, None, Some fd) else
  let len := load_size_t M lenb in
  if len =? 0 then (- EINVAL, None, Some fd) else
  if negb (malloc_ok M len) then (- ENOMEM, None, Some fd) else
  let message_out := fresh_mem M len in
  let fd := if len <? sizeof_size_t then refusing fd else fd in
  let len := to_size_t (len - sizeof_size_t) in
  let '(rc, message_out, fd) := attest_util_read_buf fd message_out len in
  (rc, Some message_out, Some fd).

(** [gai] is what [getaddrinfo] returned and [conn] the socket the
    [connect] loop ended with, if any. *)
Definition send_receive (gai : Z) (conn : option sock) (op : Z)
    (message_in : list Z) : Z * option (list Z) * option sock :=
  if negb (gai =? 0) then (gai, None, None)
  else
    match conn with
    | None => (- EIO, None, None)
    | Some fd =>
        let len := to_size_t (strlen message_in) in
        let len := to_size_t (len + sizeof_size_t * 2) in
        let '(rc, _, fd) :=
          attest_util_write_buf fd (store_size_t M len) sizeof_size_t in
        if negb (rc =? 0) then (rc, None, Some fd) else
        let '(rc, _, fd) :=
          attest_util_write_buf fd (store_int M op) sizeof_int in
        if negb (rc =? 0) then (rc, None, Some fd) else
        let '(rc, _, fd) :=
          attest_util_write_buf fd message_in
            (to_size_t (len - sizeof_size_t * 2)) in
        if negb (rc =? 0) then (rc, None, Some fd) else
        receive_response len fd
    end.
End Client.
End RaClient.

(** ** attest_ra_server.c: the accept loop of main *)

Module RaServer.
Import RwBuf.

(** The message handlers of the enrollment library, and the read of the CA
    certificate, with the configuration of the process (HMAC key, CA paths,
    PCR mask, verifier flags) fixed.  Each returns its code and the string
    it stored through its output pointer, if any. *)
Record enroll_server := mkEnroll {
  attest_enroll_msg_make_credential : list Z -> Z * option (list Z);
  attest_enroll_msg_make_cert : list Z -> Z * option (list Z);
  attest_enroll_msg_process_csr : list Z -> Z * option (list Z);
  attest_enroll_sign_csr : option (list Z) -> Z * option (list Z);
  attest_util_read_seq_file_ca : Z * option (list Z);
  attest_enroll_msg_return_cert :
    option (list Z) -> option (list Z) -> Z * option (list Z);
  attest_enroll_msg_gen_quote_nonce : list Z -> Z * option (list Z);
  attest_enroll_msg_process_quote : list Z -> Z * option (list Z) }.

(** A pointer that [main] hands to [free] at the end of a turn: [NULL],
    the address of a block in use, or the address of a block that has
    been freed. *)
Inductive pointer :=
  | Null
  | Live
  | Freed.

(** [message_in], [message_out], [csr_str], [cert_str], [ca_cert_str]. *)
Record pointers := mkPointers {
  p_message_in : pointer;
  p_message_out : pointer;
  p_csr_str : pointer;
  p_cert_str : pointer;
  p_ca_cert_str : pointer }.

(** [len], [op] and the five pointers are declared outside the loop: what
    a turn leaves untouched is what the previous connection left there.
    The four string pointers are set to [NULL] only after the third read
    (lines 242-246). *)
Record locals := mkFrame { l_len : Z; l_op : Z; l_ptrs : pointers }.

(** The variables before the first connection: [main] initialises the
    five pointers to [NULL]. *)
Definition mkLocals (len op : Z) : locals :=
  mkFrame len op (mkPointers Null Null Null Null Null).

Inductive verdict :=
  | NextConnection   (* the loop goes back to [accept] *)
  | ServerExits      (* [break], or [goto out]: [main] returns *)
  | NullDereference  (* [strlen(NULL)] *)
  | FreesTwice       (* [free] of a block that was freed before *)
  | StoresOutside.   (* [message_in[len] = 0] outside the block *)

(** How the reading of a request ends: a read failed ([goto out_free]),
    [malloc] returned [NULL] ([goto response]), [malloc(0)] returned a
    block, which has no byte at [len], or [message_in] is there. *)
Inductive request :=
  | ReadFailed (rc : Z)
  | NoMemory
  | ZeroBlock
  | Request (message_in : list Z).

(** [free(p)]: [None] when the block was freed before. *)
Definition free (p : pointer) : option pointer :=
  match p with
  | Null => Some Null
  | Live => Some Freed
  | Freed => None
  end.

(** The five calls of [free] at [out_free]. *)
Definition out_free (p : pointers) : option pointers :=
  match free (p_message_in p), free (p_message_out p), free (p_csr_str p),
        free (p_cert_str p), free (p_ca_cert_str p) with
  | Some a, Some b, Some c, Some d, Some e => Some (mkPointers a b c d e)
  | _, _, _, _, _ => None
  end.

Definition held (s : option (list Z)) : pointer :=
  match s with Some _ => Live | None => Null end.

Section Server.
Variable M : machine.
Variable E : enroll_server.

(** The [switch]: the code and [message_out] (set to [NULL] before). *)
Definition dispatch (op : Z) (message_in : list Z) : Z * option (list Z) :=
  if op =? 0 then attest_enroll_msg_make_credential E message_in
  else if op =? 1 then attest_enroll_msg_make_cert E message_in
  else if op =? 2 then
    let '(rc, csr_str) := attest_enroll_msg_process_csr E message_in in
    if rc <? 0 then (rc, None) else
    let '(rc, cert_str) := attest_enroll_sign_csr E csr_str in
    if rc <? 0 then (rc, None) else
    let '(rc, ca_cert_str) := attest_util_read_seq_file_ca E in
    if rc <? 0 then (rc, None) else
    attest_enroll_msg_return_cert E cert_str ca_cert_str
  else if op =? 3 then attest_enroll_msg_gen_quote_nonce E message_in
  else if op =? 4 then attest_enroll_msg_process_quote E message_in
  else (- EINVAL, None).

(** The five pointers after the [switch]: [message_in] is the block of
    this turn, [message_out] what the handler stored, and the three
    strings of case 2 what its calls stored as far as it got. *)
Definition after_switch (op : Z) (message_in : list Z)
    (message_out : option (list Z)) : pointers :=
  if op =? 2 then
    let '(rc, csr_str) := attest_enroll_msg_process_csr E message_in in
    if rc <? 0 then mkPointers Live (held message_out) (held csr_str) Null Null
    else
      let '(rc, cert_str) := attest_enroll_sign_csr E csr_str in
      if rc <? 0
      then mkPointers Live (held message_out) (held csr_str) (held cert_str) Null
      else
        let '(rc, ca_cert_str) := attest_util_read_seq_file_ca E in
        mkPointers Live (held message_out) (held csr_str) (held cert_str)
          (held ca_cert_str)
  else mkPointers Live (held message_out) Null Null Null.

(** From [out_free] to the end of the loop body, [rc] being the code the
    turn ended with. *)
Definition leave (p : pointers) (op len rc : Z) (fd : sock)
    : verdict * locals * sock :=
  match out_free p with
  | None => (FreesTwice, mkFrame len op p, fd)
  | Some p' =>
      (if negb (rc =? 0) then ServerExits else NextConnection,
       mkFrame len op p', fd)
  end.

(** From the label [response] to the end of the loop body.  A failed
    write of the length is [goto out]: nothing is freed. *)
Definition respond (p : pointers) (op len : Z) (message_out : option (list Z))
    (fd : sock) : verdict * locals * sock :=
  let '(rc, _, fd) :=
    attest_util_write_buf fd (store_size_t M len) sizeof_size_t in
  if negb (rc =? 0) then (ServerExits, mkFrame len op p, fd) else
  if negb (len =? 0) then
    let '(rc, _, fd) :=
      attest_util_write_buf fd
        (match message_out with Some m => m ++ [0] | None => [] end)
        (len - sizeof_size_t) in
    leave p op len rc fd
  else leave p op len rc fd.

(** [message_in = malloc(...)]. *)
Definition assigned (q : pointer) (p : pointers) : pointers :=
  mkPointers q (p_message_out p) (p_csr_str p) (p_cert_str p) (p_ca_cert_str p).

(** The first part of the loop body: the three reads and the [malloc]
    between them.  A length field of 15 makes [len + 1] wrap to 0: when
    [malloc(0)] returns a block, [message_in[len] = 0] is a store at
    [message_in - 1]. *)
Definition read_request (st : locals) (fd : sock) : request * locals * sock :=
  let p := l_ptrs st in
  let '(rc, lenb, fd) :=
    attest_util_read_buf fd (store_size_t M (l_len st)) sizeof_size_t in
  let len := load_size_t M lenb in
  if negb (rc =? 0) then (ReadFailed rc, mkFrame len (l_op st) p, fd) else
  let '(rc, opb, fd) :=
    attest_util_read_buf fd (store_int M (l_op st)) sizeof_int in
  let op := load_int M opb in
  if negb (rc =? 0) then (ReadFailed rc, mkFrame len op p, fd) else
  let len := to_size_t (len - 2 * sizeof_size_t) in
  if negb (malloc_ok M (to_size_t (len + 1))) then
    (NoMemory, mkFrame 0 op (assigned Null p), fd)
  else if to_size_t (len + 1) =? 0 then
    (ZeroBlock, mkFrame len op (assigned Live p), fd)
  else
    let message_in := fresh_mem M len ++ [0] in
    let '(rc, message_in, fd) := attest_util_read_buf fd message_in len in
    if negb (rc =? 0) then (ReadFailed rc, mkFrame len op (assigned Live p), fd)
    else (Request message_in, mkFrame len op (assigned Live p), fd).

(** One turn of the loop on the accepted connection [fd]. *)
Definition serve (st : locals) (fd : sock) : verdict * locals * sock :=
  let '(req, st, fd) := read_request st fd in
  match req with
  | ReadFailed rc => leave (l_ptrs st) (l_op st) (l_len st) rc fd
  | NoMemory => respond (l_ptrs st) (l_op st) 0 None fd
  | ZeroBlock => (StoresOutside, st, fd)
  | Request message_in =>
      let len := 0 in
      let '(rc, message_out) := dispatch (l_op st) message_in in
      let p := after_switch (l_op st) message_in message_out in
      if rc =? 0 then
        match message_out with
        | None => (NullDereference, mkFrame len (l_op st) p, fd)
        | Some m =>
            respond p (l_op st) (to_size_t (strlen m + sizeof_size_t + 1))
              message_out fd
        end
      else respond p (l_op st) len message_out fd
  end.

(** [while (1)] over the connections that arrive, [None] being an
    [accept] that fails.  The result lists the connections served, as they
    are when the loop leaves them, and tells how the loop stands. *)
Fixpoint accept_loop (st : locals) (conns : list (option sock))
    : list sock * verdict :=
  match conns with
  | [] => ([], NextConnection)
  | None :: rest => accept_loop st rest
  | Some fd :: rest =>
      let '(v, st', fd') := serve st fd in
      match v with
      | NextConnection =>
          let '(served, v') := accept_loop st' rest in (fd' :: served, v')
      | _ => ([fd'], v)
      end
  end.
End Server.
End RaServer.

(** ** util.c: attest_util_read_file

    A path names no readable file ([None]) or a file with its content.
    [len] and [data] are the objects behind the two output pointers as they
    are before the call.  [mmap] refuses a length of 0, so an empty file
    ends with [- ENOMEM]; a file that is not empty is taken to map. *)

Definition attest_util_read_file (file : option (list Z)) (len : Z)
    (data : list Z) : Z * Z * list Z :=
  match file with
  | None => (- EACCES, len, data)
  | Some content =>
      let len := to_size_t (Z.of_nat (length content)) in
      if len =? 0 then (- ENOMEM, len, []) else (0, len, content)
  end.

(** ** attest_tls_client.c: send_receive_attest_data *)

Module TlsClient.
Import RwBuf.

Section Client.
Variable M : machine.

(** [attest_data_path] is [None] for a [NULL] path, and otherwise what
    the path names.  The result is the return code, what was stored
    through [server_attest_data_size] and [server_attest_data] if
    anything was, and the socket. *)
Definition send_receive_attest_data (server : sock)
    (attest_data_path : option (option (list Z)))
    : Z * option (Z * list Z) * sock :=
  let '(file_size, data_size, client_attest_data) :=
    match attest_data_path with
    | Some file =>
        let '(rc, file_size, data) := attest_util_read_file file 0 [] in
        (file_size, if rc =? 0 then file_size else 0, data)
    | None => (0, 0, [])
    end in
  let data_size := htonl M data_size in
  let '(rc, _, server) :=
    attest_util_write_buf server (store_size_t M data_size) sizeof_size_t in
  if rc <? 0 then (rc, None, server) else
  let '(rc, server) :=
    if negb (file_size =? 0) then
      let '(rc, _, server) :=
        attest_util_write_buf server client_attest_data file_size in
      (rc, server)
    else (rc, server) in
  if rc <? 0 then (rc, None, server) else
  let '(rc, sizeb, server) :=
    attest_util_read_buf server (store_size_t M data_size) sizeof_size_t in
  if rc <? 0 then (rc, None, server) else
  let data_size := ntohl M (load_size_t M sizeb) in
  if negb (data_size =? 0) then
    if negb (malloc_ok M data_size) then (- ENOMEM, None, server) else
    let '(rc, data, server) :=
      attest_util_read_buf server (fresh_mem M data_size) data_size in
    if rc <? 0 then (rc, None, server)
    else (rc, Some (data_size, data), server)
  else (rc, None, server).
End Client.
End TlsClient.

(** ** util.c: attest_util_parse_pcr_list *)

Module PcrList.

Definition LONG_MAX : Z := 2 ^ 63 - 1.
Definition LONG_MIN : Z := - 2 ^ 63.

Definition isspace (c : ascii) : bool :=
  let n := Z.of_nat (nat_of_ascii c) in (n =? 32) || ((9 <=? n) && (n <=? 13)).

Definition digit_of (c : ascii) : option Z :=
  let n := Z.of_nat (nat_of_ascii c) in
  if (48 <=? n) && (n <=? 57) then Some (n - 48) else None.

Fixpoint skip_space (s : string) : string :=
  match s with
  | String c s' => if isspace c then skip_space s' else s
  | EmptyString => s
  end.

Fixpoint digits (acc : Z) (s : string) : Z :=
  match s with
  | String c s' =>
      match digit_of c with
      | Some d => digits (acc * 10 + d) s'
      | None => acc
      end
  | EmptyString => acc
  end.

(** [strtol(nptr, NULL, 10)]: white space, an optional sign, the longest
    run of digits (none gives 0); a value no [long] holds is clamped. *)
Definition strtol (nptr : string) : Z :=
  let s := skip_space nptr in
  let '(neg, s) :=
    match s with
    | String "-"%char s' => (true, s')
    | String "+"%char s' => (false, s')
    | _ => (false, s)
    end in
  let v := digits 0 s in
  if neg then Z.max LONG_MIN (- v) else Z.min LONG_MAX v.

(** The tokens successive calls of [strsep(&list_ptr, ",")] return: the
    pieces between the commas, empty ones included, at least one. *)
Fixpoint tokens (s : string) : list string :=
  match s with
  | EmptyString => [EmptyString]
  | String c s' =>
      if Ascii.eqb c ","%char then EmptyString :: tokens s'
      else
        match tokens s' with
        | t :: ts => String c t :: ts
        | [] => [String c EmptyString]
        end
  end.

(** The caller's array of [int], and the stores that fell outside it, in
    order, each with its index. *)
Record int_array := mkIntArray { cells : list Z; overrun : list (Z * Z) }.

Fixpoint set_nth (n : nat) (v : Z) (l : list Z) : list Z :=
  match l, n with
  | [], _ => []
  | _ :: l', O => v :: l'
  | x :: l', S n' => x :: set_nth n' v l'
  end.

(** [a[i] = v]. *)
Definition astore (a : int_array) (i v : Z) : int_array :=
  if (0 <=? i) && (i <? Z.of_nat (length (cells a))) then
    mkIntArray (set_nth (Z.to_nat i) v (cells a)) (overrun a)
  else mkIntArray (cells a) (overrun a ++ [(i, v)]).

(** [for (i = 0; i < pcr_list_num; i++) pcr_list[i] = -1;] with [n]
    iterations left. *)
Fixpoint init_loop (n : nat) (i : Z) (pcr_list : int_array) : int_array :=
  match n with
  | O => pcr_list
  | S n' => init_loop n' (i + 1) (astore pcr_list i (-1))
  end.

(** The [while] loop over the tokens. *)
Fixpoint parse_loop (toks : list string) (pcr_list_num i : Z)
    (pcr_list : int_array) : Z * int_array :=
  match toks with
  | [] => (0, pcr_list)
  | pcr_str :: rest =>
      if i >? pcr_list_num then (- ERANGE, pcr_list)
      else
        let pcr := to_int (strtol pcr_str) in
        if pcr <? 0 then (pcr, pcr_list)
        else parse_loop rest pcr_list_num (i + 1) (astore pcr_list i pcr)
  end.

Definition attest_util_parse_pcr_list (M : machine) (pcr_list_str : string)
    (pcr_list_num : Z) (pcr_list : int_array) : Z * int_array :=
  let pcr_list := init_loop (Z.to_nat pcr_list_num) 0 pcr_list in
  if negb (malloc_ok M (Z.of_nat (String.length pcr_list_str) + 1)) then
    (- ENOMEM, pcr_list)
  else parse_loop (tokens pcr_list_str) pcr_list_num 0 pcr_list.

(** Modelled from the spec: [IMPLEMENTATION_PCR], the number of PCRs, comes
    from the headers of the TSS library, which are not part of the sources;
    the specification has 24 PCRs in a mask of 3 bytes.  It is the length of
    the array [pcr_list] of the server's [main]. *)
Definition IMPLEMENTATION_PCR : Z := 24.

End PcrList.



(** ** Sample configurations

    A little-endian machine whose [malloc] serves requests below 64 KiB,
    and an enrollment library that trusts no endorsement key, issues a
    fixed certificate and a fixed nonce, and accepts every quote. *)

Definition demo_machine : machine :=
  mkMachine LittleEndian (fun n => n <? 65536) (fun _ => 170).

Definition demo_enroll : RaServer.enroll_server :=
  RaServer.mkEnroll
    (fun _ => (- EACCES, None))
    (fun _ => (0, Some [99; 101; 114; 116]))
    (fun m => (0, Some m))
    (fun csr => (0, csr))
    (0, Some [99; 97])
    (fun cert ca => (0, cert))
    (fun _ => (0, Some [110; 111; 110; 99; 101]))
    (fun _ => (0, Some [111; 107])).

(** The bytes a call of [send_receive] has put on the wire. *)
Definition sent (r : Z * option (list Z) * option sock) : list Z :=
  match snd r with
  | Some fd => tx fd
  | None => []
  end.

(** ** util.c: hex_byte_pack, hex_to_bin, _hex2bin, _bin2hex

    Characters are their codes.  [tolower] is the one of the C locale. *)

Module Hex.

(** ["0123456789abcdef"] *)
Definition hex_asc : list Z :=
  [48; 49; 50; 51; 52; 53; 54; 55; 56; 57; 97; 98; 99; 100; 101; 102].

Definition hex_asc_lo (x : Z) : Z := nth (Z.to_nat (Z.land x 15)) hex_asc 0.
Definition hex_asc_hi (x : Z) : Z :=
  nth (Z.to_nat (Z.shiftr (Z.land x 240) 4)) hex_asc 0.

(** The two characters [hex_byte_pack] stores at [buf] and [buf + 1]. *)
Definition hex_byte_pack (byte : Z) : list Z := [hex_asc_hi byte; hex_asc_lo byte].

Definition tolower (c : Z) : Z := if (65 <=? c) && (c <=? 90) then c + 32 else c.

Definition hex_to_bin (ch : Z) : Z :=
  if (48 <=? ch) && (ch <=? 57) then ch - 48
  else
    let ch := tolower ch in
    if (97 <=? ch) && (ch <=? 102) then ch - 97 + 10 else -1.

(** [while (count--)] of [_hex2bin], [n] turns left: [dst] is the memory the
    caller passed, [d] and [s] are how far the two pointers have moved. *)
Fixpoint hex2bin_loop (n : nat) (dst : list Z) (d : Z) (src : u8array) (s : Z)
    : Z * list Z :=
  match n with
  | O => (0, dst)
  | S n' =>
      let hi := hex_to_bin (aget src s) in
      let lo := hex_to_bin (aget src (s + 1)) in
      if (hi <? 0) || (lo <? 0) then (-1, dst)
      else
        hex2bin_loop n' (poke dst d [Z.lor (Z.shiftl hi 4) lo mod 256])
          (d + 1) src (s + 2)
  end.

Definition _hex2bin (dst : list Z) (src : u8array) (count : Z) : Z * list Z :=
  hex2bin_loop (Z.to_nat (to_size_t count)) dst 0 src 0.

(** [while (count--)] of [_bin2hex]; the result is the memory at [dst] and
    the offset of the pointer the function returns. *)
Fixpoint bin2hex_loop (n : nat) (dst : list Z) (d : Z) (src : u8array) (s : Z)
    : list Z * Z :=
  match n with
  | O => (dst, d)
  | S n' =>
      bin2hex_loop n' (poke dst d (hex_byte_pack (aget src s))) (d + 2)
        src (s + 1)
  end.

Definition _bin2hex (dst : list Z) (src : u8array) (count : Z) : list Z * Z :=
  bin2hex_loop (Z.to_nat (to_size_t count)) dst 0 src 0.

(** The bytes a text of hexadecimal digits stands for, pair by pair. *)
Fixpoint hex_pairs (text : list Z) : list Z :=
  match text with
  | hi :: lo :: rest =>
      Z.lor (Z.shiftl (hex_to_bin hi) 4) (hex_to_bin lo) mod 256 :: hex_pairs rest
  | _ => []
  end.

(** A hexadecimal digit, of either case. *)
Definition isxdigit (c : Z) : bool :=
  ((48 <=? c) && (c <=? 57)) || ((65 <=? c) && (c <=? 70))
  || ((97 <=? c) && (c <=? 102)).

End Hex.

(** ** attest_ra_server.c, lines 167-180: the required mask

    [pcr_mask] is an array of three [uint8_t]; a store at an index outside
    it is logged in [overrun] with the bits that were to be set. *)

Module PcrMask.
Import PcrList.

(** [a[i] |= v] on an array of [uint8_t]. *)
Definition aor (a : int_array) (i v : Z) : int_array :=
  if (0 <=? i) && (i <? Z.of_nat (length (cells a))) then
    mkIntArray
      (set_nth (Z.to_nat i) (Z.lor (nth (Z.to_nat i) (cells a) 0) v mod 256)
         (cells a))
      (overrun a)
  else mkIntArray (cells a) (overrun a ++ [(i, v)]).

(** The [for] loop over the entries of [pcr_list]; [/] and [%] of C
    truncate. *)
Fixpoint mask_loop (pcr_list : list Z) (pcr_mask : int_array) : int_array :=
  match pcr_list with
  | [] => pcr_mask
  | pcr :: rest =>
      if pcr =? -1 then mask_loop rest pcr_mask
      else
        mask_loop rest
          (aor pcr_mask (Z.quot pcr 8) (Z.shiftl 1 (Z.rem pcr 8)))
  end.

(** [uint8_t pcr_mask[3] = { 0 }] *)
Definition pcr_mask_init : int_array := mkIntArray [0; 0; 0] [].

(** The block [if (pcr_list_str) { ... }]: the code with which [main]
    returns at once when it is negative, the array [pcr_list] and the
    mask. *)
Definition load_pcr_mask (M : machine) (pcr_list_str : option string)
    (pcr_list : int_array) : Z * int_array * int_array :=
  match pcr_list_str with
  | None => (0, pcr_list, pcr_mask_init)
  | Some str =>
      let '(rc, pcr_list) :=
        attest_util_parse_pcr_list M str (Z.of_nat (length (cells pcr_list)))
          pcr_list in
      if rc <? 0 then (rc, pcr_list, pcr_mask_init)
      else (rc, pcr_list, mask_loop (cells pcr_list) pcr_mask_init)
  end.

End PcrMask.

(** ** util.c: attest_util_write_file, attest_util_copy_file

    The file system maps a path to the content of the file it names.
    What [open] returns is the environment's: -1 when the file cannot be
    opened, else the lowest descriptor that is free, which is 0 for a
    process started with its standard input closed. *)

Module Files.
Import RwBuf.

Definition fs := string -> option (list Z).

Definition content_of (F : fs) (path : string) : list Z :=
  match F path with Some c => c | None => [] end.

Definition fs_write (F : fs) (path : string) (content : list Z) : fs :=
  fun p => if String.eqb p path then Some content else F p.

(** [open(path, O_WRONLY | O_CREAT | (append ? O_APPEND : O_TRUNC), 0600)]
    returning [fd]: a successful call creates the file when it is missing
    and, without [O_APPEND], empties it. *)
Definition open_write (F : fs) (path : string) (append fd : Z) : fs :=
  if fd <? 0 then F
  else fs_write F path (if append =? 0 then [] else content_of F path).

(** The descriptor as [write] sees it.  Every byte written goes to the end
    of the file; [kern] is the kernel's script for the calls on it.  On
    the descriptor -1 [write] fails; the loop of [attest_util_rw_buf]
    makes one call on it and leaves ([rw_buf_first_call_fails]). *)
Definition file_desc (F : fs) (path : string) (fd : Z) (kern : list Z) : sock :=
  if fd <? 0 then mkSock [] [] [-1]
  else mkSock [] (content_of F path) kern.

(** The result is the return code and the file system afterwards.  The
    test after [open] is [!fd]: it catches the descriptor 0 and lets -1
    through to [attest_util_write_buf]. *)
Definition attest_util_write_file (F : fs) (fd : Z) (kern : list Z)
    (path : string) (len : Z) (data : list Z) (append : Z) : Z * fs :=
  let F1 := open_write F path append fd in
  if fd =? 0 then (- EACCES, F1)
  else
    let '(rc, _, s) := attest_util_write_buf (file_desc F1 path fd kern) data len in
    (rc, if fd <? 0 then F1 else fs_write F1 path (tx s)).

(** The source is mapped privately and written to the destination, which
    is opened with [O_TRUNC].  The mapping is taken as the bytes of the
    source when it is made; the properties below are stated for two
    different paths, where opening the destination does not change what
    the mapping shows. *)
Definition attest_util_copy_file (F : fs) (fd : Z) (kern : list Z)
    (path_source path_dest : string) : Z * fs :=
  let '(rc, len, data) := attest_util_read_file (F path_source) 0 [] in
  if negb (rc =? 0) then (rc, F)
  else attest_util_write_file F fd kern path_dest len data 0.

End Files.

(** ** util.c: attest_util_read_seq_file

    The file is read twice: once through a buffer of 512 bytes on the
    stack to count its bytes, then, opened again, into a block of that
    many bytes and one more.  [first] and [second] are the two calls of
    [open]: [None] when the call fails, else the descriptor, whose queue
    [rx] is the content the file shows to this reader. *)

Module SeqFile.

(** The object behind [data] after the call. *)
Inductive data_ptr :=
  | Untouched
  | Null
  | Block (bytes : list Z)
  | Freed.

(** [Returns rc len data fd_open]: the return code, the object behind
    [len], the one behind [data], and whether the descriptor is still
    open.  [StoreOutside off]: a store at [data + off] outside the block,
    after which nothing is defined. *)
Inductive seq_outcome :=
  | Returns (rc len : Z) (data : data_ptr) (fd_open : bool)
  | StoreOutside (off : Z).

Inductive fill_result :=
  | Filled (data : list Z)
  | Short (data : list Z)
  | Outside (off : Z).

(** First pass, [*data] being [NULL]: [buf_len] stays 512 and the loop
    ends when the [size_t] [cur_len] is 0.  The result is [total_len];
    [None] when [fuel] iterations were not enough. *)
Fixpoint count_loop (fuel : nat) (s : sock) (total_len : Z) : option Z :=
  match fuel with
  | O => None
  | S fuel' =>
      let '(ret, _, s') := sys_read s 512 in
      let cur_len := to_size_t ret in
      if cur_len <=? 0 then Some total_len
      else count_loop fuel' s' (to_size_t (total_len + cur_len))
  end.

(** Second pass: [off] is [buf_ptr - *data].  Adding the [size_t]
    [cur_len] to the pointer is adding the [ssize_t] that [read] returned,
    in a flat address space of 64 bits. *)
Fixpoint fill_loop (fuel : nat) (s : sock) (data : list Z) (off buf_len : Z)
    : option fill_result :=
  if buf_len =? 0 then Some (Filled data)
  else
    match fuel with
    | O => None
    | S fuel' =>
        let '(ret, d, s') := sys_read s buf_len in
        let cur_len := to_size_t ret in
        if cur_len <=? 0 then Some (Short data)
        else if negb (ret <=? 0)
                && ((off <? 0) || (Z.of_nat (length data) <? off + ret))
        then Some (Outside off)
        else fill_loop fuel' s' (poke data off d) (off + ret)
               (to_size_t (buf_len - cur_len))
    end.

(** Every iteration of either loop uses an entry of the kernel's script
    or takes a byte from the queue, or is the last: the fuel given is
    enough ([count_loop_fuel], [fill_loop_fuel] below) and the defaults
    are never taken. *)
Definition attest_util_read_seq_file (M : machine) (first second : option sock)
    (len : Z) (data : data_ptr) : seq_outcome :=
  match first with
  | None => Returns (- EACCES) len data false
  | Some s1 =>
      match count_loop (S (length (kern s1) + length (rx s1))) s1 0 with
      | None => Returns (- EIO) len Null true
      | Some total_len =>
          if total_len =? 0 then Returns (- EIO) len Null true
          else if negb (malloc_ok M (to_size_t (total_len + 1)))
          then Returns (- ENOMEM) len Null true
          else if to_size_t (total_len + 1) <=? total_len
          then StoreOutside total_len
          else
            let block := poke (fresh_mem M (total_len + 1)) total_len [0] in
            match second with
            | None => Returns (- EACCES) total_len Freed false
            | Some s2 =>
                match fill_loop (S (length (kern s2) + length (rx s2)))
                        s2 block 0 total_len with
                | None => Returns (- EIO) total_len (Block block) true
                | Some (Filled b) => Returns 0 total_len (Block b) false
                | Some (Short b) => Returns (- EIO) total_len (Block b) true
                | Some (Outside off) => StoreOutside off
                end
            end
      end
  end.

End SeqFile.

(** ** attest_tls_client.c: main

    The options are as [getopt_long] leaves them; [create_socket] is the
    connected socket or [None] for -1; [SSL_read_ex] lists what the calls
    in the reply loop deliver, each at most nine bytes, until one fails;
    the other fields are what the calls return.  The TLS session - the
    handshake, the request written and the replies read through it - is
    the environment's: it shows in the result only through what
    [SSL_connect], [SSL_get_verify_result] and [SSL_read_ex] return.  The
    result is [rc] as it stands at [return rc], what [main] wrote to the
    standard output, and how the cleanup in front of the [return]
    ends. *)

Module TlsClientMain.
Import RwBuf TlsClient.

Record options := mkOptions {
  server_fqdn : option string;
  req_path : option string;
  attest_data_path : option (option (list Z));
  verify_skae : bool;
  custom_protocol : bool;
  verbose : bool }.

Record tls_env := mkTlsEnv {
  create_context : bool;
  configure_context : Z;
  create_socket : option sock;
  configure_attest : option (Z * list Z) -> Z;
  SSL_connect : Z;
  verifier_logs : string;
  SSL_get_verify_result : Z;
  SSL_read_ex : list (list Z) }.

Definition X509_V_OK : Z := 0.

Inductive printed :=
  | MissingServer
  | MissingRequirements
  | VerifierLogs (logs : string)
  | BadServerCert
  | GoodServerCert
  | ReplyText (text : list Z)
  | ServerReturned (total : Z).

(** What [server_attest_data] holds when [send_receive_attest_data] has
    returned: [NULL] as [main] initialised it, the block that was filled,
    or the address of the block that was freed at line 111. *)
Inductive attest_ptr :=
  | Unset
  | Stored
  | Dangling.

(** How [main] ends: [free(server_attest_data)] at [cleanup] frees a
    block, or [NULL], and [main] returns; or it frees the block of line
    111 again. *)
Inductive cleanup :=
  | Returned
  | FreedTwice.

(** [send_receive_attest_data] once more, step by step, for what it
    leaves in [*server_attest_data]: the pointer is written at line 102
    and not reset when the read into the block fails. *)
Definition server_attest_data_left (M : machine) (server : sock)
    (attest_data_path : option (option (list Z))) : attest_ptr :=
  let '(file_size, data_size, client_attest_data) :=
    match attest_data_path with
    | Some file =>
        let '(rc, file_size, data) := attest_util_read_file file 0 [] in
        (file_size, if rc =? 0 then file_size else 0, data)
    | None => (0, 0, [])
    end in
  let data_size := htonl M data_size in
  let '(rc, _, server) :=
    attest_util_write_buf server (store_size_t M data_size) sizeof_size_t in
  if rc <? 0 then Unset else
  let '(rc, server) :=
    if negb (file_size =? 0) then
      let '(rc, _, server) :=
        attest_util_write_buf server client_attest_data file_size in
      (rc, server)
    else (rc, server) in
  if rc <? 0 then Unset else
  let '(rc, sizeb, server) :=
    attest_util_read_buf server (store_size_t M data_size) sizeof_size_t in
  if rc <? 0 then Unset else
  let data_size := ntohl M (load_size_t M sizeb) in
  if negb (data_size =? 0) then
    if negb (malloc_ok M data_size) then Unset else
    let '(rc, data, server) :=
      attest_util_read_buf server (fresh_mem M data_size) data_size in
    if rc <? 0 then Dangling else Stored
  else Unset.

(** [free(server_attest_data)] at [cleanup]. *)
Definition free_attest_data (p : attest_ptr) : cleanup :=
  match p with
  | Dangling => FreedTwice
  | _ => Returned
  end.

(** What [printf("%s", reply)] shows of the bytes in [reply]. *)
Fixpoint until_nul (l : list Z) : list Z :=
  match l with
  | [] => []
  | c :: rest => if c =? 0 then [] else c :: until_nul rest
  end.

(** The reply loop: [total] is a [size_t]. *)
Fixpoint reply_loop (chunks : list (list Z)) (total : Z) : list printed :=
  match chunks with
  | [] => [ServerReturned total]
  | reply :: rest =>
      ReplyText (until_nul reply)
      :: reply_loop rest (to_size_t (total + Z.of_nat (length reply)))
  end.

(** [!SSL_get_verify_result(ssl) == X509_V_OK]: the negation binds to the
    call, and its result, 0 or 1, is compared with [X509_V_OK]. *)
Definition main (M : machine) (o : options) (env : tls_env)
    : Z * list printed * cleanup :=
  match server_fqdn o with
  | None => (- EINVAL, [MissingServer], Returned)
  | Some _ =>
      if verify_skae o && match req_path o with None => true | Some _ => false end
      then (- EINVAL, [MissingRequirements], Returned)
      else if negb (create_context env) then (- EINVAL, [], Returned)
      else
        let rc := configure_context env in
        if rc <? 0 then (rc, [], Returned)
        else
          match create_socket env with
          | None => (rc, [], Returned)
          | Some server =>
              let '(rc, attest, _) :=
                if custom_protocol o
                then send_receive_attest_data M server (attest_data_path o)
                else (rc, None, server) in
              let at_cleanup :=
                free_attest_data
                  (if custom_protocol o
                   then server_attest_data_left M server (attest_data_path o)
                   else Unset) in
              if custom_protocol o && (rc <? 0) then (rc, [], at_cleanup)
              else
                let rc := if verify_skae o then configure_attest env attest
                          else rc in
                if verify_skae o && (rc <? 0) then (rc, [], at_cleanup)
                else
                  let rc := SSL_connect env in
                  let logs := if verify_skae o && verbose o
                              then [VerifierLogs (verifier_logs env)] else [] in
                  if rc <=? 0 then (- EIO, logs, at_cleanup)
                  else if (if SSL_get_verify_result env =? 0 then 1 else 0)
                          =? X509_V_OK
                  then (rc, logs ++ [BadServerCert], at_cleanup)
                  else (rc,
                        logs ++ GoodServerCert
                          :: (if custom_protocol o then []
                              else reply_loop (SSL_read_ex env) 0),
                        at_cleanup)
          end
  end.

End TlsClientMain.

(* ================================================================== *)
(** * Properties *)

(** ** Exact-length transfers *)

Section RwFacts.
Import RwBuf.

Lemma size_modulus_pos : 0 < size_modulus.
Proof. reflexivity. Qed.

Lemma to_size_t_range z : 0 <= to_size_t z < size_modulus.
Proof. apply Z.mod_pos_bound, size_modulus_pos. Qed.

Lemma to_size_t_id z : 0 <= z < size_modulus -> to_size_t z = z.
Proof. apply Z.mod_small. Qed.

Lemma rw_loop_eq fuel op s buf B p :
  rw_loop fuel op s buf B p =
  if p <? B then
    match fuel with
    | O => None
    | S fuel' =>
        let '(ret, buf', s') := rw_call op s buf B p in
        if to_size_t ret <=? 0 then Some (- EIO, buf', s')
        else rw_loop fuel' op s' buf' B (to_size_t (p + to_size_t ret))
    end
  else Some (0, buf, s).
Proof. destruct fuel; reflexivity. Qed.

Lemma rw_call_kern op s buf B p :
  kern (snd (rw_call op s buf B p)) = tl (kern s).
Proof.
  unfold rw_call, sys_read, sys_write.
  destruct (op =? O_RDONLY); destruct (grant _ _ <? 0); reflexivity.
Qed.

(** With the script used up, a read is served from the queue in full. *)
Lemma sys_read_coop s c :
  kern s = [] -> 0 <= c ->
  sys_read s c =
    (Z.min c (Z.of_nat (length (rx s))),
     firstn (Z.to_nat c) (rx s),
     mkSock (skipn (Z.to_nat c) (rx s)) (tx s) []).
Proof.
  intros Hk Hc. unfold sys_read, grant. rewrite Hk. cbn [tl].
  destruct (Z.ltb_spec c 0); [lia|].
  rewrite Z.min_id.
  destruct (Z.le_ge_cases c (Z.of_nat (length (rx s)))) as [Hle|Hge].
  - rewrite Z.min_l by lia. rewrite Z2Nat.id by lia. reflexivity.
  - rewrite Z.min_r by lia. rewrite Nat2Z.id.
    rewrite !firstn_all2 by lia. rewrite !skipn_all2 by lia. reflexivity.
Qed.

Lemma sys_write_coop s data :
  kern s = [] ->
  sys_write s data = (Z.of_nat (length data), mkSock (rx s) (tx s ++ data) []).
Proof.
  intros Hk. unfold sys_write, grant. rewrite Hk. cbn [tl].
  destruct (Z.ltb_spec (Z.of_nat (length data)) 0); [lia|].
  rewrite Z.min_id, Nat2Z.id, firstn_all. reflexivity.
Qed.

Lemma rw_loop_coop op s buf B p fuel :
  kern s = [] -> 0 <= p -> B < size_modulus ->
  rw_loop (S (S fuel)) op s buf B p <> None.
Proof.
  intros Hk Hp HB. rewrite rw_loop_eq.
  destruct (Z.ltb_spec p B) as [HpB|]; [|discriminate].
  unfold rw_call. destruct (op =? O_RDONLY) eqn:Eop.
  - rewrite (sys_read_coop s (B - p) Hk) by lia.
    set (r := Z.min (B - p) (Z.of_nat (length (rx s)))).
    assert (Hr : 0 <= r <= B - p) by (unfold r; lia).
    rewrite (to_size_t_id r) by lia.
    destruct (Z.leb_spec r 0); [discriminate|].
    rewrite to_size_t_id by lia. rewrite rw_loop_eq.
    destruct (Z.ltb_spec (p + r) B) as [Hlt|]; [|discriminate].
    unfold rw_call. rewrite Eop.
    rewrite sys_read_coop by (simpl; lia || reflexivity). cbn [rx].
    rewrite length_skipn.
    replace (Z.min (B - (p + r)) _) with 0 by (unfold r in *; lia).
    discriminate.
  - rewrite (sys_write_coop _ _ Hk).
    set (d := peek buf p (B - p)).
    assert (Hd : Z.of_nat (length d) <= B - p).
    { unfold d, peek. rewrite length_firstn. lia. }
    rewrite (to_size_t_id (Z.of_nat _)) by lia.
    destruct (Z.leb_spec (Z.of_nat (length d)) 0); [discriminate|].
    rewrite to_size_t_id by lia. rewrite rw_loop_eq.
    destruct (Z.ltb_spec (p + Z.of_nat (length d)) B) as [Hlt|]; [|discriminate].
    unfold rw_call. rewrite Eop.
    rewrite sys_write_coop by reflexivity.
    assert (Hnil : peek buf (p + Z.of_nat (length d)) (B - (p + Z.of_nat (length d))) = []).
    { unfold peek. rewrite skipn_all2; [apply firstn_nil|].
      unfold d, peek in Hlt |- *. rewrite length_firstn, length_skipn in *. lia. }
    rewrite Hnil. discriminate.
Qed.

Lemma rw_loop_fuel k : forall fuel op s buf B p,
  length (kern s) = k -> (S (S k) <= fuel)%nat ->
  0 <= p -> B < size_modulus ->
  rw_loop fuel op s buf B p <> None.
Proof.
  induction k as [|k IH]; intros fuel op s buf B p Hk Hf Hp HB.
  - destruct fuel as [|[|fuel]]; try lia.
    apply rw_loop_coop; trivial. now apply length_zero_iff_nil.
  - destruct fuel as [|fuel]; [lia|]. rewrite rw_loop_eq.
    destruct (p <? B); [|discriminate].
    pose proof (rw_call_kern op s buf B p) as Hkern.
    destruct (rw_call op s buf B p) as [[ret buf'] s'].
    destruct (to_size_t ret <=? 0); [discriminate|].
    apply IH.
    + cbn [snd] in Hkern. rewrite Hkern. destruct (kern s); simpl in *; lia.
    + lia.
    + apply to_size_t_range.
    + exact HB.
Qed.

(** The loop of [attest_util_rw_buf] returns: the fuel it is given is
    enough on every socket. *)
Lemma attest_util_rw_buf_returns s buf buf_len op :
  rw_loop (S (S (length (kern s)))) op s buf (to_size_t buf_len) 0
  = Some (attest_util_rw_buf s buf buf_len op).
Proof.
  unfold attest_util_rw_buf.
  destruct (rw_loop _ _ _ _ _ _) eqn:E; [reflexivity|].
  exfalso. revert E. apply (rw_loop_fuel (length (kern s))); try lia.
  apply to_size_t_range.
Qed.
End RwFacts.

(** ** The PCR mask check *)

Section MaskFacts.
Import Mask.

Lemma aget_elems (a : u8array) (j : nat) :
  (j < length (elems a))%nat -> aget a (Z.of_nat j) = nth j (elems a) 0.
Proof.
  intros Hj. unfold aget, alen.
  destruct (Z.ltb_spec (Z.of_nat j) (Z.of_nat (length (elems a)))); [|lia].
  now rewrite Nat2Z.id.
Qed.

Lemma check_mask_loop_range L A R n i :
  check_mask_loop L A R n i = 0 \/ check_mask_loop L A R n i = - ENOENT.
Proof.
  revert i; induction n as [|n IH]; intros i; simpl; [now left|].
  destruct (_ && _); [now right|].
  destruct (negb _); [now right|]. apply IH.
Qed.

Lemma check_mask_loop_zero L A R n i :
  check_mask_loop L A R n i = 0 <->
  forall j, i <= j < i + Z.of_nat n -> index_ok L A R j.
Proof.
  revert i; induction n as [|n IH]; intros i.
  - simpl. split; [intros _ j Hj; lia | reflexivity].
  - cbn [check_mask_loop].
    destruct ((i >? L) && negb (aget R i =? 0)) eqn:E1.
    + split; [unfold ENOENT; discriminate|].
      intros H. destruct (H i ltac:(lia)) as [H1 _]. congruence.
    + destruct (Z.eqb_spec (Z.land (aget A i) (aget R i)) (aget R i)) as [E2|E2];
        cbn [negb].
      * rewrite IH. split.
        -- intros H j Hj. destruct (Z.eq_dec j i) as [->|Hne].
           ++ now split.
           ++ apply H. lia.
        -- intros H j Hj. apply H. lia.
      * split; [unfold ENOENT; discriminate|].
        intros H. destruct (H i ltac:(lia)) as [_ H2]. contradiction.
Qed.

(** Byte-wise coverage is bit-wise coverage. *)
Lemma land_covers_byte (a r : Z) :
  is_u8 r ->
  (Z.land a r = r <->
   forall n, (n < 8)%nat -> Z.testbit r (Z.of_nat n) = true ->
             Z.testbit a (Z.of_nat n) = true).
Proof.
  intros Hr. split.
  - intros H n _ Hn. rewrite <- H in Hn. rewrite Z.land_spec in Hn.
    now apply andb_true_iff in Hn.
  - intros H. apply Z.bits_inj'. intros n Hn. rewrite Z.land_spec.
    destruct (Z.testbit r n) eqn:Er; [|apply andb_false_r].
    destruct (Z_lt_le_dec n 8) as [Hlt|Hge].
    + rewrite <- (Z2Nat.id n) in Er |- * by lia.
      rewrite (H (Z.to_nat n)); [reflexivity | lia | exact Er].
    + exfalso. destruct (Z.eq_dec r 0) as [->|Hnz].
      * now rewrite Z.bits_0 in Er.
      * rewrite Z.bits_above_log2 in Er; [discriminate| |].
        -- unfold is_u8 in Hr; lia.
        -- assert (Z.log2 r < 8); [|lia].
           apply Z.log2_lt_pow2; unfold is_u8 in Hr; lia.
Qed.

Lemma nth_is_u8 (l : list Z) (j : nat) : u8_list l -> is_u8 (nth j l 0).
Proof.
  intros H. destruct (Nat.lt_ge_cases j (length l)) as [Hlt|Hge].
  - unfold u8_list in H. rewrite Forall_forall in H. apply H. now apply nth_In.
  - rewrite nth_overflow by lia. unfold is_u8; lia.
Qed.

Lemma covers_bytes (A R : list Z) :
  u8_list R ->
  (covers A R <-> forall j, Z.land (nth j A 0) (nth j R 0) = nth j R 0).
Proof.
  intros HR. unfold covers, mask_bit. split.
  - intros H j. apply land_covers_byte; [now apply nth_is_u8|].
    intros n Hn Hb. specialize (H (j * 8 + n)%nat).
    rewrite Nat.div_add_l, Nat.div_small, Nat.add_0_r in H by lia.
    rewrite Nat.Div0.add_mod, Nat.Div0.mod_mul, Nat.add_0_l in H.
    rewrite Nat.Div0.mod_mod, Nat.mod_small in H by lia. now apply H.
  - intros H k Hb.
    pose proof (proj1 (land_covers_byte (nth (k / 8) A 0) (nth (k / 8) R 0)
                         (nth_is_u8 R (k / 8) HR)) (H (k / 8)%nat)) as Hc.
    apply Hc; [|exact Hb]. apply Nat.mod_upper_bound. lia.
Qed.
End MaskFacts.

Section MaskContract.
Import Mask.

Lemma check_mask_zero_bytes (A R : u8array) :
  alen A <= alen R ->
  nth (length (elems A)) (elems R) 0 = 0 ->
  (check_mask A R = 0 <->
   forall j, Z.land (nth j (elems A) 0) (nth j (elems R) 0) = nth j (elems R) 0).
Proof.
  intros Hlen Hgap. unfold check_mask, attest_util_check_mask.
  destruct (Z.gtb_spec (alen A) (alen R)) as [?|_]; [lia|].
  rewrite check_mask_loop_zero. unfold alen in *. rewrite Nat2Z.id.
  set (la := length (elems A)) in *. set (lr := length (elems R)) in *.
  split.
  - intros H j. destruct (Nat.lt_ge_cases j lr) as [Hj|Hj].
    + destruct (H (Z.of_nat j) ltac:(lia)) as [H1 H2].
      rewrite (aget_elems R j Hj) in H1, H2.
      destruct (Nat.lt_ge_cases j la) as [Hja|Hja].
      * now rewrite (aget_elems A j Hja) in H2.
      * rewrite (nth_overflow (elems A)) by (fold la; lia). rewrite Z.land_0_l.
        destruct (Nat.eq_dec j la) as [->|Hne]; [now rewrite Hgap|].
        destruct (Z.gtb_spec (Z.of_nat j) (Z.of_nat la)); [|lia].
        cbn [andb] in H1. apply negb_false_iff in H1.
        apply Z.eqb_eq in H1. now rewrite H1.
    + rewrite (nth_overflow (elems R)) by (fold lr; lia). apply Z.land_0_r.
  - intros H j Hj. rewrite <- (Z2Nat.id j) by lia.
    set (k := Z.to_nat j). assert (Hk : (k < lr)%nat) by lia.
    specialize (H k). unfold index_ok. rewrite (aget_elems R k Hk).
    destruct (Nat.lt_ge_cases k la) as [Hka|Hka].
    + rewrite (aget_elems A k Hka). split; [|exact H].
      destruct (Z.gtb_spec (Z.of_nat k) (Z.of_nat la)); [lia|reflexivity].
    + rewrite (nth_overflow (elems A)) in H by (fold la; lia).
      rewrite Z.land_0_l in H. rewrite <- H, Z.land_0_r.
      split; [|reflexivity]. now rewrite Z.eqb_refl, andb_false_r.
Qed.

(** C1 (as the code has it).  When the asserted mask [A] is not longer
    than the required mask [R], and [R] requires nothing in the byte that
    directly follows the last byte of [A], [check_mask A R] returns 0 if
    and only if every bit set in [R] is set in [A], and [- ENOENT] when
    some bit of [R] is missing; when [A] is longer than [R] the call is
    refused with [- EINVAL] whatever the bits are.  The two examples
    of the specification, required [0b00000101] against asserted
    [0b00000100] and [0b00000111], fail with [- ENOENT] and pass. *)
Theorem check_mask_coverage (A R : u8array) :
  u8_list (elems R) ->
  nth (length (elems A)) (elems R) 0 = 0 ->
  (alen A <= alen R ->
     (check_mask A R = 0 <-> covers (elems A) (elems R))
     /\ (~ covers (elems A) (elems R) -> check_mask A R = - ENOENT))
  /\ (alen R < alen A -> check_mask A R = - EINVAL)
  /\ check_mask (mkArr [4] (past A)) (mkArr [5] (past R)) = - ENOENT
  /\ check_mask (mkArr [7] (past A)) (mkArr [5] (past R)) = 0.
Proof.
  intros HR Hgap. split; [|split; [|split; reflexivity]].
  - intros Hlen.
    assert (Hiff : check_mask A R = 0 <-> covers (elems A) (elems R)).
    { rewrite (covers_bytes _ _ HR). now apply check_mask_zero_bytes. }
    split; [exact Hiff|]. intros Hnc.
    unfold check_mask, attest_util_check_mask in *.
    destruct (alen A >? alen R) eqn:E.
    + apply Z.gtb_lt in E. lia.
    + destruct (check_mask_loop_range (alen A) A R (Z.to_nat (alen R)) 0)
        as [H0|H1]; [|exact H1].
      exfalso. apply Hnc, Hiff, H0.
  - intros Hlen. unfold check_mask, attest_util_check_mask.
    destruct (Z.gtb_spec (alen A) (alen R)); [reflexivity|lia].
Qed.

(** The two examples of the specification: required [0b00000101] against
    asserted [0b00000111] passes, against [0b00000100] it fails. *)
Lemma check_mask_coverage_witness :
  let junk := fun _ : Z => 170 in
  (check_mask (mkArr [7] junk) (mkArr [5] junk) = 0
   <-> covers [7] [5])
  /\ check_mask (mkArr [7] junk) (mkArr [5] junk) = 0
  /\ check_mask (mkArr [4] junk) (mkArr [5] junk) = - ENOENT.
Proof.
  intros junk.
  assert (H5 : u8_list [5]) by (repeat constructor; unfold is_u8; lia).
  pose proof (check_mask_coverage (mkArr [7] junk) (mkArr [5] junk) H5 eq_refl)
    as (H7 & _ & Hfail & Hpass).
  specialize (H7 ltac:(unfold alen; simpl; lia)).
  split; [exact (proj1 H7)|]. split; [exact Hpass|exact Hfail].
Defined.

(** C1, refuted as written: an asserted mask that has every required bit,
    and one byte more than the required mask, is refused. *)
Lemma check_mask_coverage_counterexample :
  let A := mkArr [7; 0] (fun _ => 0) in
  let R := mkArr [5] (fun _ => 0) in
  covers (elems A) (elems R) /\ check_mask A R <> 0.
Proof.
  cbv zeta. split.
  - apply covers_bytes; [repeat constructor; unfold is_u8; lia|].
    intros [|[|j]]; simpl; try reflexivity. now destruct j.
  - vm_compute. discriminate.
Qed.

(** The guard of the loop is [i > mask_in_len]: at [i = mask_in_len] the
    loop reads the byte that follows the asserted mask in memory, and the
    answer depends on it. *)
Lemma check_mask_reads_past_end :
  check_mask (mkArr [7] (fun _ => 1)) (mkArr [5; 1] (fun _ => 0)) = 0
  /\ check_mask (mkArr [7] (fun _ => 0)) (mkArr [5; 1] (fun _ => 0)) = - ENOENT.
Proof. split; reflexivity. Qed.

(** C3 (as the code has it).  [- EINVAL] is the answer exactly when the
    asserted mask is LONGER than the required one; an asserted mask that
    is shorter or of the same length yields 0 or [- ENOENT]. *)
Theorem check_mask_invalid_length (A R : u8array) :
  (alen R < alen A -> check_mask A R = - EINVAL)
  /\ (alen A <= alen R ->
      check_mask A R = 0 \/ check_mask A R = - ENOENT).
Proof.
  unfold check_mask, attest_util_check_mask. split; intros H.
  - destruct (Z.gtb_spec (alen A) (alen R)); [reflexivity|lia].
  - destruct (Z.gtb_spec (alen A) (alen R)); [lia|].
    apply check_mask_loop_range.
Qed.

Lemma check_mask_invalid_length_witness :
  check_mask (mkArr [7; 0] (fun _ => 0)) (mkArr [5] (fun _ => 0)) = - EINVAL
  /\ (check_mask (mkArr [4] (fun _ => 0)) (mkArr [5; 0] (fun _ => 0)) = 0
      \/ check_mask (mkArr [4] (fun _ => 0)) (mkArr [5; 0] (fun _ => 0))
         = - ENOENT).
Proof.
  split.
  - apply (proj1 (check_mask_invalid_length _ _)). unfold alen; simpl; lia.
  - apply (proj2 (check_mask_invalid_length _ _)). unfold alen; simpl; lia.
Defined.

(** C3, refuted as written: the asserted mask is one byte shorter than
    the required mask and the call succeeds, whatever byte lies after the
    asserted mask in memory. *)
Lemma check_mask_invalid_length_counterexample :
  let A := mkArr [255] (fun _ => 0) in
  let R := mkArr [255; 0] (fun _ => 0) in
  alen A < alen R /\ check_mask A R = 0 /\ check_mask A R <> - EINVAL.
Proof.
  cbv zeta. split; [unfold alen; simpl; lia|].
  split; [reflexivity|]. vm_compute. discriminate.
Qed.
End MaskContract.
Section RwHealthy.
Import RwBuf.

Lemma healthy_tl s r t :
  healthy s -> healthy (mkSock r t (tl (kern s))).
Proof.
  unfold healthy. cbn [kern]. intros H.
  destruct (kern s); [constructor|]. now inversion H.
Qed.

Lemma firstn_app_skipn {A} (n m : nat) (l : list A) :
  firstn n l ++ firstn m (skipn n l) = firstn (n + m) l.
Proof.
  revert l; induction n as [|n IH]; intros l; [reflexivity|].
  destruct l as [|x l]; [now rewrite !firstn_nil|].
  simpl. now rewrite IH.
Qed.

(** One write on a healthy socket: some [n > 0] bytes of the request go
    out. *)
Lemma sys_write_healthy s data :
  healthy s -> data <> [] ->
  exists n, (0 < n <= length data)%nat /\
    sys_write s data =
      (Z.of_nat n, mkSock (rx s) (tx s ++ firstn n data) (tl (kern s))).
Proof.
  intros Hh Hd. unfold sys_write, grant.
  assert (Hlen : (0 < length data)%nat) by (destruct data; simpl; [congruence|lia]).
  destruct (kern s) as [|g ks] eqn:Ek.
  - exists (length data). split; [lia|].
    destruct (Z.ltb_spec (Z.of_nat (length data)) 0); [lia|].
    now rewrite Z.min_id, Nat2Z.id.
  - assert (Hg : 0 < g) by (unfold healthy in Hh; rewrite Ek in Hh; now inversion Hh).
    exists (Z.to_nat (Z.min g (Z.of_nat (length data)))). split; [lia|].
    destruct (Z.ltb_spec g 0); [lia|].
    rewrite Z2Nat.id by lia. reflexivity.
Qed.

Lemma sys_read_healthy s c :
  healthy s -> 0 < c -> rx s <> [] ->
  exists n, (0 < n <= length (rx s))%nat /\ Z.of_nat n <= c /\
    sys_read s c =
      (Z.of_nat n, firstn n (rx s), mkSock (skipn n (rx s)) (tx s) (tl (kern s))).
Proof.
  intros Hh Hc Hd. unfold sys_read, grant.
  assert (Hlen : (0 < length (rx s))%nat) by (destruct (rx s); simpl; [congruence|lia]).
  destruct (kern s) as [|g ks] eqn:Ek.
  - exists (Z.to_nat (Z.min (Z.min c c) (Z.of_nat (length (rx s))))).
    split; [lia|]. split; [lia|].
    destruct (Z.ltb_spec c 0); [lia|].
    rewrite Z2Nat.id by lia. reflexivity.
  - assert (Hg : 0 < g) by (unfold healthy in Hh; rewrite Ek in Hh; now inversion Hh).
    exists (Z.to_nat (Z.min (Z.min g c) (Z.of_nat (length (rx s))))).
    split; [lia|]. split; [lia|].
    destruct (Z.ltb_spec g 0); [lia|].
    rewrite Z2Nat.id by lia. reflexivity.
Qed.

Lemma sys_read_eof s c :
  healthy s -> 0 < c -> rx s = [] ->
  sys_read s c = (0, [], mkSock [] (tx s) (tl (kern s))).
Proof.
  intros Hh Hc Hd. unfold sys_read, grant. rewrite Hd.
  destruct (kern s) as [|g ks] eqn:Ek.
  - destruct (Z.ltb_spec c 0); [lia|]. simpl.
    replace (Z.to_nat (Z.min (Z.min c c) 0)) with 0%nat by lia. reflexivity.
  - assert (Hg : 0 < g) by (unfold healthy in Hh; rewrite Ek in Hh; now inversion Hh).
    destruct (Z.ltb_spec g 0); [lia|]. simpl.
    replace (Z.to_nat (Z.min (Z.min g c) 0)) with 0%nat by lia. reflexivity.
Qed.

(** The write loop on a healthy socket: from offset [p] on, the rest of
    the buffer goes out, in order, and the call succeeds. *)
Lemma rw_loop_write_healthy fuel : forall s buf B p,
  healthy s -> B = Z.of_nat (length buf) -> B < size_modulus -> 0 <= p <= B ->
  forall r, rw_loop fuel O_WRONLY s buf B p = Some r ->
  fst (fst r) = 0 /\ snd (fst r) = buf /\ rx (snd r) = rx s
  /\ tx (snd r) = tx s ++ skipn (Z.to_nat p) buf /\ healthy (snd r).
Proof.
  induction fuel as [|fuel IH]; intros s buf B p Hh HB Hmax Hp r;
    rewrite rw_loop_eq; destruct (Z.ltb_spec p B) as [HpB|HpB];
    try discriminate.
  - intros [= <-]. cbn. rewrite skipn_all2 by lia. now rewrite app_nil_r.
  - unfold rw_call. replace (O_WRONLY =? O_RDONLY) with false by reflexivity.
    set (d := peek buf p (B - p)).
    assert (Hd : d = skipn (Z.to_nat p) buf).
    { unfold d, peek. apply firstn_all2. rewrite length_skipn. lia. }
    assert (Hdl : length d = (length buf - Z.to_nat p)%nat)
      by (rewrite Hd; apply length_skipn).
    destruct (sys_write_healthy s d Hh) as (n & Hn & ->).
    { intros E. rewrite E in Hdl. simpl in Hdl. lia. }
    rewrite (to_size_t_id (Z.of_nat n)) by lia.
    destruct (Z.leb_spec (Z.of_nat n) 0); [lia|].
    rewrite to_size_t_id by lia. intros Hr.
    apply IH in Hr; [|now apply healthy_tl|assumption|assumption|lia].
    destruct Hr as (H1 & H2 & H3 & H4 & H5). cbn [rx tx] in *.
    repeat split; trivial. rewrite H4, <- app_assoc. f_equal.
    rewrite Hd. replace (Z.to_nat (p + Z.of_nat n)) with (n + Z.to_nat p)%nat by lia.
    rewrite <- skipn_skipn. apply firstn_skipn.
  - intros [= <-]. cbn. rewrite skipn_all2 by lia. now rewrite app_nil_r.
Qed.

(** The exact-length contract, where it holds: on a healthy socket
    [attest_util_write_buf]
    sends exactly the [buf_len] bytes of the buffer and returns 0. *)
Lemma write_buf_healthy s buf buf_len :
  healthy s -> buf_len = Z.of_nat (length buf) -> buf_len < size_modulus ->
  let r := attest_util_write_buf s buf buf_len in
  fst (fst r) = 0 /\ snd (fst r) = buf /\ rx (snd r) = rx s
  /\ tx (snd r) = tx s ++ buf /\ healthy (snd r).
Proof.
  intros Hh Hlen Hmax r.
  pose proof (attest_util_rw_buf_returns s buf buf_len O_WRONLY) as Hr.
  fold (attest_util_write_buf s buf buf_len) in Hr. fold r in Hr.
  rewrite to_size_t_id in Hr by lia.
  exact (rw_loop_write_healthy _ s buf buf_len 0 Hh Hlen Hmax ltac:(lia) r Hr).
Qed.
End RwHealthy.
Section RwHealthyRead.
Import RwBuf.

Lemma poke_length buf p d :
  0 <= p <= Z.of_nat (length buf) ->
  (Z.to_nat p + length d <= length (poke buf p d))%nat.
Proof.
  intros Hp. unfold poke. rewrite !length_app, length_firstn. lia.
Qed.

Lemma firstn_poke buf p d :
  0 <= p <= Z.of_nat (length buf) ->
  firstn (Z.to_nat p + length d) (poke buf p d) = firstn (Z.to_nat p) buf ++ d.
Proof.
  intros Hp. unfold poke. rewrite app_assoc.
  rewrite firstn_app, firstn_all2 by (rewrite length_app, length_firstn; lia).
  rewrite length_app, length_firstn.
  replace (_ - _)%nat with 0%nat by lia. simpl. apply app_nil_r.
Qed.

Lemma skipn_poke buf p d n :
  0 <= p <= Z.of_nat (length buf) -> (Z.to_nat p + length d <= n)%nat ->
  skipn n (poke buf p d) = skipn n buf.
Proof.
  intros Hp Hn. unfold poke. rewrite app_assoc, skipn_app.
  rewrite skipn_all2 by (rewrite length_app, length_firstn; lia).
  rewrite length_app, length_firstn, skipn_skipn. simpl. f_equal. lia.
Qed.

(** The read loop on a healthy socket whose queue holds the bytes that
    are still missing: they fill the buffer from offset [p] on. *)
Lemma rw_loop_read_healthy fuel : forall s buf B p,
  healthy s -> B < size_modulus -> 0 <= p <= B ->
  p <= Z.of_nat (length buf) -> B - p <= Z.of_nat (length (rx s)) ->
  forall r, rw_loop fuel O_RDONLY s buf B p = Some r ->
  fst (fst r) = 0
  /\ snd (fst r) = firstn (Z.to_nat p) buf ++ firstn (Z.to_nat (B - p)) (rx s)
                   ++ skipn (Z.to_nat B) buf
  /\ rx (snd r) = skipn (Z.to_nat (B - p)) (rx s)
  /\ tx (snd r) = tx s /\ healthy (snd r).
Proof.
  induction fuel as [|fuel IH]; intros s buf B p Hh Hmax Hp Hbuf Hrx r;
    rewrite rw_loop_eq; destruct (Z.ltb_spec p B) as [HpB|HpB];
    try discriminate.
  - intros [= <-]. cbn. replace (B - p) with 0 by lia.
    replace B with p by lia. simpl. now rewrite firstn_skipn.
  - unfold rw_call. replace (O_RDONLY =? O_RDONLY) with true by reflexivity.
    destruct (sys_read_healthy s (B - p) Hh) as (n & Hn & Hnc & ->); [lia| |].
    { intros E. rewrite E in Hrx. simpl in Hrx. lia. }
    rewrite (to_size_t_id (Z.of_nat n)) by lia.
    destruct (Z.leb_spec (Z.of_nat n) 0); [lia|].
    rewrite to_size_t_id by lia. intros Hr.
    assert (Hdl : length (firstn n (rx s)) = n) by (rewrite length_firstn; lia).
    apply IH in Hr; [|now apply healthy_tl|assumption|lia| |].
    + destruct Hr as (H1 & H2 & H3 & H4 & H5). cbn [rx tx] in *.
      repeat split; trivial.
      * rewrite H2.
        replace (Z.to_nat (p + Z.of_nat n)) with (Z.to_nat p + length (firstn n (rx s)))%nat
          by lia.
        rewrite firstn_poke by lia.
        rewrite skipn_poke by lia.
        rewrite <- !app_assoc. f_equal. rewrite app_assoc. f_equal.
        rewrite firstn_app_skipn. f_equal. lia.
      * rewrite H3, skipn_skipn. f_equal. lia.
    + pose proof (poke_length buf p (firstn n (rx s)) ltac:(lia)). lia.
    + cbn [rx]. rewrite length_skipn. lia.
  - intros [= <-]. cbn. replace (B - p) with 0 by lia.
    replace B with p by lia. simpl. now rewrite firstn_skipn.
Qed.

(** The read loop on a healthy socket whose peer shuts down too early:
    what is there is consumed, then the call fails. *)
Lemma rw_loop_read_short fuel : forall s buf B p,
  healthy s -> B < size_modulus -> 0 <= p ->
  Z.of_nat (length (rx s)) < B - p ->
  forall r, rw_loop fuel O_RDONLY s buf B p = Some r ->
  fst (fst r) = - EIO /\ rx (snd r) = [] /\ tx (snd r) = tx s
  /\ healthy (snd r).
Proof.
  induction fuel as [|fuel IH]; intros s buf B p Hh Hmax Hp Hrx r;
    rewrite rw_loop_eq; destruct (Z.ltb_spec p B) as [HpB|HpB];
    try discriminate; try lia.
  unfold rw_call. replace (O_RDONLY =? O_RDONLY) with true by reflexivity.
  destruct (Nat.eq_dec (length (rx s)) 0) as [Eq|Eq].
  - apply length_zero_iff_nil in Eq.
    rewrite (sys_read_eof s (B - p) Hh) by (trivial; lia).
    replace (to_size_t 0 <=? 0) with true by reflexivity.
    intros [= <-]. cbn. repeat split; trivial.
    apply (healthy_tl s [] (tx s) Hh).
  - destruct (sys_read_healthy s (B - p) Hh) as (n & Hn & Hnc & ->);
      [lia|intros E; now rewrite E in Eq|].
    rewrite (to_size_t_id (Z.of_nat n)) by lia.
    destruct (Z.leb_spec (Z.of_nat n) 0); [lia|].
    rewrite to_size_t_id by lia. intros Hr.
    apply IH in Hr; [|now apply healthy_tl|assumption|lia|].
    + exact Hr.
    + cbn [rx]. rewrite length_skipn. lia.
Qed.

(** The exact-length contract, where it holds: on a healthy socket that
    has [buf_len] bytes
    to deliver, [attest_util_read_buf] stores exactly these and
    returns 0. *)
Lemma read_buf_healthy s buf buf_len :
  healthy s -> 0 <= buf_len < size_modulus ->
  buf_len <= Z.of_nat (length (rx s)) ->
  let r := attest_util_read_buf s buf buf_len in
  fst (fst r) = 0
  /\ snd (fst r) = firstn (Z.to_nat buf_len) (rx s) ++ skipn (Z.to_nat buf_len) buf
  /\ rx (snd r) = skipn (Z.to_nat buf_len) (rx s)
  /\ tx (snd r) = tx s /\ healthy (snd r).
Proof.
  intros Hh Hlen Hrx r.
  pose proof (attest_util_rw_buf_returns s buf buf_len O_RDONLY) as Hr.
  fold (attest_util_read_buf s buf buf_len) in Hr. fold r in Hr.
  rewrite to_size_t_id in Hr by lia.
  apply (rw_loop_read_healthy _ s buf buf_len 0 Hh) in Hr; try lia.
  now rewrite Z.sub_0_r in Hr.
Qed.

(** The exact-length contract, where it holds: end of file before
    [buf_len] bytes is
    [- EIO]. *)
Lemma read_buf_eof s buf buf_len :
  healthy s -> buf_len < size_modulus ->
  Z.of_nat (length (rx s)) < buf_len ->
  let r := attest_util_read_buf s buf buf_len in
  fst (fst r) = - EIO /\ rx (snd r) = [] /\ tx (snd r) = tx s
  /\ healthy (snd r).
Proof.
  intros Hh Hlen Hrx r.
  pose proof (attest_util_rw_buf_returns s buf buf_len O_RDONLY) as Hr.
  fold (attest_util_read_buf s buf buf_len) in Hr. fold r in Hr.
  rewrite to_size_t_id in Hr by lia.
  apply (rw_loop_read_short _ s buf buf_len 0 Hh) in Hr; try lia. exact Hr.
Qed.
End RwHealthyRead.

Section RwDefect.
Import RwBuf.

(** When the first system call fails with -1, the value stored in the
    unsigned [cur_processed] is [SIZE_MAX]: the test [cur_processed <= 0]
    does not fire, [processed] wraps to [SIZE_MAX], the loop ends and the
    function returns 0 although not one byte has moved. *)
Lemma rw_buf_first_call_fails s buf buf_len op g ks :
  kern s = g :: ks -> g < 0 -> 0 < to_size_t buf_len ->
  attest_util_rw_buf s buf buf_len op = (0, buf, mkSock (rx s) (tx s) ks).
Proof.
  intros Hk Hg Hlen. unfold attest_util_rw_buf.
  rewrite rw_loop_eq. destruct (Z.ltb_spec 0 (to_size_t buf_len)); [|lia].
  unfold rw_call, sys_read, sys_write, grant. rewrite Hk. cbn [tl].
  destruct (Z.ltb_spec g 0); [|lia].
  assert (Hbuf : poke buf 0 [] = buf) by (unfold poke; simpl; reflexivity).
  destruct (op =? O_RDONLY); rewrite ?Hbuf;
    replace (to_size_t (-1) <=? 0) with false by reflexivity;
    replace (to_size_t (0 + to_size_t (-1))) with (size_modulus - 1) by reflexivity;
    rewrite rw_loop_eq;
    pose proof (to_size_t_range buf_len);
    (destruct (Z.ltb_spec (size_modulus - 1) (to_size_t buf_len)); [lia|reflexivity]).
Qed.

(** C7 (the defect, evaluated).  The peer has eight bytes ready and the
    first [read] fails: [attest_util_read_buf] returns 0, the buffer is
    untouched and the eight bytes are still in the queue.  The first
    [write] fails: [attest_util_write_buf] returns 0 and nothing was
    sent. *)
Theorem rw_buf_success_without_transfer :
  attest_util_read_buf (mkSock [1; 2; 3; 4; 5; 6; 7; 8] [] [-1]) (repeat 0 8) 8
    = (0, repeat 0 8, mkSock [1; 2; 3; 4; 5; 6; 7; 8] [] [])
  /\ attest_util_write_buf (mkSock [] [] [-1]) [1; 2; 3; 4; 5; 6; 7; 8] 8
    = (0, [1; 2; 3; 4; 5; 6; 7; 8], mkSock [] [] []).
Proof. split; vm_compute; reflexivity. Qed.
End RwDefect.
(** ** Object representations *)

Section Encoding.
Lemma le_bytes_length w v : length (le_bytes w v) = w.
Proof. revert v; induction w; intros; simpl; [reflexivity|now rewrite IHw]. Qed.

Lemma le_value_le_bytes w v : le_value (le_bytes w v) = v mod 256 ^ Z.of_nat w.
Proof.
  revert v; induction w as [|w IH]; intros v.
  - simpl. now rewrite Z.mod_1_r.
  - cbn [le_bytes le_value]. rewrite IH.
    rewrite Nat2Z.inj_succ, Z.pow_succ_r by lia.
    rewrite Z.rem_mul_r; [reflexivity|lia|]. apply Z.pow_pos_nonneg; lia.
Qed.

Lemma obj_bytes_length bo w v : length (obj_bytes bo w v) = w.
Proof. destruct bo; simpl; rewrite ?length_rev; apply le_bytes_length. Qed.

Lemma obj_value_obj_bytes bo w v :
  obj_value bo (obj_bytes bo w v) = v mod 256 ^ Z.of_nat w.
Proof.
  destruct bo; simpl; rewrite ?rev_involutive; apply le_value_le_bytes.
Qed.

Variable M : machine.

Lemma store_size_t_length v : length (store_size_t M v) = 8%nat.
Proof. apply obj_bytes_length. Qed.

Lemma store_int_length v : length (store_int M v) = 4%nat.
Proof. apply obj_bytes_length. Qed.

Lemma load_store_size_t v : 0 <= v < size_modulus -> load_size_t M (store_size_t M v) = v.
Proof.
  intros Hv. unfold load_size_t, store_size_t. rewrite obj_value_obj_bytes.
  change (256 ^ Z.of_nat 8) with size_modulus. unfold to_size_t.
  rewrite Z.mod_mod by (unfold size_modulus; simpl; lia). now apply Z.mod_small.
Qed.

Lemma load_store_int v : - 2 ^ 31 <= v < 2 ^ 31 -> load_int M (store_int M v) = v.
Proof.
  intros Hv. unfold load_int, store_int, to_int. rewrite obj_value_obj_bytes.
  change (256 ^ Z.of_nat 4) with (2 ^ 32).
  rewrite Z.add_mod_idemp_l by lia.
  rewrite Z.mod_small; lia.
Qed.

Lemma fresh_mem_length n : length (fresh_mem M n) = Z.to_nat n.
Proof. unfold fresh_mem. now rewrite length_map, length_seq. Qed.
End Encoding.

Lemma firstn_exact {A} (a b : list A) n : length a = n -> firstn n (a ++ b) = a.
Proof.
  intros <-. rewrite firstn_app, Nat.sub_diag, firstn_all. simpl. apply app_nil_r.
Qed.

Lemma skipn_exact {A} (a b : list A) n : length a = n -> skipn n (a ++ b) = b.
Proof.
  intros <-. rewrite skipn_app, Nat.sub_diag, skipn_all. reflexivity.
Qed.

Lemma strlen_nonzero (m : list Z) :
  Forall (fun c => c <> 0) m -> strlen m = Z.of_nat (length m).
Proof.
  induction 1 as [|c m Hc _ IH]; [reflexivity|].
  cbn [strlen length]. destruct (Z.eqb_spec c 0); [contradiction|]. lia.
Qed.

(** ** One field at a time *)

Section Fields.
Import RwBuf.

(** Reading a field of [n] bytes that heads the queue of a healthy socket
    into an object of [n] bytes. *)
Lemma read_buf_field s stale field rest n :
  healthy s -> rx s = field ++ rest ->
  length field = Z.to_nat n -> length stale = Z.to_nat n ->
  0 <= n < size_modulus ->
  let r := attest_util_read_buf s stale n in
  fst (fst r) = 0 /\ snd (fst r) = field /\ rx (snd r) = rest
  /\ tx (snd r) = tx s /\ healthy (snd r).
Proof.
  intros Hh Hrx Hf Hs Hn. cbv zeta.
  destruct (read_buf_healthy s stale n Hh Hn) as (H1 & H2 & H3 & H4 & H5).
  { rewrite Hrx, length_app. lia. }
  rewrite Hrx in H2, H3.
  rewrite (firstn_exact _ _ _ Hf), skipn_all2, app_nil_r in H2 by lia.
  rewrite (skipn_exact _ _ _ Hf) in H3. repeat split; assumption.
Qed.
End Fields.

(** [call_as H rc buf fd] names the three results of the call of
    [attest_util_rw_buf] that the goal is waiting for, [H] being a fact
    about that call. *)
Ltac call_as H rc buf fd :=
  cbv zeta in H;
  lazymatch type of H with
  | context [RwBuf.attest_util_read_buf ?s ?b ?n] =>
      destruct (RwBuf.attest_util_read_buf s b n) as [[rc buf] fd]
  | context [RwBuf.attest_util_write_buf ?s ?b ?n] =>
      destruct (RwBuf.attest_util_write_buf s b n) as [[rc buf] fd]
  end;
  cbn [fst snd] in H.

(** ** The enrollment server reads a request *)

Section ServerReads.
Import RwBuf RaServer.
Variable M : machine.

(** Length field and opcode are read from a healthy connection, and the
    length of the payload is taken from the length field without a look at
    its value. *)
Lemma read_request_header st fd total op rest :
  healthy fd -> rx fd = store_size_t M total ++ store_int M op ++ rest ->
  0 <= total < size_modulus -> - 2 ^ 31 <= op < 2 ^ 31 ->
  exists fd2, rx fd2 = rest /\ tx fd2 = tx fd /\ healthy fd2
    /\ read_request M st fd =
       let len := to_size_t (total - 2 * sizeof_size_t) in
       if negb (malloc_ok M (to_size_t (len + 1))) then
         (NoMemory, mkFrame 0 op (assigned Null (l_ptrs st)), fd2)
       else if to_size_t (len + 1) =? 0 then
         (ZeroBlock, mkFrame len op (assigned Live (l_ptrs st)), fd2)
       else
         let '(rc, message_in, fd3) :=
           attest_util_read_buf fd2 (fresh_mem M len ++ [0]) len in
         if negb (rc =? 0)
         then (ReadFailed rc, mkFrame len op (assigned Live (l_ptrs st)), fd3)
         else (Request message_in, mkFrame len op (assigned Live (l_ptrs st)), fd3).
Proof.
  intros Hh Hrx Htot Hop. unfold read_request.
  pose proof (read_buf_field fd (store_size_t M (l_len st)) _ _ sizeof_size_t
                Hh Hrx (store_size_t_length M _) (store_size_t_length M _)
                ltac:(unfold sizeof_size_t, size_modulus; simpl; lia)) as H1.
  call_as H1 rc1 b1 s1. destruct H1 as (-> & -> & Hrx1 & Htx1 & Hh1).
  rewrite load_store_size_t by lia. cbn [negb Z.eqb].
  pose proof (read_buf_field s1 (store_int M (l_op st)) _ _ sizeof_int
                Hh1 Hrx1 (store_int_length M _) (store_int_length M _)
                ltac:(unfold sizeof_int, size_modulus; simpl; lia)) as H2.
  call_as H2 rc2 b2 s2. destruct H2 as (-> & -> & Hrx2 & Htx2 & Hh2).
  rewrite load_store_int by lia. cbn [negb Z.eqb].
  exists s2. repeat split; trivial. congruence.
Qed.

(** On a healthy connection that delivers a length field [total >= 16],
    an opcode and at least [total - 16] more bytes, the server reads
    exactly [total - 16] bytes of payload and terminates them with a 0. *)
Lemma read_request_healthy st s total op rest :
  healthy s ->
  rx s = store_size_t M total ++ store_int M op ++ rest ->
  16 <= total < size_modulus ->
  - 2 ^ 31 <= op < 2 ^ 31 ->
  total - 16 <= Z.of_nat (length rest) ->
  malloc_ok M (total - 15) = true ->
  let r := read_request M st s in
  fst (fst r) = Request (firstn (Z.to_nat (total - 16)) rest ++ [0])
  /\ snd (fst r) = mkFrame (total - 16) op (assigned Live (l_ptrs st))
  /\ rx (snd r) = skipn (Z.to_nat (total - 16)) rest
  /\ tx (snd r) = tx s /\ healthy (snd r).
Proof.
  intros Hh Hrx Htot Hop Hrest Hmalloc. cbv zeta.
  assert (Hm : size_modulus = 18446744073709551616) by reflexivity.
  destruct (read_request_header st s total op rest Hh Hrx ltac:(lia) Hop)
    as (s2 & Hrx2 & Htx2 & Hh2 & ->).
  cbv zeta. change (2 * sizeof_size_t) with 16.
  rewrite (to_size_t_id (total - 16)) by lia.
  rewrite (to_size_t_id (total - 16 + 1)) by lia.
  replace (total - 16 + 1) with (total - 15) by lia. rewrite Hmalloc. cbn [negb].
  destruct (Z.eqb_spec (total - 15) 0); [lia|].
  pose proof (read_buf_healthy s2 (fresh_mem M (total - 16) ++ [0]) (total - 16)
                Hh2 ltac:(lia) ltac:(rewrite Hrx2; lia)) as H3.
  call_as H3 rc3 b3 s3. destruct H3 as (-> & -> & Hrx3 & Htx3 & Hh3).
  cbn [negb Z.eqb fst snd]. rewrite Hrx2 in *.
  rewrite (skipn_exact _ _ (Z.to_nat (total - 16))) by apply fresh_mem_length.
  repeat split; trivial. congruence.
Qed.
End ServerReads.
(** ** The enrollment client *)

Section ClientFacts.
Import RwBuf RaClient.
Variable M : machine.

(** On a healthy connection the three writes of [send_receive] put on the
    wire the length field, the opcode and the string, and the call goes
    on to read the response. *)
Lemma send_receive_request fd op message_in :
  healthy fd ->
  Forall (fun c => c <> 0) message_in ->
  Z.of_nat (length message_in) + 16 < size_modulus ->
  exists fd',
    send_receive M 0 (Some fd) op message_in
      = receive_response M (Z.of_nat (length message_in) + 16) fd'
    /\ rx fd' = rx fd
    /\ tx fd' = tx fd ++ store_size_t M (Z.of_nat (length message_in) + 16)
                      ++ store_int M op ++ message_in
    /\ healthy fd'.
Proof.
  intros Hh Hnz Hlen. unfold send_receive. cbn [Z.eqb negb].
  assert (Hm : size_modulus = 18446744073709551616) by reflexivity.
  rewrite (strlen_nonzero _ Hnz). change (sizeof_size_t * 2) with 16.
  rewrite (to_size_t_id (Z.of_nat _)) by lia.
  rewrite (to_size_t_id (_ + 16)) by lia.
  set (len := Z.of_nat (length message_in) + 16).
  replace (to_size_t (len - 16)) with (Z.of_nat (length message_in))
    by (unfold len; rewrite to_size_t_id; lia).
  pose proof (write_buf_healthy fd (store_size_t M len) sizeof_size_t Hh
                ltac:(now rewrite store_size_t_length)
                ltac:(unfold sizeof_size_t; lia)) as H1.
  call_as H1 rc1 b1 s1. destruct H1 as (-> & _ & Hrx1 & Htx1 & Hh1).
  cbn [Z.eqb negb].
  pose proof (write_buf_healthy s1 (store_int M op) sizeof_int Hh1
                ltac:(now rewrite store_int_length)
                ltac:(unfold sizeof_int; lia)) as H2.
  call_as H2 rc2 b2 s2. destruct H2 as (-> & _ & Hrx2 & Htx2 & Hh2).
  cbn [Z.eqb negb].
  pose proof (write_buf_healthy s2 message_in (Z.of_nat (length message_in)) Hh2
                eq_refl ltac:(lia)) as H3.
  call_as H3 rc3 b3 s3. destruct H3 as (-> & _ & Hrx3 & Htx3 & Hh3).
  cbn [Z.eqb negb]. exists s3. repeat split; trivial; try congruence.
  rewrite Htx3, Htx2, Htx1, <- !app_assoc. reflexivity.
Qed.

(** The length field of the response is read from a healthy connection;
    0 is the one value that is refused. *)
Lemma receive_response_header len fd total rest :
  healthy fd -> rx fd = store_size_t M total ++ rest ->
  0 <= total < size_modulus ->
  exists fd1, rx fd1 = rest /\ tx fd1 = tx fd /\ healthy fd1
    /\ receive_response M len fd =
       if total =? 0 then (- EINVAL, None, Some fd1)
       else if negb (malloc_ok M total) then (- ENOMEM, None, Some fd1)
       else
         let '(rc, message_out, fd2) :=
           attest_util_read_buf
             (if total <? sizeof_size_t then refusing fd1 else fd1)
             (fresh_mem M total) (to_size_t (total - sizeof_size_t)) in
         (rc, Some message_out, Some fd2).
Proof.
  intros Hh Hrx Htot. unfold receive_response.
  pose proof (read_buf_field fd (store_size_t M len) _ _ sizeof_size_t
                Hh Hrx (store_size_t_length M _) (store_size_t_length M _)
                ltac:(unfold sizeof_size_t, size_modulus; simpl; lia)) as H1.
  call_as H1 rc1 b1 s1. destruct H1 as (-> & -> & Hrx1 & Htx1 & Hh1).
  rewrite load_store_size_t by lia. cbn [negb Z.eqb].
  exists s1. repeat split; trivial.
Qed.

(** The count derived from a length field from 1 to 7 is one the kernel
    refuses. *)
Lemma wrapped_count_refused total :
  0 < total < sizeof_size_t -> SSIZE_MAX < to_size_t (total - sizeof_size_t).
Proof.
  intros H. unfold sizeof_size_t in *.
  replace (to_size_t (total - 8)) with (total - 8 + size_modulus).
  - unfold SSIZE_MAX, size_modulus. simpl. lia.
  - unfold to_size_t. rewrite <- (Z.mod_add _ 1) by discriminate.
    rewrite Z.mod_small; unfold size_modulus; simpl; lia.
Qed.

(** A length field from 1 to 7 on a healthy connection: the block is
    allocated, the one [read] for the payload is refused, and the call
    returns 0 with the block as [malloc] left it and the queue as it
    was. *)
Lemma receive_response_short len fd total rest :
  healthy fd -> rx fd = store_size_t M total ++ rest ->
  0 < total < sizeof_size_t -> malloc_ok M total = true ->
  exists fd',
    receive_response M len fd = (0, Some (fresh_mem M total), Some fd')
    /\ rx fd' = rest /\ tx fd' = tx fd.
Proof.
  intros Hh Hrx Htot Hmalloc.
  pose proof (wrapped_count_refused total Htot) as Hc.
  unfold sizeof_size_t in Htot.
  destruct (receive_response_header len fd total rest Hh Hrx
              ltac:(unfold size_modulus; simpl; lia))
    as (fd1 & Hrx1 & Htx1 & _ & ->).
  destruct (Z.eqb_spec total 0); [lia|]. rewrite Hmalloc. cbn [negb].
  destruct (Z.ltb_spec total sizeof_size_t); [|unfold sizeof_size_t in *; lia].
  unfold attest_util_read_buf.
  rewrite (rw_buf_first_call_fails (refusing fd1) _ _ O_RDONLY (-1) (kern fd1));
    [|reflexivity|lia|unfold SSIZE_MAX in Hc; rewrite to_size_t_id;
      [lia|apply to_size_t_range]].
  cbn [rx tx refusing]. eexists. split; [reflexivity|]. split; assumption.
Qed.
End ClientFacts.
(** ** What no kernel can make the loop do *)

Section RwAlways.
Import RwBuf.

Lemma healthy_step op s buf B p :
  healthy s -> healthy (snd (rw_call op s buf B p)).
Proof.
  intros Hh. unfold healthy. rewrite rw_call_kern.
  unfold healthy in Hh. destruct (kern s); [constructor|]. now inversion Hh.
Qed.

Lemma rw_call_read_tx s buf B p :
  tx (snd (rw_call O_RDONLY s buf B p)) = tx s.
Proof.
  unfold rw_call, sys_read. cbn [Z.eqb O_RDONLY].
  destruct (grant _ _ <? 0); reflexivity.
Qed.

Lemma rw_call_write s buf B p :
  exists n, tx (snd (rw_call O_WRONLY s buf B p))
            = tx s ++ firstn n (peek buf p (B - p))
    /\ rx (snd (rw_call O_WRONLY s buf B p)) = rx s
    /\ snd (fst (rw_call O_WRONLY s buf B p)) = buf.
Proof.
  unfold rw_call, sys_write.
  replace (O_WRONLY =? O_RDONLY) with false by reflexivity.
  destruct (grant _ _ <? 0); cbn.
  - exists 0%nat. now rewrite firstn_0, app_nil_r.
  - eexists. repeat split.
Qed.

Lemma Forall_firstn' {A} (P : A -> Prop) n (l : list A) :
  Forall P l -> Forall P (firstn n l).
Proof.
  intros H. revert n; induction H; intros [|n]; simpl; constructor; auto.
Qed.

Lemma Forall_skipn' {A} (P : A -> Prop) n (l : list A) :
  Forall P l -> Forall P (skipn n l).
Proof.
  intros H. revert n; induction H; intros [|n]; simpl; auto.
Qed.

(** A health kept, a [tx] untouched by reads. *)
Lemma rw_loop_healthy fuel : forall op s buf B p r,
  healthy s -> rw_loop fuel op s buf B p = Some r -> healthy (snd r).
Proof.
  induction fuel as [|fuel IH]; intros op s buf B p r Hh;
    rewrite rw_loop_eq; destruct (p <? B); try discriminate;
    try (intros [= <-]; exact Hh).
  pose proof (healthy_step op s buf B p Hh) as Hs.
  destruct (rw_call op s buf B p) as [[ret buf'] s']. cbn [snd] in Hs.
  destruct (to_size_t ret <=? 0); [intros [= <-]; exact Hs|].
  now apply IH.
Qed.

Lemma rw_loop_read_tx fuel : forall s buf B p r,
  rw_loop fuel O_RDONLY s buf B p = Some r -> tx (snd r) = tx s.
Proof.
  induction fuel as [|fuel IH]; intros s buf B p r;
    rewrite rw_loop_eq; destruct (p <? B); try discriminate;
    try (intros [= <-]; reflexivity).
  pose proof (rw_call_read_tx s buf B p) as Hs.
  destruct (rw_call O_RDONLY s buf B p) as [[ret buf'] s']. cbn [snd] in Hs.
  destruct (to_size_t ret <=? 0); [intros [= <-]; exact Hs|].
  intros Hr. apply IH in Hr. congruence.
Qed.

(** Whatever a write loop appends to [tx] is made of bytes of [buf]. *)
Lemma rw_loop_write_tx (P : Z -> Prop) fuel : forall s buf B p r,
  Forall P buf ->
  rw_loop fuel O_WRONLY s buf B p = Some r ->
  exists d, tx (snd r) = tx s ++ d /\ Forall P d.
Proof.
  induction fuel as [|fuel IH]; intros s buf B p r HP;
    rewrite rw_loop_eq; destruct (p <? B); try discriminate;
    try (intros [= <-]; exists []; split; [now rewrite app_nil_r|constructor]).
  destruct (rw_call_write s buf B p) as (n & Htx & _ & Hb).
  destruct (rw_call O_WRONLY s buf B p) as [[ret buf'] s']. cbn [fst snd] in *.
  subst buf'.
  assert (HPd : Forall P (firstn n (peek buf p (B - p)))).
  { unfold peek. now apply Forall_firstn', Forall_firstn', Forall_skipn'. }
  destruct (to_size_t ret <=? 0).
  - intros [= <-]. cbn [snd]. eexists; split; eauto.
  - intros Hr. apply IH in Hr; [|assumption]. destruct Hr as (d & Hd & HPd').
    exists (firstn n (peek buf p (B - p)) ++ d). split.
    + now rewrite Hd, Htx, app_assoc.
    + apply Forall_app. now split.
Qed.

Lemma read_buf_tx s buf n : tx (snd (attest_util_read_buf s buf n)) = tx s.
Proof.
  pose proof (attest_util_rw_buf_returns s buf n O_RDONLY) as Hr.
  now apply rw_loop_read_tx in Hr.
Qed.

Lemma rw_buf_healthy s buf n op :
  healthy s -> healthy (snd (attest_util_rw_buf s buf n op)).
Proof.
  intros Hh. pose proof (attest_util_rw_buf_returns s buf n op) as Hr.
  now apply rw_loop_healthy in Hr.
Qed.

Lemma write_buf_tx (P : Z -> Prop) s buf n :
  Forall P buf ->
  exists d, tx (snd (attest_util_write_buf s buf n)) = tx s ++ d /\ Forall P d.
Proof.
  intros HP. pose proof (attest_util_rw_buf_returns s buf n O_WRONLY) as Hr.
  now apply (rw_loop_write_tx P) in Hr.
Qed.

Lemma Forall_zero_repeat (d : list Z) :
  Forall (fun b => b = 0) d -> d = repeat 0 (length d).
Proof. induction 1 as [|b d -> _ IH]; simpl; [reflexivity|now rewrite <- IH]. Qed.
End RwAlways.
(** ** The enrollment server answers *)

Section ServerAnswers.
Import RwBuf RaServer.
Variable M : machine.
Variable E : enroll_server.

Lemma store_size_t_zero : store_size_t M 0 = repeat 0 8.
Proof. unfold store_size_t. destruct (host_order M); reflexivity. Qed.

Lemma read_request_tx st fd : tx (snd (read_request M st fd)) = tx fd.
Proof.
  unfold read_request.
  pose proof (read_buf_tx fd (store_size_t M (l_len st)) sizeof_size_t) as H1.
  call_as H1 rc1 b1 s1. destruct (negb (rc1 =? 0)); [exact H1|].
  pose proof (read_buf_tx s1 (store_int M (l_op st)) sizeof_int) as H2.
  call_as H2 rc2 b2 s2. destruct (negb (rc2 =? 0)); [cbn; congruence|].
  destruct (negb (malloc_ok M _)); [cbn; congruence|].
  destruct (_ =? 0); [cbn; congruence|].
  match goal with |- context [attest_util_read_buf s2 ?b ?n] =>
    pose proof (read_buf_tx s2 b n) as H3 end.
  call_as H3 rc3 b3 s3. destruct (negb (rc3 =? 0)); cbn; congruence.
Qed.

Lemma read_request_keeps_healthy st fd :
  healthy fd -> healthy (snd (read_request M st fd)).
Proof.
  intros Hh. unfold read_request.
  pose proof (rw_buf_healthy fd (store_size_t M (l_len st)) sizeof_size_t O_RDONLY Hh) as H1.
  fold (attest_util_read_buf fd (store_size_t M (l_len st)) sizeof_size_t) in H1.
  destruct (attest_util_read_buf fd _ sizeof_size_t) as [[rc1 b1] s1].
  cbn [snd] in H1. destruct (negb (rc1 =? 0)); [exact H1|].
  pose proof (rw_buf_healthy s1 (store_int M (l_op st)) sizeof_int O_RDONLY H1) as H2.
  fold (attest_util_read_buf s1 (store_int M (l_op st)) sizeof_int) in H2.
  destruct (attest_util_read_buf s1 _ sizeof_int) as [[rc2 b2] s2].
  cbn [snd] in H2. destruct (negb (rc2 =? 0)); [exact H2|].
  destruct (negb (malloc_ok M _)); [exact H2|].
  destruct (_ =? 0); [exact H2|].
  match goal with |- context [attest_util_read_buf s2 ?b ?n] =>
    pose proof (rw_buf_healthy s2 b n O_RDONLY H2) as H3;
    fold (attest_util_read_buf s2 b n) in H3;
    destruct (attest_util_read_buf s2 b n) as [[rc3 b3] s3] end.
  cbn [snd] in H3. destruct (negb (rc3 =? 0)); exact H3.
Qed.

(** An opcode outside 0..4 takes the [default] branch. *)
Lemma dispatch_unknown_opcode op message_in :
  op < 0 \/ 4 < op -> dispatch E op message_in = (- EINVAL, None).
Proof.
  intros Hop. unfold dispatch.
  destruct (Z.eqb_spec op 0); [lia|]. destruct (Z.eqb_spec op 1); [lia|].
  destruct (Z.eqb_spec op 2); [lia|]. destruct (Z.eqb_spec op 3); [lia|].
  destruct (Z.eqb_spec op 4); [lia|]. reflexivity.
Qed.

(** The blocks of a turn that got as far as the [switch] are all fresh:
    [out_free] frees none of them twice. *)
Lemma held_free (s : option (list Z)) : free (held s) <> None.
Proof. destruct s; discriminate. Qed.

Lemma after_switch_out_free op message_in message_out :
  out_free (after_switch E op message_in message_out) <> None.
Proof.
  unfold after_switch.
  destruct (op =? 2); [|destruct message_out; discriminate].
  destruct (attest_enroll_msg_process_csr E message_in) as [rc1 csr].
  destruct (rc1 <? 0); [destruct message_out, csr; discriminate|].
  destruct (attest_enroll_sign_csr E csr) as [rc2 cert].
  destruct (rc2 <? 0); [destruct message_out, csr, cert; discriminate|].
  destruct (attest_util_read_seq_file_ca E) as [rc3 ca].
  destruct message_out, csr, cert, ca; discriminate.
Qed.

Lemma leave_fresh p op len fd :
  out_free p <> None ->
  fst (fst (leave p op len 0 fd)) = NextConnection
  /\ snd (leave p op len 0 fd) = fd.
Proof.
  intros Hp. unfold leave. destruct (out_free p); [|contradiction].
  split; reflexivity.
Qed.

Lemma leave_sock p op len rc fd : snd (leave p op len rc fd) = fd.
Proof. unfold leave. destruct (out_free p); reflexivity. Qed.

(** The response with [len = 0]: zero bytes and nothing else reach the
    wire; on a healthy connection, eight of them, and the loop goes on
    unless a block is freed twice. *)
Lemma respond_zero p op message_out fd :
  let r := respond M p op 0 message_out fd in
  (exists k, tx (snd r) = tx fd ++ repeat 0 k)
  /\ (healthy fd ->
      tx (snd r) = tx fd ++ repeat 0 8
      /\ fst (fst r) = match out_free p with
                       | Some _ => NextConnection
                       | None => FreesTwice
                       end).
Proof.
  cbv zeta. unfold respond. rewrite store_size_t_zero. split.
  - destruct (write_buf_tx (fun b => b = 0) fd (repeat 0 8) sizeof_size_t)
      as (d & Hd & Hz); [repeat constructor|].
    apply Forall_zero_repeat in Hz.
    destruct (attest_util_write_buf fd _ sizeof_size_t) as [[rc b] s1].
    cbn [snd] in Hd. exists (length d). rewrite <- Hz.
    destruct (negb (rc =? 0)); [exact Hd|].
    cbn [Z.eqb negb]. now rewrite leave_sock.
  - intros Hh.
    pose proof (write_buf_healthy fd (repeat 0 8) sizeof_size_t Hh) as H1.
    cbv zeta in H1.
    destruct (attest_util_write_buf fd _ sizeof_size_t) as [[rc b] s1].
    cbn [fst snd] in H1. destruct H1 as (-> & _ & _ & Htx & _);
      [reflexivity|reflexivity|].
    cbn [Z.eqb negb]. rewrite leave_sock. split; [exact Htx|].
    unfold leave. destruct (out_free p); reflexivity.
Qed.

(** When the handler fails, the turn of the loop is the response with
    [len = 0] on the connection as the reads left it. *)
Lemma serve_handler_failure st fd message_in :
  fst (fst (read_request M st fd)) = Request message_in ->
  fst (dispatch E (l_op (snd (fst (read_request M st fd)))) message_in) <> 0 ->
  serve M E st fd =
    respond M
      (after_switch E (l_op (snd (fst (read_request M st fd)))) message_in
         (snd (dispatch E (l_op (snd (fst (read_request M st fd)))) message_in)))
      (l_op (snd (fst (read_request M st fd)))) 0
      (snd (dispatch E (l_op (snd (fst (read_request M st fd)))) message_in))
      (snd (read_request M st fd)).
Proof.
  unfold serve. destruct (read_request M st fd) as [[rq st1] fd1].
  cbn [fst snd]. intros -> Hrc.
  destruct (dispatch E (l_op st1) message_in) as [rc mo]. cbn [fst snd] in *.
  destruct (Z.eqb_spec rc 0); [contradiction|reflexivity].
Qed.
End ServerAnswers.

Section ServerContract.
Import RwBuf RaServer.

(** The turn of the loop when the handler has failed. *)
Lemma serve_failure_tx (M : machine) (E : enroll_server)
    (st : locals) (fd : sock) (message_in : list Z) :
  fst (fst (read_request M st fd)) = Request message_in ->
  fst (dispatch E (l_op (snd (fst (read_request M st fd)))) message_in) <> 0 ->
  (exists k, tx (snd (serve M E st fd)) = tx fd ++ repeat 0 k)
  /\ (healthy fd ->
      tx (snd (serve M E st fd)) = tx fd ++ repeat 0 8
      /\ fst (fst (serve M E st fd)) = NextConnection).
Proof.
  intros Hrq Hrc.
  rewrite (serve_handler_failure M E st fd message_in Hrq Hrc).
  match goal with |- context [respond M ?p ?op 0 ?mo ?s] =>
    destruct (respond_zero M p op mo s) as [Hk Hh];
    pose proof (after_switch_out_free E op message_in mo) as Hp end.
  rewrite read_request_tx in Hk, Hh. split; [exact Hk|].
  intros Hfd. destruct (Hh (read_request_keeps_healthy M st fd Hfd)) as [H1 H2].
  split; [exact H1|]. rewrite H2.
  match goal with |- match ?o with _ => _ end = _ => destruct o end;
    [reflexivity|contradiction].
Qed.

(** C4.  A request has been read and its handler fails, or its opcode is
    none of 0..4.  Then whatever the kernel lets through, the bytes the
    server puts on the wire for this connection are zero bytes only, and
    on a healthy connection they are exactly the eight bytes of a zero
    [total_length]: nothing of the handler's code or output is sent. *)
Theorem handler_failure_sentinel (M : machine) (E : enroll_server)
    (st : locals) (fd : sock) (message_in : list Z) :
  fst (fst (read_request M st fd)) = Request message_in ->
  (fst (dispatch E (l_op (snd (fst (read_request M st fd)))) message_in) <> 0
   \/ l_op (snd (fst (read_request M st fd))) < 0
   \/ 4 < l_op (snd (fst (read_request M st fd)))) ->
  (exists k, tx (snd (serve M E st fd)) = tx fd ++ repeat 0 k)
  /\ (healthy fd -> tx (snd (serve M E st fd)) = tx fd ++ repeat 0 8).
Proof.
  intros Hrq Hfail.
  assert (Hrc : fst (dispatch E (l_op (snd (fst (read_request M st fd))))
                       message_in) <> 0).
  { destruct Hfail as [H|H]; [exact H|].
    rewrite (dispatch_unknown_opcode E _ _ H). unfold EINVAL. cbn. lia. }
  destruct (serve_failure_tx M E st fd message_in Hrq Hrc) as [Hk Hh].
  split; [exact Hk|]. intros Hfd. now apply Hh.
Qed.

(** An unknown opcode (9) and an untrusted endorsement key (opcode 0):
    eight zero bytes each. *)
Lemma handler_failure_sentinel_witness :
  tx (snd (serve demo_machine demo_enroll (mkLocals 0 0)
             (mkSock [19; 0; 0; 0; 0; 0; 0; 0; 9; 0; 0; 0; 104; 105; 106] [] [3; 1])))
    = repeat 0 8
  /\ tx (snd (serve demo_machine demo_enroll (mkLocals 0 0)
             (mkSock [18; 0; 0; 0; 0; 0; 0; 0; 0; 0; 0; 0; 69; 75] [] [])))
    = repeat 0 8.
Proof.
  split.
  - refine (proj2 (handler_failure_sentinel demo_machine demo_enroll (mkLocals 0 0)
                    (mkSock [19; 0; 0; 0; 0; 0; 0; 0; 9; 0; 0; 0; 104; 105; 106] [] [3; 1])
                    [104; 105; 106; 0] _ _) _).
    + vm_compute; reflexivity.
    + right; right. vm_compute; reflexivity.
    + repeat constructor.
  - refine (proj2 (handler_failure_sentinel demo_machine demo_enroll (mkLocals 0 0)
                    (mkSock [18; 0; 0; 0; 0; 0; 0; 0; 0; 0; 0; 0; 69; 75] [] [])
                    [69; 75; 0] _ _) _).
    + vm_compute; reflexivity.
    + left. vm_compute; discriminate.
    + constructor.
Defined.



End ServerContract.

(** ** Frames between client and server *)

Section Frames.
Import RwBuf RaClient RaServer.

Lemma receive_response_sent M len fd : sent (receive_response M len fd) = tx fd.
Proof.
  unfold receive_response, sent.
  pose proof (read_buf_tx fd (store_size_t M len) sizeof_size_t) as H1.
  destruct (attest_util_read_buf fd _ sizeof_size_t) as [[rc1 b1] s1].
  cbn [snd] in H1. destruct (negb (rc1 =? 0)); [exact H1|].
  destruct (load_size_t M b1 =? 0); [exact H1|].
  destruct (negb (malloc_ok M _)); [exact H1|].
  set (s1' := if _ <? sizeof_size_t then refusing s1 else s1).
  assert (Hs : tx s1' = tx s1) by (unfold s1'; destruct (_ <? _); reflexivity).
  match goal with |- context [attest_util_read_buf s1' ?b ?n] =>
    pose proof (read_buf_tx s1' b n) as H2;
    destruct (attest_util_read_buf s1' b n) as [[rc2 b2] s2] end.
  cbn [snd] in *. congruence.
Qed.

(** What [send_receive] puts on a healthy connection. *)
Lemma send_receive_sent M fd op message_in :
  healthy fd ->
  Forall (fun c => c <> 0) message_in ->
  Z.of_nat (length message_in) + 16 < size_modulus ->
  sent (send_receive M 0 (Some fd) op message_in)
  = tx fd ++ store_size_t M (Z.of_nat (length message_in) + 16)
          ++ store_int M op ++ message_in.
Proof.
  intros Hh Hnz Hlen.
  destruct (send_receive_request M fd op message_in Hh Hnz Hlen)
    as (fd' & -> & _ & Htx & _).
  now rewrite receive_response_sent.
Qed.

(** C9.  A string without a 0 byte, sent with an opcode by the client's
    [send_receive] on a healthy connection, is what the server's reading
    of the request delivers on its own healthy connection, byte for byte
    and terminated by 0, with the same opcode - however the two kernels
    cut the transfers, and for every length that leaves room for the 16
    of the length field. *)
Theorem frame_round_trip (Mc Ms : machine) (op : Z) (payload : list Z)
    (c s : sock) (st : locals) :
  host_order Mc = host_order Ms ->
  - 2 ^ 31 <= op < 2 ^ 31 ->
  Forall (fun b => b <> 0) payload ->
  Z.of_nat (length payload) + 16 < size_modulus ->
  healthy c -> tx c = [] -> healthy s ->
  rx s = sent (send_receive Mc 0 (Some c) op payload) ->
  malloc_ok Ms (Z.of_nat (length payload) + 1) = true ->
  fst (fst (read_request Ms st s)) = Request (payload ++ [0])
  /\ l_op (snd (fst (read_request Ms st s))) = op
  /\ rx (snd (read_request Ms st s)) = [].
Proof.
  intros Hbo Hop Hnz Hlen Hc Htx Hs Hrx Hmalloc.
  rewrite (send_receive_sent Mc c op payload Hc Hnz Hlen), Htx in Hrx.
  cbn [app] in Hrx.
  replace (store_size_t Mc) with (store_size_t Ms) in Hrx
    by (unfold store_size_t; now rewrite Hbo).
  replace (store_int Mc) with (store_int Ms) in Hrx
    by (unfold store_int; now rewrite Hbo).
  assert (Hm : size_modulus = 18446744073709551616) by reflexivity.
  pose proof (read_request_healthy Ms st s _ op payload Hs Hrx) as H.
  cbv zeta in H.
  replace (Z.of_nat (length payload) + 16 - 16) with (Z.of_nat (length payload))
    in H by lia.
  rewrite Nat2Z.id, firstn_all, skipn_all in H.
  destruct H as (H1 & H2 & H3 & _); try lia.
  - now replace (Z.of_nat (length payload) + 16 - 15)
      with (Z.of_nat (length payload) + 1) by lia.
  - rewrite H1, H2, H3. repeat split.
Qed.

Lemma frame_round_trip_witness :
  let s := mkSock [18; 0; 0; 0; 0; 0; 0; 0; 4; 0; 0; 0; 104; 105] [] [5; 1] in
  let s0 := mkSock [16; 0; 0; 0; 0; 0; 0; 0; 3; 0; 0; 0] [] [] in
  (fst (fst (read_request demo_machine (mkLocals 0 0) s)) = Request ([104; 105] ++ [0])
   /\ l_op (snd (fst (read_request demo_machine (mkLocals 0 0) s))) = 4
   /\ rx (snd (read_request demo_machine (mkLocals 0 0) s)) = [])
  /\ (fst (fst (read_request demo_machine (mkLocals 0 0) s0)) = Request ([] ++ [0])
      /\ l_op (snd (fst (read_request demo_machine (mkLocals 0 0) s0))) = 3
      /\ rx (snd (read_request demo_machine (mkLocals 0 0) s0)) = []).
Proof.
  intros s s0. split.
  - refine (frame_round_trip demo_machine demo_machine 4 [104; 105]
              (mkSock [] [] [3; 2; 7]) s (mkLocals 0 0) _ _ _ _ _ _ _ _ _).
    + reflexivity.
    + lia.
    + repeat constructor; discriminate.
    + vm_compute; reflexivity.
    + repeat constructor.
    + reflexivity.
    + repeat constructor.
    + vm_compute; reflexivity.
    + vm_compute; reflexivity.
  - refine (frame_round_trip demo_machine demo_machine 3 []
              (mkSock [] [] []) s0 (mkLocals 0 0) _ _ _ _ _ _ _ _ _).
    + reflexivity.
    + lia.
    + constructor.
    + vm_compute; reflexivity.
    + constructor.
    + reflexivity.
    + constructor.
    + vm_compute; reflexivity.
    + vm_compute; reflexivity.
Defined.
End Frames.

(** ** Length fields below the size of the header *)


Section ShortLengthContract.
Import RwBuf RaClient RaServer.

(** C8 (the defect, evaluated).  Neither receiver compares the length
    field with the header size; the client tests it for 0 only.

    The client gets a response with the length field 4 and three more
    bytes.  It allocates four bytes and derives the payload length
    [4 - 8], which is [2 ^ 64 - 4]; [read] refuses that count, the -1 is
    taken for progress by [attest_util_rw_buf], and [send_receive] returns
    0 with the block as [malloc] left it for a message, the three bytes
    still in the queue.

    The server gets a request with the length field 15.  It derives the
    payload length [15 - 16], which is [2 ^ 64 - 1], asks [malloc] for 0
    bytes, and stores the terminating 0 at [message_in + len], one byte in
    front of the block. *)
Theorem short_total_length :
  send_receive demo_machine 0
    (Some (mkSock [4; 0; 0; 0; 0; 0; 0; 0; 65; 66; 67] [] [])) 3 [104; 105]
  = (0, Some [170; 170; 170; 170],
     Some (mkSock [65; 66; 67]
             [18; 0; 0; 0; 0; 0; 0; 0; 3; 0; 0; 0; 104; 105] []))
  /\ l_len (snd (fst (read_request demo_machine (mkLocals 0 0)
                        (mkSock [15; 0; 0; 0; 0; 0; 0; 0; 3; 0; 0; 0; 104; 105]
                           [] []))))
     = 2 ^ 64 - 1
  /\ serve demo_machine demo_enroll (mkLocals 0 0)
       (mkSock [15; 0; 0; 0; 0; 0; 0; 0; 3; 0; 0; 0; 104; 105] [] [])
     = (StoresOutside,
        mkFrame (2 ^ 64 - 1) 3 (mkPointers Live Null Null Null Null),
        mkSock [104; 105] [] []).
Proof. repeat split; vm_compute; reflexivity. Qed.
End ShortLengthContract.

Section RequestLength.
Import RwBuf RaClient RaServer.

(** C5 (as the code has it).  The client sets the length field of a
    request to the length of the string plus 16, twice the size of the
    field, although length field and opcode take 12 bytes on the wire;
    the server reads as payload the length field minus 16 bytes. *)
Theorem request_total_length (M : machine) (op : Z) (payload : list Z)
    (c : sock) (total sop : Z) (rest : list Z) (s : sock) (st : locals) :
  healthy c ->
  Forall (fun b => b <> 0) payload ->
  Z.of_nat (length payload) + 16 < size_modulus ->
  healthy s ->
  rx s = store_size_t M total ++ store_int M sop ++ rest ->
  16 <= total < size_modulus ->
  - 2 ^ 31 <= sop < 2 ^ 31 ->
  total - 16 <= Z.of_nat (length rest) ->
  malloc_ok M (total - 15) = true ->
  (sent (send_receive M 0 (Some c) op payload)
     = tx c ++ store_size_t M (Z.of_nat (length payload) + 16)
            ++ store_int M op ++ payload
   /\ length (store_size_t M (Z.of_nat (length payload) + 16) ++ store_int M op)
      = 12%nat)
  /\ (fst (fst (read_request M st s))
        = Request (firstn (Z.to_nat (total - 16)) rest ++ [0])
      /\ rx (snd (read_request M st s)) = skipn (Z.to_nat (total - 16)) rest).
Proof.
  intros Hc Hnz Hlen Hs Hrx Htot Hsop Hrest Hmalloc. split; [split|].
  - now apply send_receive_sent.
  - now rewrite length_app, store_size_t_length, store_int_length.
  - pose proof (read_request_healthy M st s total sop rest Hs Hrx Htot Hsop
                  Hrest Hmalloc) as H.
    cbv zeta in H. destruct H as (H1 & _ & H3 & _). now split.
Qed.

Lemma request_total_length_witness :
  let M := demo_machine in
  (sent (send_receive M 0 (Some (mkSock [] [] [1; 30])) 3 [104; 105])
     = [] ++ store_size_t M (Z.of_nat (length [104; 105]) + 16)
          ++ store_int M 3 ++ [104; 105]
   /\ length (store_size_t M (Z.of_nat (length [104; 105]) + 16) ++ store_int M 3)
      = 12%nat)
  /\ (fst (fst (read_request M (mkLocals 0 0)
                  (mkSock [18; 0; 0; 0; 0; 0; 0; 0; 3; 0; 0; 0; 104; 105; 9] [] [])))
        = Request (firstn (Z.to_nat (18 - 16)) [104; 105; 9] ++ [0])
      /\ rx (snd (read_request M (mkLocals 0 0)
                  (mkSock [18; 0; 0; 0; 0; 0; 0; 0; 3; 0; 0; 0; 104; 105; 9] [] [])))
         = skipn (Z.to_nat (18 - 16)) [104; 105; 9]).
Proof.
  intros M.
  refine (request_total_length M 3 [104; 105] (mkSock [] [] [1; 30]) 18 3
            [104; 105; 9]
            (mkSock [18; 0; 0; 0; 0; 0; 0; 0; 3; 0; 0; 0; 104; 105; 9] [] [])
            (mkLocals 0 0) _ _ _ _ _ _ _ _ _);
    [ repeat constructor | repeat constructor; discriminate
    | vm_compute; reflexivity | constructor | vm_compute; reflexivity
    | vm_compute; split; [discriminate|reflexivity] | lia
    | vm_compute; discriminate | vm_compute; reflexivity ].
Defined.

(** C5, refuted as written: for the two bytes "hi" the client sends the
    length field 18, not 2 + 12; and a request that follows the
    specification - length field 14, opcode, two bytes - makes the server
    compute a payload of [2 ^ 64 - 2] bytes, which [malloc] refuses, so
    that the two bytes are never read. *)
Lemma request_total_length_counterexample :
  let M := demo_machine in
  let r := send_receive M 0 (Some (mkSock [] [] [])) 3 [104; 105] in
  sent r = [18; 0; 0; 0; 0; 0; 0; 0; 3; 0; 0; 0; 104; 105]
  /\ load_size_t M (firstn 8 (sent r)) <> Z.of_nat (length [104; 105]) + 12
  /\ read_request M (mkLocals 0 0)
       (mkSock [14; 0; 0; 0; 0; 0; 0; 0; 3; 0; 0; 0; 104; 105] [] [])
     = (NoMemory, mkLocals 0 3, mkSock [104; 105] [] []).
Proof.
  cbv zeta. split; [vm_compute; reflexivity|].
  split; [vm_compute; discriminate|vm_compute; reflexivity].
Qed.
End RequestLength.

(** ** The attestation data exchange of the TLS client *)

Section NetworkOrder.





Variable M : machine.



End NetworkOrder.

Section TlsFacts.
Import RwBuf TlsClient.
Variable M : machine.


End TlsFacts.

Section TlsContract.
Import RwBuf TlsClient.



End TlsContract.

(** ** The PCR list *)

Section PcrListFacts.
Import PcrList.

Lemma set_nth_length n v l : length (set_nth n v l) = length l.
Proof.
  revert n; induction l as [|x l IH]; intros [|n]; simpl; auto.
Qed.

Lemma astore_inside a i v :
  0 <= i < Z.of_nat (length (cells a)) ->
  overrun (astore a i v) = overrun a
  /\ length (cells (astore a i v)) = length (cells a).
Proof.
  intros Hi. unfold astore.
  destruct (Z.leb_spec 0 i); [|lia].
  destruct (Z.ltb_spec i (Z.of_nat (length (cells a)))); [|lia].
  cbn. split; [reflexivity|apply set_nth_length].
Qed.

Lemma init_loop_inside n : forall i a,
  0 <= i -> i + Z.of_nat n <= Z.of_nat (length (cells a)) ->
  overrun (init_loop n i a) = overrun a
  /\ length (cells (init_loop n i a)) = length (cells a).
Proof.
  induction n as [|n IH]; intros i a Hi Hn; [now split|].
  cbn [init_loop]. destruct (astore_inside a i (-1) ltac:(lia)) as [Ho Hl].
  destruct (IH (i + 1) (astore a i (-1)) ltac:(lia) ltac:(lia)) as [Ho' Hl'].
  split; congruence.
Qed.

Lemma parse_loop_inside toks : forall num i a,
  0 <= i -> i + Z.of_nat (length toks) <= Z.of_nat (length (cells a)) ->
  overrun (snd (parse_loop toks num i a)) = overrun a.
Proof.
  induction toks as [|t toks IH]; intros num i a Hi Hn; [reflexivity|].
  cbn [parse_loop]. cbn [length] in Hn.
  destruct (i >? num); [reflexivity|].
  destruct (to_int (strtol t) <? 0); [reflexivity|].
  destruct (astore_inside a i (to_int (strtol t)) ltac:(lia)) as [Ho Hl].
  rewrite IH by lia. exact Ho.
Qed.

(** Where the bound holds: a list of at most [pcr_list_num] entries is
    parsed without a store outside the array. *)
Lemma parse_pcr_list_inside M pcr_list_str pcr_list :
  (length (tokens pcr_list_str) <= length (cells pcr_list))%nat ->
  overrun (snd (attest_util_parse_pcr_list M pcr_list_str
                  (Z.of_nat (length (cells pcr_list))) pcr_list))
  = overrun pcr_list.
Proof.
  intros Hn. unfold attest_util_parse_pcr_list. rewrite Nat2Z.id.
  destruct (init_loop_inside (length (cells pcr_list)) 0 pcr_list
              ltac:(lia) ltac:(lia)) as [Ho Hl].
  destruct (negb (malloc_ok M _)); [exact Ho|].
  rewrite parse_loop_inside by lia. exact Ho.
Qed.

(** C10 (the defect, evaluated).  The guard is [i > pcr_list_num] where
    the last valid index is [pcr_list_num - 1].  With room for one entry
    and two in the list, the second is stored at index 1 and the call
    returns 0; [- ERANGE] comes with the third only, after the store.
    With the 24 entries the server's array has and 25 in the list, the
    25th is stored at index 24. *)
Theorem parse_pcr_list_overrun :
  attest_util_parse_pcr_list demo_machine "0,1" 1 (mkIntArray [7] [])
    = (0, mkIntArray [0] [(1, 1)])
  /\ attest_util_parse_pcr_list demo_machine "0,1,2" 1 (mkIntArray [7] [])
    = (- ERANGE, mkIntArray [0] [(1, 1)])
  /\ attest_util_parse_pcr_list demo_machine
       "0,1,2,3,4,5,6,7,8,9,10,11,12,13,14,15,16,17,18,19,20,21,22,23,7"
       IMPLEMENTATION_PCR (mkIntArray (repeat 0 24) [])
    = (0, mkIntArray [0; 1; 2; 3; 4; 5; 6; 7; 8; 9; 10; 11; 12; 13; 14; 15;
                      16; 17; 18; 19; 20; 21; 22; 23] [(24, 7)]).
Proof. repeat split; vm_compute; reflexivity. Qed.
End PcrListFacts.

(** ** The hexadecimal codec *)

Section HexFacts.
Import Hex.

Lemma forall_below (P : Z -> bool) (n : nat) :
  forallb P (map Z.of_nat (seq 0 n)) = true ->
  forall z, 0 <= z < Z.of_nat n -> P z = true.
Proof.
  intros H z Hz. rewrite forallb_forall in H. apply H.
  apply in_map_iff. exists (Z.to_nat z). split; [lia|].
  apply in_seq. lia.
Qed.

Lemma poke_one_length dst d x :
  0 <= d <= Z.of_nat (length dst) ->
  (length dst <= length (poke dst d [x]))%nat
  /\ (Z.of_nat (length dst) <= d -> length (poke dst d [x]) = S (length dst))
  /\ (d < Z.of_nat (length dst) -> length (poke dst d [x]) = length dst).
Proof.
  intros Hd. unfold poke. rewrite !length_app, length_firstn, length_skipn.
  cbn [length]. lia.
Qed.

Lemma aget_app_mid pre x rest p :
  aget (mkArr (pre ++ x :: rest) p) (Z.of_nat (length pre)) = x.
Proof.
  unfold aget, alen. cbn [elems]. rewrite length_app. cbn [length].
  destruct (Z.ltb_spec (Z.of_nat (length pre)) (Z.of_nat (length pre + S (length rest))));
    [|lia].
  rewrite Nat2Z.id, app_nth2, Nat.sub_diag by lia. reflexivity.
Qed.

(** A byte packed into two characters decodes to itself. *)
Lemma pack_decode b :
  0 <= b < 256 ->
  (hex_to_bin (hex_asc_hi b) <? 0) || (hex_to_bin (hex_asc_lo b) <? 0) = false
  /\ Z.lor (Z.shiftl (hex_to_bin (hex_asc_hi b)) 4) (hex_to_bin (hex_asc_lo b))
       mod 256 = b.
Proof.
  intros Hb.
  pose proof (forall_below
    (fun b => negb ((hex_to_bin (hex_asc_hi b) <? 0) || (hex_to_bin (hex_asc_lo b) <? 0))
              && (Z.lor (Z.shiftl (hex_to_bin (hex_asc_hi b)) 4)
                    (hex_to_bin (hex_asc_lo b)) mod 256 =? b))
    256 ltac:(vm_compute; reflexivity) b Hb) as H.
  apply andb_true_iff in H. destruct H as [H1 H2].
  apply negb_true_iff in H1. apply Z.eqb_eq in H2. now split.
Qed.

Lemma isxdigit_hex_to_bin c :
  isxdigit c = negb (hex_to_bin c <? 0).
Proof.
  unfold isxdigit, hex_to_bin, tolower.
  destruct (Z.leb_spec 65 c), (Z.leb_spec c 90); cbn [andb];
  repeat match goal with
  | |- context [?a <=? ?b] => destruct (Z.leb_spec a b); cbn [andb orb negb]
  | |- context [?a <? ?b] => destruct (Z.ltb_spec a b); cbn [andb orb negb]
  end; try reflexivity; lia.
Qed.

Lemma hex_to_bin_range c : -1 <= hex_to_bin c <= 15.
Proof.
  unfold hex_to_bin, tolower.
  destruct (Z.leb_spec 65 c), (Z.leb_spec c 90); cbn [andb];
  repeat match goal with
  | |- context [?a <=? ?b] => destruct (Z.leb_spec a b); cbn [andb orb negb]
  end; lia.
Qed.

Lemma isxdigit_range c : isxdigit c = true -> 0 <= c < 128.
Proof.
  unfold isxdigit.
  repeat match goal with
  | |- context [?a <=? ?b] => destruct (Z.leb_spec a b); cbn [andb orb negb]
  end; try discriminate; lia.
Qed.

(** Two digits decoded and packed again are the two digits in lower case. *)
Lemma decode_pack hi lo :
  isxdigit hi = true -> isxdigit lo = true ->
  hex_byte_pack (Z.lor (Z.shiftl (hex_to_bin hi) 4) (hex_to_bin lo) mod 256)
  = [tolower hi; tolower lo].
Proof.
  intros Hhi Hlo.
  pose proof (isxdigit_range _ Hhi) as Rhi. pose proof (isxdigit_range _ Hlo) as Rlo.
  pose proof (forall_below
    (fun hi => forallb (fun lo =>
       implb (isxdigit hi && isxdigit lo)
         (let v := Z.lor (Z.shiftl (hex_to_bin hi) 4) (hex_to_bin lo) mod 256 in
          (hex_asc_hi v =? tolower hi) && (hex_asc_lo v =? tolower lo)))
       (map Z.of_nat (seq 0 128)))
    128 ltac:(vm_compute; reflexivity) hi Rhi) as H.
  pose proof (forall_below _ 128 H lo Rlo) as H'. cbv beta zeta in H'.
  rewrite Hhi, Hlo in H'. cbn [andb implb] in H'.
  apply andb_true_iff in H'. destruct H' as [H1 H2].
  apply Z.eqb_eq in H1, H2. unfold hex_byte_pack. now rewrite H1, H2.
Qed.
End HexFacts.

Section HexLoops.
Import Hex.

Lemma aget_app_mid2 pre x y rest p :
  aget (mkArr (pre ++ x :: y :: rest) p) (Z.of_nat (length pre) + 1) = y.
Proof.
  replace (pre ++ x :: y :: rest) with ((pre ++ [x]) ++ y :: rest)
    by (now rewrite <- app_assoc).
  replace (Z.of_nat (length pre) + 1) with (Z.of_nat (length (pre ++ [x])))
    by (rewrite length_app; simpl; lia).
  apply aget_app_mid.
Qed.

Lemma poke_bounds dst d x :
  0 <= d <= Z.of_nat (length dst) ->
  firstn (Z.to_nat d) (poke dst d x) = firstn (Z.to_nat d) dst.
Proof.
  intros Hd. unfold poke. rewrite firstn_app, length_firstn.
  replace (Z.to_nat d - Nat.min (Z.to_nat d) (length dst))%nat with 0%nat by lia.
  rewrite firstn_0, app_nil_r. apply firstn_all2. rewrite length_firstn. lia.
Qed.

(** [_bin2hex], turn by turn: the digits of the bytes that are left go to
    [dst] from [d] on; nothing else of [dst] changes. *)
Lemma bin2hex_loop_spec bytes : forall pre post p dst d,
  0 <= d <= Z.of_nat (length dst) ->
  bin2hex_loop (length bytes) dst d (mkArr (pre ++ bytes ++ post) p)
    (Z.of_nat (length pre))
  = (firstn (Z.to_nat d) dst ++ flat_map hex_byte_pack bytes
       ++ skipn (Z.to_nat d + 2 * length bytes) dst,
     d + 2 * Z.of_nat (length bytes)).
Proof.
  induction bytes as [|b bytes IH]; intros pre post p dst d Hd.
  - cbn [bin2hex_loop length flat_map app]. rewrite Nat.mul_0_r, Nat.add_0_r.
    rewrite firstn_skipn. f_equal. lia.
  - cbn [bin2hex_loop length]. cbn [app]. rewrite aget_app_mid.
    set (dst1 := poke dst d (hex_byte_pack b)).
    assert (Hl : (Z.to_nat d + 2 <= length dst1)%nat)
      by apply (poke_length dst d (hex_byte_pack b) Hd).
    replace (pre ++ b :: bytes ++ post) with ((pre ++ [b]) ++ bytes ++ post)
      by (now rewrite <- app_assoc).
    replace (Z.of_nat (length pre) + 1) with (Z.of_nat (length (pre ++ [b])))
      by (rewrite length_app; simpl; lia).
    rewrite IH by lia. f_equal; [|lia].
    replace (Z.to_nat (d + 2)) with (Z.to_nat d + length (hex_byte_pack b))%nat
      by (simpl; lia).
    unfold dst1. rewrite firstn_poke by lia.
    rewrite skipn_poke by (simpl; lia).
    cbn [flat_map]. rewrite <- !app_assoc. change (length (hex_byte_pack b)) with 2%nat.
    replace (Z.to_nat d + 2 + 2 * length bytes)%nat
      with (Z.to_nat d + 2 * S (length bytes))%nat by lia.
    reflexivity.
Qed.

(** The return code of [_hex2bin] depends on the text alone. *)
Lemma hex2bin_loop_rc n : forall t pre p dst d,
  (2 * n <= length t)%nat ->
  fst (hex2bin_loop n dst d (mkArr (pre ++ t) p) (Z.of_nat (length pre)))
  = if forallb isxdigit (firstn (2 * n) t) then 0 else -1.
Proof.
  induction n as [|n IH]; intros t pre p dst d Ht; [reflexivity|].
  destruct t as [|hi [|lo t]]; try (simpl in Ht; lia).
  cbn [hex2bin_loop]. rewrite aget_app_mid, aget_app_mid2.
  replace (2 * S n)%nat with (S (S (2 * n))) by lia. cbn [firstn forallb].
  rewrite !isxdigit_hex_to_bin.
  destruct (hex_to_bin hi <? 0); [reflexivity|].
  destruct (hex_to_bin lo <? 0); [reflexivity|]. cbn [orb negb andb].
  replace (pre ++ hi :: lo :: t) with ((pre ++ [hi; lo]) ++ t)
    by (now rewrite <- app_assoc).
  replace (Z.of_nat (length pre) + 2) with (Z.of_nat (length (pre ++ [hi; lo])))
    by (rewrite length_app; simpl; lia).
  apply IH. simpl in Ht. lia.
Qed.

(** [_hex2bin], turn by turn, on digits. *)
Lemma hex2bin_loop_ok n : forall t post pre p dst d,
  length t = (2 * n)%nat -> forallb isxdigit t = true ->
  0 <= d <= Z.of_nat (length dst) ->
  hex2bin_loop n dst d (mkArr (pre ++ t ++ post) p) (Z.of_nat (length pre))
  = (0, firstn (Z.to_nat d) dst ++ hex_pairs t ++ skipn (Z.to_nat d + n) dst).
Proof.
  induction n as [|n IH]; intros t post pre p dst d Ht Hx Hd.
  - destruct t; [|discriminate]. cbn. now rewrite Nat.add_0_r, firstn_skipn.
  - destruct t as [|hi [|lo t]]; try (simpl in Ht; lia).
    cbn [hex2bin_loop app]. rewrite aget_app_mid, aget_app_mid2.
    cbn [forallb] in Hx. apply andb_true_iff in Hx. destruct Hx as [Hhi Hx].
    apply andb_true_iff in Hx. destruct Hx as [Hlo Hx].
    rewrite isxdigit_hex_to_bin in Hhi, Hlo.
    apply negb_true_iff in Hhi, Hlo. rewrite Hhi, Hlo. cbn [orb].
    set (v := Z.lor (Z.shiftl (hex_to_bin hi) 4) (hex_to_bin lo) mod 256).
    set (dst1 := poke dst d [v]).
    assert (Hl : (Z.to_nat d + 1 <= length dst1)%nat)
      by apply (poke_length dst d [v] Hd).
    replace (pre ++ hi :: lo :: t ++ post) with ((pre ++ [hi; lo]) ++ t ++ post)
      by (now rewrite <- app_assoc).
    replace (Z.of_nat (length pre) + 2) with (Z.of_nat (length (pre ++ [hi; lo])))
      by (rewrite length_app; simpl; lia).
    rewrite IH; [|simpl in Ht; lia|exact Hx|lia]. f_equal.
    replace (Z.to_nat (d + 1)) with (Z.to_nat d + length [v])%nat by (simpl; lia).
    unfold dst1. rewrite firstn_poke by lia.
    rewrite skipn_poke by (simpl; lia).
    cbn [hex_pairs]. fold v. rewrite <- !app_assoc. change (length [v]) with 1%nat.
    replace (Z.to_nat d + 1 + n)%nat with (Z.to_nat d + S n)%nat by lia.
    reflexivity.
Qed.

(** [_hex2bin] never moves the end of [dst] and never touches what lies
    before [d] or from [d + n] on. *)
Lemma hex2bin_loop_frame n : forall src s dst d,
  0 <= d -> d + Z.of_nat n <= Z.of_nat (length dst) ->
  let out := snd (hex2bin_loop n dst d src s) in
  length out = length dst
  /\ firstn (Z.to_nat d) out = firstn (Z.to_nat d) dst
  /\ skipn (Z.to_nat d + n) out = skipn (Z.to_nat d + n) dst.
Proof.
  induction n as [|n IH]; intros src s dst d Hd Hn; cbv zeta.
  - cbn. repeat split.
  - cbn [hex2bin_loop]. destruct (_ || _); [cbn; repeat split|].
    set (v := Z.lor _ _ mod 256). set (dst1 := poke dst d [v]).
    destruct (poke_one_length dst d v ltac:(lia)) as (_ & _ & Hl).
    specialize (Hl ltac:(lia)). fold dst1 in Hl.
    destruct (IH src (s + 2) dst1 (d + 1) ltac:(lia) ltac:(lia)) as (H1 & H2 & H3).
    split; [congruence|]. split.
    + pose proof (f_equal (firstn (Z.to_nat d)) H2) as H2'.
      rewrite !firstn_firstn in H2'.
      replace (Nat.min (Z.to_nat d) (Z.to_nat (d + 1))) with (Z.to_nat d) in H2' by lia.
      rewrite H2'. unfold dst1. apply poke_bounds. lia.
    + replace (Z.to_nat d + S n)%nat with (Z.to_nat (d + 1) + n)%nat by lia.
      rewrite H3. unfold dst1. apply skipn_poke; simpl; lia.
Qed.
End HexLoops.

Section HexContract.
Import Hex.

Lemma packed_digits bytes :
  u8_list bytes ->
  forallb isxdigit (flat_map hex_byte_pack bytes) = true
  /\ hex_pairs (flat_map hex_byte_pack bytes) = bytes
  /\ length (flat_map hex_byte_pack bytes) = (2 * length bytes)%nat
  /\ Forall (fun c => In c hex_asc) (flat_map hex_byte_pack bytes).
Proof.
  induction 1 as [|b bytes Hb _ (IH1 & IH2 & IH3 & IH4)].
  - repeat split. constructor.
  - destruct (pack_decode b Hb) as [Hok Hv].
    apply orb_false_iff in Hok. destruct Hok as [Hhi Hlo].
    cbn [flat_map hex_byte_pack app forallb hex_pairs length].
    rewrite !isxdigit_hex_to_bin, Hhi, Hlo, IH1, IH2, IH3, Hv. cbn [negb andb].
    repeat split; try lia.
    pose proof (forall_below
      (fun b => existsb (Z.eqb (hex_asc_hi b)) hex_asc
                && existsb (Z.eqb (hex_asc_lo b)) hex_asc)
      256 ltac:(vm_compute; reflexivity) b Hb) as Hin.
    apply andb_true_iff in Hin. destruct Hin as [Hi1 Hi2].
    apply existsb_exists in Hi1, Hi2.
    destruct Hi1 as (x1 & Hx1 & E1). destruct Hi2 as (x2 & Hx2 & E2).
    apply Z.eqb_eq in E1, E2. rewrite E1, E2.
    constructor; [exact Hx1|]. constructor; [exact Hx2|exact IH4].
Qed.

Lemma bin2hex_run (bytes dst : list Z) (p : Z -> Z) :
  Z.of_nat (length bytes) < size_modulus ->
  _bin2hex dst (mkArr bytes p) (Z.of_nat (length bytes))
    = (flat_map hex_byte_pack bytes ++ skipn (2 * length bytes) dst,
       2 * Z.of_nat (length bytes)).
Proof.
  intros Hn. unfold _bin2hex. rewrite to_size_t_id, Nat2Z.id by lia.
  pose proof (bin2hex_loop_spec bytes [] [] p dst 0 ltac:(lia)) as H.
  cbn [app length Z.of_nat Z.to_nat firstn Nat.add Z.add] in H.
  now rewrite app_nil_r in H.
Qed.

(** X1.  [_bin2hex] stores two lower-case digits for each of the [count] bytes,
    returns the pointer that follows them, and changes nothing else: it
    writes no terminating 0. *)
Theorem bin2hex_output (bytes dst : list Z) (p : Z -> Z) :
  u8_list bytes ->
  Z.of_nat (length bytes) < size_modulus ->
  2 * Z.of_nat (length bytes) <= Z.of_nat (length dst) ->
  _bin2hex dst (mkArr bytes p) (Z.of_nat (length bytes))
    = (flat_map hex_byte_pack bytes ++ skipn (2 * length bytes) dst,
       2 * Z.of_nat (length bytes))
  /\ Forall (fun c => In c hex_asc) (flat_map hex_byte_pack bytes)
  /\ length (fst (_bin2hex dst (mkArr bytes p) (Z.of_nat (length bytes))))
     = length dst.
Proof.
  intros Hb Hn Hd. rewrite (bin2hex_run bytes dst p Hn).
  destruct (packed_digits bytes Hb) as (_ & _ & Hl & Hin).
  repeat split; trivial. cbn [fst].
  rewrite length_app, length_skipn, Hl. lia.
Qed.

Lemma bin2hex_output_witness :
  _bin2hex [1; 2; 3; 4; 5] (mkArr [171; 7] (fun _ => 9)) 2
  = ([97; 98; 48; 55; 5], 4).
Proof.
  exact (proj1 (bin2hex_output [171; 7] [1; 2; 3; 4; 5] (fun _ => 9)
                  ltac:(repeat constructor; unfold is_u8; lia)
                  ltac:(vm_compute; reflexivity) ltac:(simpl; lia))).
Defined.

(** X2.  Bytes turned into text by [_bin2hex] are given back by [_hex2bin]. *)
Theorem bin2hex_hex2bin (bytes dst dst' : list Z) (p p' : Z -> Z) :
  u8_list bytes ->
  Z.of_nat (length bytes) < size_modulus ->
  2 * Z.of_nat (length bytes) <= Z.of_nat (length dst) ->
  Z.of_nat (length bytes) <= Z.of_nat (length dst') ->
  let n := Z.of_nat (length bytes) in
  let text := firstn (2 * length bytes) (fst (_bin2hex dst (mkArr bytes p) n)) in
  _hex2bin dst' (mkArr text p') n = (0, bytes ++ skipn (length bytes) dst').
Proof.
  intros Hb Hn Hd Hd' n text.
  pose proof (bin2hex_run bytes dst p Hn) as He.
  destruct (packed_digits bytes Hb) as (Hx & Hp & Hl & _).
  assert (Ht : text = flat_map hex_byte_pack bytes).
  { subst text n. rewrite He. cbn [fst]. now apply firstn_exact. }
  rewrite Ht. unfold _hex2bin. subst n. rewrite to_size_t_id, Nat2Z.id by lia.
  pose proof (hex2bin_loop_ok (length bytes) (flat_map hex_byte_pack bytes) [] []
                p' dst' 0 Hl Hx ltac:(lia)) as H.
  cbn [app length Z.of_nat Z.to_nat firstn Nat.add] in H.
  rewrite app_nil_r in H. now rewrite H, Hp.
Qed.

Lemma bin2hex_hex2bin_witness :
  _hex2bin [0; 0; 0]
    (mkArr (firstn 4 (fst (_bin2hex [1; 2; 3; 4; 5] (mkArr [171; 7] (fun _ => 9)) 2)))
       (fun _ => 9)) 2
  = (0, [171; 7] ++ [0]).
Proof.
  exact (bin2hex_hex2bin [171; 7] [1; 2; 3; 4; 5] [0; 0; 0] (fun _ => 9) (fun _ => 9)
           ltac:(repeat constructor; unfold is_u8; lia)
           ltac:(vm_compute; reflexivity) ltac:(simpl; lia) ltac:(simpl; lia)).
Defined.

(** X3.  [_hex2bin] returns 0 when the [2 * count] characters it is to read are
    hexadecimal digits, of either case, and -1 when one of them is not. *)
Theorem hex2bin_digits_only (dst text : list Z) (p : Z -> Z) (count : Z) :
  0 <= count < size_modulus ->
  2 * count <= Z.of_nat (length text) ->
  fst (_hex2bin dst (mkArr text p) count)
  = if forallb isxdigit (firstn (2 * Z.to_nat count) text) then 0 else -1.
Proof.
  intros Hc Ht. unfold _hex2bin. rewrite to_size_t_id by lia.
  apply (hex2bin_loop_rc (Z.to_nat count) text [] p dst 0). lia.
Qed.

Lemma hex2bin_digits_only_witness :
  fst (_hex2bin [0; 0] (mkArr [65; 98; 48; 57] (fun _ => 0)) 2) = 0
  /\ fst (_hex2bin [0; 0] (mkArr [65; 98; 48; 103] (fun _ => 0)) 2) = -1.
Proof.
  split.
  - exact (hex2bin_digits_only [0; 0] [65; 98; 48; 57] (fun _ => 0) 2
             ltac:(vm_compute; split; [discriminate|reflexivity])
             ltac:(simpl; lia)).
  - exact (hex2bin_digits_only [0; 0] [65; 98; 48; 103] (fun _ => 0) 2
             ltac:(vm_compute; split; [discriminate|reflexivity])
             ltac:(simpl; lia)).
Defined.

Lemma pairs_lowercase n : forall text,
  length text = (2 * n)%nat -> forallb isxdigit text = true ->
  flat_map hex_byte_pack (hex_pairs text) = map tolower text
  /\ length (hex_pairs text) = n /\ u8_list (hex_pairs text).
Proof.
  induction n as [|n IH]; intros text Hl Hx.
  - destruct text; [|discriminate]. repeat split. constructor.
  - destruct text as [|hi [|lo text]]; try (simpl in Hl; lia).
    cbn [forallb] in Hx. apply andb_true_iff in Hx. destruct Hx as [Hhi Hx].
    apply andb_true_iff in Hx. destruct Hx as [Hlo Hx].
    destruct (IH text ltac:(simpl in Hl; lia) Hx) as (H1 & H2 & H3).
    cbn [hex_pairs flat_map map length]. rewrite (decode_pack hi lo Hhi Hlo), H1, H2.
    repeat split. constructor; [|exact H3].
    unfold is_u8. apply Z.mod_pos_bound. lia.
Qed.

(** X4.  A text of hexadecimal digits decoded by [_hex2bin] and encoded again by
    [_bin2hex] is the same text in lower case. *)
Theorem hex2bin_bin2hex (text dst dst2 : list Z) (p p' : Z -> Z) (n : nat) :
  length text = (2 * n)%nat ->
  forallb isxdigit text = true ->
  Z.of_nat n < size_modulus ->
  (n <= length dst)%nat -> (2 * n <= length dst2)%nat ->
  let r := _hex2bin dst (mkArr text p) (Z.of_nat n) in
  fst r = 0
  /\ firstn (2 * n)
       (fst (_bin2hex dst2 (mkArr (firstn n (snd r)) p') (Z.of_nat n)))
     = map tolower text.
Proof.
  intros Hl Hx Hn Hd Hd2 r.
  destruct (pairs_lowercase n text Hl Hx) as (Hlow & Hlen & Hu8).
  assert (Hr : r = (0, hex_pairs text ++ skipn n dst)).
  { subst r. unfold _hex2bin. rewrite to_size_t_id, Nat2Z.id by lia.
    pose proof (hex2bin_loop_ok n text [] [] p dst 0 Hl Hx ltac:(lia)) as H.
    cbn [app length Z.of_nat Z.to_nat firstn Nat.add] in H.
    now rewrite app_nil_r in H. }
  rewrite Hr. cbn [fst snd]. split; [reflexivity|].
  rewrite (firstn_exact _ _ n Hlen).
  pose proof (bin2hex_run (hex_pairs text) dst2 p' ltac:(lia)) as He.
  rewrite Hlen in He. rewrite He. cbn [fst].
  rewrite firstn_exact; [exact Hlow|]. rewrite Hlow, length_map. exact Hl.
Qed.

Lemma hex2bin_bin2hex_witness :
  let r := _hex2bin [0; 0] (mkArr [65; 98; 48; 70] (fun _ => 0)) 2 in
  fst r = 0
  /\ firstn 4 (fst (_bin2hex [0; 0; 0; 0] (mkArr (firstn 2 (snd r)) (fun _ => 0)) 2))
     = [97; 98; 48; 102].
Proof.
  exact (hex2bin_bin2hex [65; 98; 48; 70] [0; 0] [0; 0; 0; 0] (fun _ => 0)
           (fun _ => 0) 2 eq_refl eq_refl ltac:(vm_compute; reflexivity)
           ltac:(simpl; lia) ltac:(simpl; lia)).
Defined.

(** X5.  Whatever the text is, and whether it fails or not, [_hex2bin] stores
    nothing outside the first [count] bytes of [dst]. *)
Theorem hex2bin_frame (dst : list Z) (src : u8array) (count : Z) :
  0 <= count <= Z.of_nat (length dst) ->
  count < size_modulus ->
  length (snd (_hex2bin dst src count)) = length dst
  /\ skipn (Z.to_nat count) (snd (_hex2bin dst src count))
     = skipn (Z.to_nat count) dst.
Proof.
  intros Hc Hm. unfold _hex2bin. rewrite to_size_t_id by lia.
  destruct (hex2bin_loop_frame (Z.to_nat count) src 0 dst 0 ltac:(lia) ltac:(lia))
    as (H1 & _ & H3).
  split; [exact H1|exact H3].
Qed.

Lemma hex2bin_frame_witness :
  length (snd (_hex2bin [7; 8; 9] (mkArr [52; 49; 122; 122] (fun _ => 0)) 2)) = 3%nat
  /\ skipn 2 (snd (_hex2bin [7; 8; 9] (mkArr [52; 49; 122; 122] (fun _ => 0)) 2))
     = [9].
Proof.
  exact (hex2bin_frame [7; 8; 9] (mkArr [52; 49; 122; 122] (fun _ => 0)) 2
           ltac:(simpl; lia) ltac:(vm_compute; reflexivity)).
Defined.
End HexContract.

(** ** One exchange between client and server *)

Section Exchange.
Import RwBuf RaClient RaServer.

(** The response to a request that was served: the length field, then the
    string with its terminating 0. *)
Lemma respond_message M p op m fd :
  out_free p <> None ->
  healthy fd ->
  Forall (fun c => c <> 0) m ->
  Z.of_nat (length m) + 9 < size_modulus ->
  let r := respond M p op (Z.of_nat (length m) + 9) (Some m) fd in
  fst (fst r) = NextConnection
  /\ tx (snd r) = tx fd ++ store_size_t M (Z.of_nat (length m) + 9) ++ m ++ [0]
  /\ rx (snd r) = rx fd /\ healthy (snd r).
Proof.
  intros Hp Hh Hnz Hlen. cbv zeta. unfold respond, leave.
  destruct (out_free p) as [p'|]; [clear Hp|contradiction].
  assert (Hm : size_modulus = 18446744073709551616) by reflexivity.
  pose proof (write_buf_healthy fd (store_size_t M (Z.of_nat (length m) + 9))
                sizeof_size_t Hh ltac:(now rewrite store_size_t_length)
                ltac:(unfold sizeof_size_t; lia)) as H1.
  call_as H1 rc1 b1 s1. destruct H1 as (-> & _ & Hrx1 & Htx1 & Hh1).
  cbn [Z.eqb negb].
  destruct (Z.eqb_spec (Z.of_nat (length m) + 9) 0); [lia|]. cbn [negb].
  pose proof (write_buf_healthy s1 (m ++ [0])
                (Z.of_nat (length m) + 9 - sizeof_size_t) Hh1
                ltac:(rewrite length_app; unfold sizeof_size_t; simpl; lia)
                ltac:(unfold sizeof_size_t; lia)) as H2.
  call_as H2 rc2 b2 s2. destruct H2 as (-> & _ & Hrx2 & Htx2 & Hh2).
  cbn [Z.eqb negb fst snd]. repeat split; trivial; try congruence.
  now rewrite Htx2, Htx1, <- app_assoc.
Qed.

(** X6.  A request that its handler serves: the string the handler returns is
    the string the client's [send_receive] hands back, and the server goes
    on to the next connection. *)
Theorem exchange_served (Mc Ms : machine) (E : enroll_server) (st : locals)
    (c sfd : sock) (op : Z) (payload m : list Z) :
  host_order Mc = host_order Ms ->
  - 2 ^ 31 <= op < 2 ^ 31 ->
  Forall (fun b => b <> 0) payload ->
  Z.of_nat (length payload) + 16 < size_modulus ->
  Forall (fun b => b <> 0) m ->
  Z.of_nat (length m) + 9 < size_modulus ->
  healthy c -> tx c = [] -> healthy sfd -> tx sfd = [] ->
  malloc_ok Ms (Z.of_nat (length payload) + 1) = true ->
  malloc_ok Mc (Z.of_nat (length m) + 9) = true ->
  dispatch E op (payload ++ [0]) = (0, Some m) ->
  rx sfd = sent (send_receive Mc 0 (Some c) op payload) ->
  rx c = tx (snd (serve Ms E st sfd)) ->
  fst (fst (serve Ms E st sfd)) = NextConnection
  /\ fst (send_receive Mc 0 (Some c) op payload)
     = (0, Some (m ++ [0] ++ skipn (length m + 1)
                                (fresh_mem Mc (Z.of_nat (length m) + 9)))).
Proof.
  intros Hbo Hop Hnz Hlen Hmnz Hmlen Hc Htxc Hs Htxs Hmal Hmalc Hd Hreq Hresp.
  assert (Hm : size_modulus = 18446744073709551616) by reflexivity.
  (* the server *)
  rewrite (send_receive_sent Mc c op payload Hc Hnz Hlen), Htxc in Hreq.
  cbn [app] in Hreq.
  replace (store_size_t Mc) with (store_size_t Ms) in Hreq
    by (unfold store_size_t; now rewrite Hbo).
  replace (store_int Mc) with (store_int Ms) in Hreq
    by (unfold store_int; now rewrite Hbo).
  pose proof (read_request_healthy Ms st sfd _ op payload Hs Hreq
                ltac:(lia) Hop ltac:(lia)
                ltac:(now replace (Z.of_nat (length payload) + 16 - 15)
                        with (Z.of_nat (length payload) + 1) by lia)) as Hrq.
  cbv zeta in Hrq.
  replace (Z.of_nat (length payload) + 16 - 16) with (Z.of_nat (length payload))
    in Hrq by lia.
  rewrite Nat2Z.id, firstn_all in Hrq.
  destruct Hrq as (Hq1 & Hq2 & _ & Hq4 & Hq5).
  assert (Hserve : serve Ms E st sfd
                   = respond Ms (after_switch E op (payload ++ [0]) (Some m))
                       op (Z.of_nat (length m) + 9) (Some m)
                       (snd (read_request Ms st sfd))).
  { unfold serve. destruct (read_request Ms st sfd) as [[rq st1] fd1].
    cbn [fst snd] in *. subst rq st1. cbn [l_op]. rewrite Hd. cbn [Z.eqb].
    rewrite (strlen_nonzero _ Hmnz). unfold sizeof_size_t.
    rewrite to_size_t_id by lia. f_equal. lia. }
  destruct (respond_message Ms _ op m _
              (after_switch_out_free E op (payload ++ [0]) (Some m))
              Hq5 Hmnz Hmlen) as (Hv & Htx & _ & _).
  rewrite <- Hserve in Hv, Htx. rewrite Hq4, Htxs in Htx. cbn [app] in Htx.
  split; [exact Hv|].
  (* the client *)
  rewrite Htx in Hresp.
  replace (store_size_t Ms) with (store_size_t Mc) in Hresp
    by (unfold store_size_t; now rewrite Hbo).
  destruct (send_receive_request Mc c op payload Hc Hnz Hlen)
    as (c1 & -> & Hrx1 & _ & Hh1).
  rewrite Hresp in Hrx1.
  destruct (receive_response_header Mc (Z.of_nat (length payload) + 16) c1 _ _
              Hh1 Hrx1 ltac:(lia)) as (c2 & Hrx2 & _ & Hh2 & ->).
  destruct (Z.eqb_spec (Z.of_nat (length m) + 9) 0); [lia|].
  rewrite Hmalc. cbn [negb]. unfold sizeof_size_t.
  destruct (Z.ltb_spec (Z.of_nat (length m) + 9) 8); [lia|].
  rewrite to_size_t_id by lia.
  pose proof (read_buf_healthy c2 (fresh_mem Mc (Z.of_nat (length m) + 9))
                (Z.of_nat (length m) + 9 - 8) Hh2 ltac:(lia)
                ltac:(rewrite Hrx2, length_app; simpl; lia)) as H3.
  call_as H3 rc3 b3 c3. destruct H3 as (-> & -> & _).
  cbn [fst]. rewrite Hrx2. do 2 f_equal.
  replace (Z.to_nat (Z.of_nat (length m) + 9 - 8)) with (length m + 1)%nat by lia.
  rewrite (firstn_all2 (m ++ [0])) by (rewrite length_app; simpl; lia).
  now rewrite <- app_assoc.
Qed.
Lemma exchange_served_witness :
  let c := mkSock [14; 0; 0; 0; 0; 0; 0; 0; 110; 111; 110; 99; 101; 0] [] [3] in
  let sfd := mkSock [18; 0; 0; 0; 0; 0; 0; 0; 3; 0; 0; 0; 104; 105] [] [] in
  fst (fst (serve demo_machine demo_enroll (mkLocals 0 0) sfd)) = NextConnection
  /\ fst (send_receive demo_machine 0 (Some c) 3 [104; 105])
     = (0, Some ([110; 111; 110; 99; 101] ++ [0]
                 ++ skipn (5 + 1) (fresh_mem demo_machine (Z.of_nat 5 + 9)))).
Proof.
  intros c sfd.
  refine (exchange_served demo_machine demo_machine demo_enroll (mkLocals 0 0)
            c sfd 3 [104; 105] [110; 111; 110; 99; 101]
            _ _ _ _ _ _ _ _ _ _ _ _ _ _ _).
  - reflexivity.
  - lia.
  - repeat constructor; discriminate.
  - vm_compute; reflexivity.
  - repeat constructor; discriminate.
  - vm_compute; reflexivity.
  - repeat constructor.
  - reflexivity.
  - constructor.
  - reflexivity.
  - vm_compute; reflexivity.
  - vm_compute; reflexivity.
  - vm_compute; reflexivity.
  - vm_compute; reflexivity.
  - vm_compute; reflexivity.
Defined.


End Exchange.


(** ** The PCR list, entry by entry *)

Section PcrListValues.
Import PcrList.

Lemma set_nth_mid pre x post v :
  set_nth (length pre) v (pre ++ x :: post) = pre ++ v :: post.
Proof. induction pre as [|y pre IH]; simpl; [reflexivity|now rewrite IH]. Qed.

Lemma astore_mid pre x post o v :
  astore (mkIntArray (pre ++ x :: post) o) (Z.of_nat (length pre)) v
  = mkIntArray (pre ++ v :: post) o.
Proof.
  unfold astore. cbn [cells overrun]. rewrite length_app. cbn [length].
  destruct (Z.leb_spec 0 (Z.of_nat (length pre))); [|lia].
  destruct (Z.ltb_spec (Z.of_nat (length pre))
              (Z.of_nat (length pre + S (length post)))); [|lia].
  cbn [andb]. now rewrite Nat2Z.id, set_nth_mid.
Qed.

Lemma init_loop_cells xs : forall pre post o,
  init_loop (length xs) (Z.of_nat (length pre)) (mkIntArray (pre ++ xs ++ post) o)
  = mkIntArray (pre ++ repeat (-1) (length xs) ++ post) o.
Proof.
  induction xs as [|x xs IH]; intros pre post o; [reflexivity|].
  cbn [length init_loop app]. rewrite astore_mid.
  replace (pre ++ -1 :: xs ++ post) with ((pre ++ [-1]) ++ xs ++ post)
    by (now rewrite <- app_assoc).
  replace (Z.of_nat (length pre) + 1) with (Z.of_nat (length (pre ++ [-1])))
    by (rewrite length_app; simpl; lia).
  rewrite IH. cbn [repeat]. now rewrite <- app_assoc.
Qed.

(** The loop over entries that are all non-negative and find room. *)
Lemma parse_loop_values toks : forall xs pre post o num,
  length xs = length toks ->
  Forall (fun t => 0 <= to_int (strtol t)) toks ->
  Z.of_nat (length pre) + Z.of_nat (length toks) <= num + 1 ->
  parse_loop toks num (Z.of_nat (length pre)) (mkIntArray (pre ++ xs ++ post) o)
  = (0, mkIntArray (pre ++ map (fun t => to_int (strtol t)) toks ++ post) o).
Proof.
  induction toks as [|t toks IH]; intros xs pre post o num Hl Hv Hn.
  - destruct xs; [reflexivity|discriminate].
  - destruct xs as [|x xs]; [discriminate|]. inversion Hv as [|? ? Ht Hts]; subst.
    cbn [parse_loop length] in *.
    destruct (Z.gtb_spec (Z.of_nat (length pre)) num); [lia|].
    destruct (Z.ltb_spec (to_int (strtol t)) 0); [lia|].
    cbn [app]. rewrite astore_mid.
    replace (pre ++ to_int (strtol t) :: xs ++ post)
      with ((pre ++ [to_int (strtol t)]) ++ xs ++ post)
      by (now rewrite <- app_assoc).
    replace (Z.of_nat (length pre) + 1)
      with (Z.of_nat (length (pre ++ [to_int (strtol t)])))
      by (rewrite length_app; simpl; lia).
    rewrite IH; [|lia|exact Hts|rewrite length_app; simpl; lia].
    cbn [map]. now rewrite <- app_assoc.
Qed.

(** The loop up to the first negative entry. *)
Lemma parse_loop_negative good : forall bad rest xs pre post o num,
  length xs = length good ->
  Forall (fun t => 0 <= to_int (strtol t)) good ->
  to_int (strtol bad) < 0 ->
  Z.of_nat (length pre) + Z.of_nat (length good) <= num ->
  parse_loop (good ++ bad :: rest) num (Z.of_nat (length pre))
    (mkIntArray (pre ++ xs ++ post) o)
  = (to_int (strtol bad),
     mkIntArray (pre ++ map (fun t => to_int (strtol t)) good ++ post) o).
Proof.
  induction good as [|t good IH]; intros bad rest xs pre post o num Hl Hv Hb Hn.
  - destruct xs; [|discriminate]. cbn [app parse_loop map length] in *.
    destruct (Z.gtb_spec (Z.of_nat (length pre)) num); [lia|].
    destruct (Z.ltb_spec (to_int (strtol bad)) 0); [reflexivity|lia].
  - destruct xs as [|x xs]; [discriminate|]. inversion Hv as [|? ? Ht Hts]; subst.
    cbn [parse_loop length app] in *.
    destruct (Z.gtb_spec (Z.of_nat (length pre)) num); [lia|].
    destruct (Z.ltb_spec (to_int (strtol t)) 0); [lia|].
    rewrite astore_mid.
    replace (pre ++ to_int (strtol t) :: xs ++ post)
      with ((pre ++ [to_int (strtol t)]) ++ xs ++ post)
      by (now rewrite <- app_assoc).
    replace (Z.of_nat (length pre) + 1)
      with (Z.of_nat (length (pre ++ [to_int (strtol t)])))
      by (rewrite length_app; simpl; lia).
    rewrite IH; [|lia|exact Hts|exact Hb|rewrite length_app; simpl; lia].
    cbn [map]. now rewrite <- app_assoc.
Qed.

Lemma split_cells (l : list Z) (k : nat) :
  (k <= length l)%nat ->
  exists xs post, l = xs ++ post /\ length xs = k
                  /\ length post = (length l - k)%nat.
Proof.
  intros Hk. exists (firstn k l), (skipn k l).
  rewrite firstn_skipn, length_firstn, length_skipn. repeat split; lia.
Qed.

Lemma parse_pcr_list_run M str pcr_list :
  malloc_ok M (Z.of_nat (String.length str) + 1) = true ->
  attest_util_parse_pcr_list M str (Z.of_nat (length (cells pcr_list))) pcr_list
  = parse_loop (tokens str) (Z.of_nat (length (cells pcr_list))) 0
      (mkIntArray (repeat (-1) (length (cells pcr_list))) (overrun pcr_list)).
Proof.
  intros Hm. unfold attest_util_parse_pcr_list. rewrite Hm, Nat2Z.id. cbn [negb].
  destruct pcr_list as [c o]. cbn [cells overrun].
  pose proof (init_loop_cells c [] [] o) as H.
  cbn [app length Z.of_nat] in H. rewrite !app_nil_r in H. now rewrite H.
Qed.

(** X8.  A list of at most [pcr_list_num] entries, none of them negative: the
    array holds, in order, what [strtol] makes of each piece between the
    commas - 0 for a piece that does not start with a number, the empty
    piece included - and -1 in the entries that are left. *)
Theorem parse_pcr_list_values (M : machine) (str : string) (pcr_list : int_array) :
  malloc_ok M (Z.of_nat (String.length str) + 1) = true ->
  (length (tokens str) <= length (cells pcr_list))%nat ->
  Forall (fun t => 0 <= to_int (strtol t)) (tokens str) ->
  attest_util_parse_pcr_list M str (Z.of_nat (length (cells pcr_list))) pcr_list
  = (0, mkIntArray
          (map (fun t => to_int (strtol t)) (tokens str)
           ++ repeat (-1) (length (cells pcr_list) - length (tokens str)))
          (overrun pcr_list)).
Proof.
  intros Hm Hn Hv. rewrite (parse_pcr_list_run M str pcr_list Hm).
  set (n := length (cells pcr_list)) in *. set (k := length (tokens str)) in *.
  replace (repeat (-1) n) with (repeat (-1) k ++ repeat (-1) (n - k))
    by (rewrite <- repeat_app; f_equal; lia).
  pose proof (parse_loop_values (tokens str) (repeat (-1) k) []
                (repeat (-1) (n - k)) (overrun pcr_list) (Z.of_nat n)
                ltac:(now rewrite repeat_length) Hv
                ltac:(cbn [length]; fold k; lia)) as H.
  exact H.
Qed.
Lemma parse_pcr_list_values_witness :
  attest_util_parse_pcr_list demo_machine "7,,x1, 10" 5 (mkIntArray [9; 9; 9; 9; 9] [])
  = (0, mkIntArray [7; 0; 0; 10; -1] []).
Proof.
  exact (parse_pcr_list_values demo_machine "7,,x1, 10" (mkIntArray [9; 9; 9; 9; 9] [])
           ltac:(vm_compute; reflexivity) ltac:(vm_compute; lia)
           ltac:(repeat constructor; vm_compute; discriminate)).
Defined.

(** X9.  The first negative entry ends the parse: what it reads as is the
    return code - so the entry [-34] passes for [- ERANGE] - the entries
    before it are in the array, and the entries after it are not looked
    at. *)
Theorem parse_pcr_list_negative (M : machine) (str : string)
    (pcr_list : int_array) (good rest : list string) (bad : string) :
  malloc_ok M (Z.of_nat (String.length str) + 1) = true ->
  tokens str = good ++ bad :: rest ->
  (length good <= length (cells pcr_list))%nat ->
  Forall (fun t => 0 <= to_int (strtol t)) good ->
  to_int (strtol bad) < 0 ->
  attest_util_parse_pcr_list M str (Z.of_nat (length (cells pcr_list))) pcr_list
  = (to_int (strtol bad),
     mkIntArray
       (map (fun t => to_int (strtol t)) good
        ++ repeat (-1) (length (cells pcr_list) - length good))
       (overrun pcr_list)).
Proof.
  intros Hm Ht Hn Hv Hb. rewrite (parse_pcr_list_run M str pcr_list Hm), Ht.
  set (n := length (cells pcr_list)) in *. set (k := length good) in *.
  replace (repeat (-1) n) with (repeat (-1) k ++ repeat (-1) (n - k))
    by (rewrite <- repeat_app; f_equal; lia).
  exact (parse_loop_negative good bad rest (repeat (-1) k) []
           (repeat (-1) (n - k)) (overrun pcr_list) (Z.of_nat n)
           ltac:(now rewrite repeat_length) Hv Hb
           ltac:(cbn [length]; fold k; lia)).
Qed.

Lemma parse_pcr_list_negative_witness :
  attest_util_parse_pcr_list demo_machine "3,-34,5" 4 (mkIntArray [9; 9; 9; 9] [])
  = (- ERANGE, mkIntArray [3; -1; -1; -1] []).
Proof.
  exact (parse_pcr_list_negative demo_machine "3,-34,5" (mkIntArray [9; 9; 9; 9] [])
           ["3"%string] ["5"%string] "-34"
           ltac:(vm_compute; reflexivity) ltac:(vm_compute; reflexivity)
           ltac:(vm_compute; lia)
           ltac:(repeat constructor; vm_compute; discriminate)
           ltac:(vm_compute; reflexivity)).
Defined.
End PcrListValues.

(** ** The required mask of the server *)

Section PcrMaskFacts.
Import PcrList PcrMask Mask.

Lemma nth_set_nth (l : list Z) (i j : nat) (v : Z) :
  (i < length l)%nat ->
  nth j (set_nth i v l) 0 = if Nat.eqb j i then v else nth j l 0.
Proof.
  revert i j; induction l as [|x l IH]; intros i j Hi; [simpl in Hi; lia|].
  destruct i as [|i], j as [|j]; cbn [set_nth nth Nat.eqb]; try reflexivity.
  apply IH. simpl in Hi. lia.
Qed.

Lemma set_nth_u8 (l : list Z) (i : nat) (v : Z) :
  u8_list l -> is_u8 v -> u8_list (set_nth i v l).
Proof.
  intros Hl Hv. revert i. induction Hl as [|x l Hx Hl IH]; intros [|i]; simpl;
    try constructor; auto. apply IH.
Qed.

(** The bits of [(a | 1 << j) mod 256]. *)
Lemma testbit_or_bit (a j b : Z) :
  0 <= j < 8 -> 0 <= b < 8 ->
  Z.testbit (Z.lor a (Z.shiftl 1 j) mod 256) b = Z.testbit a b || (b =? j).
Proof.
  intros Hj Hb. change 256 with (2 ^ 8).
  rewrite Z.mod_pow2_bits_low by lia.
  rewrite Z.lor_spec, Z.shiftl_1_l, Z.pow2_bits_eqb by lia.
  f_equal. rewrite Z.eqb_sym. reflexivity.
Qed.

(** One entry below [8 * length m] sets its bit and no other. *)
Lemma aor_bit (m : list Z) (o : list (Z * Z)) (pcr : Z) :
  u8_list m -> 0 <= pcr < 8 * Z.of_nat (length m) ->
  let a := aor (mkIntArray m o) (Z.quot pcr 8) (Z.shiftl 1 (Z.rem pcr 8)) in
  overrun a = o /\ length (cells a) = length m /\ u8_list (cells a)
  /\ forall k, mask_bit (cells a) k = mask_bit m k || (Z.of_nat k =? pcr).
Proof.
  intros Hm Hp. cbv zeta.
  rewrite Z.quot_div_nonneg, Z.rem_mod_nonneg by lia.
  assert (Hq : 0 <= pcr / 8 < Z.of_nat (length m)).
  { split; [apply Z.div_pos; lia|]. apply Z.div_lt_upper_bound; lia. }
  assert (Hr : 0 <= pcr mod 8 < 8) by (apply Z.mod_pos_bound; lia).
  unfold aor. cbn [cells overrun].
  destruct (Z.leb_spec 0 (pcr / 8)); [|lia].
  destruct (Z.ltb_spec (pcr / 8) (Z.of_nat (length m))); [|lia].
  cbn [andb cells overrun]. split; [reflexivity|].
  split; [apply set_nth_length|]. split.
  - apply set_nth_u8; [exact Hm|]. unfold is_u8. apply Z.mod_pos_bound. lia.
  - intros k. unfold mask_bit. rewrite nth_set_nth by lia.
    assert (Hk8 : (k mod 8 < 8)%nat) by (apply Nat.mod_upper_bound; lia).
    pose proof (Nat.div_mod_eq k 8) as Hk.
    pose proof (Z.div_mod pcr 8 ltac:(lia)) as Hpd.
    destruct (Nat.eqb_spec (k / 8) (Z.to_nat (pcr / 8))) as [E|E].
    + rewrite testbit_or_bit by lia. rewrite <- E. f_equal.
      destruct (Z.eqb_spec (Z.of_nat (k mod 8)) (pcr mod 8));
        destruct (Z.eqb_spec (Z.of_nat k) pcr); try reflexivity; lia.
    + destruct (Z.eqb_spec (Z.of_nat k) pcr) as [E'|E'].
      * exfalso. apply E. subst pcr.
        rewrite <- (Nat2Z.id (k / 8)). f_equal.
        now rewrite Nat2Z.inj_div.
      * now rewrite orb_false_r.
Qed.

Lemma mask_bit_zero k : mask_bit [0; 0; 0] k = false.
Proof.
  unfold mask_bit. destruct (k / 8)%nat as [|[|[|[|j]]]]; cbn [nth];
    apply Z.bits_0.
Qed.

Lemma mask_bit_beyond (m : list Z) (k : nat) :
  (8 * length m <= k)%nat -> mask_bit m k = false.
Proof.
  intros Hk. unfold mask_bit. rewrite nth_overflow; [apply Z.bits_0|].
  apply Nat.div_le_lower_bound; lia.
Qed.

(** The loop over entries that are -1 or below [8 * length m]. *)
Lemma mask_loop_bits (pcr_list : list Z) : forall m o,
  u8_list m ->
  Forall (fun pcr => pcr = -1 \/ 0 <= pcr < 8 * Z.of_nat (length m)) pcr_list ->
  let a := mask_loop pcr_list (mkIntArray m o) in
  overrun a = o /\ length (cells a) = length m /\ u8_list (cells a)
  /\ forall k, mask_bit (cells a) k = mask_bit m k || existsb (Z.eqb (Z.of_nat k)) pcr_list.
Proof.
  induction pcr_list as [|pcr rest IH]; intros m o Hm Hl; cbv zeta.
  - cbn. repeat split; trivial. intros k. now rewrite orb_false_r.
  - inversion Hl as [|? ? Hp Hrest]; subst. cbn [mask_loop existsb].
    destruct (Z.eqb_spec pcr (-1)) as [->|Hne].
    + destruct (IH m o Hm Hrest) as (H1 & H2 & H3 & H4).
      repeat split; trivial. intros k. rewrite H4.
      destruct (Z.eqb_spec (Z.of_nat k) (-1)); [lia|reflexivity].
    + destruct Hp as [?|Hp]; [contradiction|].
      destruct (aor_bit m o pcr Hm Hp) as (A1 & A2 & A3 & A4).
      destruct (aor (mkIntArray m o) (Z.quot pcr 8) (Z.shiftl 1 (Z.rem pcr 8)))
        as [m1 o1]. cbn [cells overrun] in *. subst o1.
      destruct (IH m1 o A3 ltac:(now rewrite A2)) as (H1 & H2 & H3 & H4).
      repeat split; trivial; [congruence|]. intros k.
      now rewrite H4, A4, orb_assoc.
Qed.
End PcrMaskFacts.

Section PcrMaskContract.
Import PcrList PcrMask Mask.

Lemma existsb_eqb_In (k : Z) (l : list Z) :
  existsb (Z.eqb k) l = true <-> In k l.
Proof.
  rewrite existsb_exists. split.
  - intros (x & Hx & E). apply Z.eqb_eq in E. now subst.
  - intros H. exists k. split; [exact H|apply Z.eqb_refl].
Qed.

(** X10.  The mask built from entries that are -1 or below 24: bit [k] is set
    exactly when [k] is an entry, and no store leaves the three bytes. *)
Theorem pcr_mask_bits (pcr_list : list Z) :
  Forall (fun pcr => pcr = -1 \/ 0 <= pcr < 24) pcr_list ->
  let a := mask_loop pcr_list pcr_mask_init in
  overrun a = [] /\ length (cells a) = 3%nat
  /\ forall k, mask_bit (cells a) k = true <-> In (Z.of_nat k) pcr_list.
Proof.
  intros Hl. cbv zeta.
  destruct (mask_loop_bits pcr_list [0; 0; 0] []
              ltac:(repeat constructor; unfold is_u8; lia) Hl)
    as (H1 & H2 & _ & H4).
  split; [exact H1|]. split; [exact H2|]. intros k.
  unfold pcr_mask_init. rewrite H4, mask_bit_zero. cbn [orb].
  apply existsb_eqb_In.
Qed.

Lemma pcr_mask_bits_witness :
  let a := mask_loop [0; 10; -1; 23; 10] pcr_mask_init in
  overrun a = [] /\ length (cells a) = 3%nat
  /\ forall k, mask_bit (cells a) k = true <-> In (Z.of_nat k) [0; 10; -1; 23; 10].
Proof.
  exact (pcr_mask_bits [0; 10; -1; 23; 10]
           ltac:(repeat (apply Forall_cons; [first [left; reflexivity | right; lia]|]); apply Forall_nil)).
Defined.

Lemma aor_grows a i v :
  exists e, overrun (aor a i v) = overrun a ++ e
            /\ length (cells (aor a i v)) = length (cells a).
Proof.
  unfold aor. destruct (_ && _); cbn [cells overrun].
  - exists []. split; [now rewrite app_nil_r|apply set_nth_length].
  - eexists. split; reflexivity.
Qed.

Lemma mask_loop_grows l : forall a,
  exists e, overrun (mask_loop l a) = overrun a ++ e
            /\ length (cells (mask_loop l a)) = length (cells a).
Proof.
  induction l as [|p l IH]; intros a; cbn [mask_loop].
  - exists []. split; [now rewrite app_nil_r|reflexivity].
  - destruct (p =? -1); [apply IH|].
    destruct (aor_grows a (Z.quot p 8) (Z.shiftl 1 (Z.rem p 8))) as (e1 & H1 & L1).
    destruct (IH (aor a (Z.quot p 8) (Z.shiftl 1 (Z.rem p 8)))) as (e2 & H2 & L2).
    exists (e1 ++ e2). split; [now rewrite H2, H1, app_assoc|congruence].
Qed.

Lemma mask_loop_overrun l : forall a,
  length (cells a) = 3%nat -> Forall (fun p => -1 <= p) l ->
  (overrun (mask_loop l a) = overrun a <-> Forall (fun p => p < 24) l).
Proof.
  induction l as [|p l IH]; intros a Ha Hl.
  - split; [constructor|reflexivity].
  - inversion Hl as [|? ? Hp Hrest]; subst. cbn [mask_loop].
    destruct (Z.eqb_spec p (-1)) as [->|Hne].
    + rewrite (IH a Ha Hrest). split.
      * intros H. constructor; [lia|exact H].
      * intros H. now inversion H.
    + assert (H0 : 0 <= p) by lia.
      set (a1 := aor a (Z.quot p 8) (Z.shiftl 1 (Z.rem p 8))).
      destruct (Z_lt_le_dec p 24) as [Hlt|Hge].
      * assert (Hin : overrun a1 = overrun a /\ length (cells a1) = 3%nat).
        { unfold a1, aor. rewrite Z.quot_div_nonneg by lia.
          assert (0 <= p / 8 < 3).
          { split; [apply Z.div_pos; lia|apply Z.div_lt_upper_bound; lia]. }
          rewrite Ha.
          destruct (Z.leb_spec 0 (p / 8)); [|lia].
          destruct (Z.ltb_spec (p / 8) (Z.of_nat 3)); [|lia].
          cbn [andb cells overrun]. split; [reflexivity|].
          now rewrite set_nth_length. }
        destruct Hin as [Ho Hc]. rewrite <- Ho, (IH a1 Hc Hrest). split.
        -- intros H. constructor; assumption.
        -- intros H. now inversion H.
      * split.
        -- intros H. exfalso.
           assert (Ho : overrun a1 = overrun a ++ [(Z.quot p 8, Z.shiftl 1 (Z.rem p 8))]).
           { unfold a1, aor. rewrite Z.quot_div_nonneg by lia.
             assert (3 <= p / 8) by (apply Z.div_le_lower_bound; lia).
             rewrite Ha.
             destruct (Z.ltb_spec (p / 8) (Z.of_nat 3)); [lia|].
             now rewrite andb_false_r. }
           destruct (mask_loop_grows l a1) as (e & He & _).
           rewrite He, Ho, <- app_assoc in H.
           apply (f_equal (@length _)) in H. rewrite !length_app in H.
           simpl in H. lia.
        -- intros H. inversion H; subst. lia.
Qed.

(** X11.  No store leaves the three bytes of the mask exactly when every entry
    of the list is below 24: an entry from 24 on is or-ed into memory that
    lies behind [pcr_mask]. *)
Theorem pcr_mask_overrun (pcr_list : list Z) :
  Forall (fun pcr => -1 <= pcr) pcr_list ->
  (overrun (mask_loop pcr_list pcr_mask_init) = []
   <-> Forall (fun pcr => pcr < 24) pcr_list).
Proof.
  intros Hl. exact (mask_loop_overrun pcr_list pcr_mask_init eq_refl Hl).
Qed.

Lemma pcr_mask_overrun_witness :
  overrun (mask_loop [0; 24; -1] pcr_mask_init) = []
  <-> Forall (fun pcr => pcr < 24) [0; 24; -1].
Proof.
  exact (pcr_mask_overrun [0; 24; -1] ltac:(repeat constructor; lia)).
Defined.

(** X12.  From the option to the verdict.  For a list of at most 24 entries that
    all read as numbers from 0 to 23, the mask the server builds is one
    that [attest_util_check_mask] accepts an asserted mask of three bytes
    against exactly when the asserted mask has the bit of every PCR of the
    list. *)
Theorem pcr_list_policy (M : machine) (str : string) (pcr_list : int_array)
    (A : u8array) (p : Z -> Z) :
  malloc_ok M (Z.of_nat (String.length str) + 1) = true ->
  length (cells pcr_list) = 24%nat ->
  (length (tokens str) <= 24)%nat ->
  Forall (fun t => 0 <= to_int (strtol t) < 24) (tokens str) ->
  alen A = 3 ->
  let r := load_pcr_mask M (Some str) pcr_list in
  fst (fst r) = 0
  /\ overrun (snd r) = []
  /\ (check_mask A (mkArr (cells (snd r)) p) = 0
      <-> forall t, In t (tokens str) ->
                    mask_bit (elems A) (Z.to_nat (to_int (strtol t))) = true).
Proof.
  intros Hm Hc Hn Hv HA. cbv zeta. unfold load_pcr_mask.
  rewrite (parse_pcr_list_run M str pcr_list Hm).
  set (n := length (cells pcr_list)) in *. set (k := length (tokens str)) in *.
  replace (repeat (-1) n) with (repeat (-1) k ++ repeat (-1) (n - k))
    by (rewrite <- repeat_app; f_equal; lia).
  assert (Hv0 : Forall (fun t => 0 <= to_int (strtol t)) (tokens str)).
  { eapply Forall_impl; [|exact Hv]. cbv beta. intros; lia. }
  pose proof (parse_loop_values (tokens str) (repeat (-1) k) []
                (repeat (-1) (n - k)) (overrun pcr_list) (Z.of_nat n)
                ltac:(now rewrite repeat_length) Hv0
                ltac:(cbn [length]; fold k; lia)) as Hp.
  cbn [app length Z.of_nat] in Hp. rewrite Hp. cbn [Z.ltb Z.compare fst snd cells].
  set (vals := map (fun t => to_int (strtol t)) (tokens str)).
  assert (Hl : Forall (fun pcr => pcr = -1 \/ 0 <= pcr < 8 * Z.of_nat 3)
                 (vals ++ repeat (-1) (n - k))).
  { apply Forall_app. split.
    - unfold vals. apply Forall_map. eapply Forall_impl; [|exact Hv].
      cbv beta. intros; right; lia.
    - apply Forall_forall. intros x Hx. apply repeat_spec in Hx. now left. }
  destruct (mask_loop_bits _ [0; 0; 0] []
              ltac:(repeat constructor; unfold is_u8; lia) Hl)
    as (H1 & H2 & H3 & H4).
  fold pcr_mask_init in H1, H2, H3, H4.
  split; [reflexivity|]. split; [exact H1|].
  set (R := cells (mask_loop (vals ++ repeat (-1) (n - k)) pcr_mask_init)) in *.
  rewrite (check_mask_zero_bytes A (mkArr R p)).
  - cbn [elems]. rewrite <- (covers_bytes _ _ H3). unfold covers. split.
    + intros Hcov t Ht. rewrite Forall_forall in Hv. specialize (Hv t Ht).
      apply Hcov. rewrite H4, mask_bit_zero. cbn [orb].
      apply existsb_eqb_In. apply in_or_app. left.
      rewrite Z2Nat.id by lia. unfold vals.
      exact (in_map (fun t => to_int (strtol t)) _ _ Ht).
    + intros Hall j Hj. rewrite H4, mask_bit_zero in Hj. cbn [orb] in Hj.
      apply existsb_eqb_In in Hj. apply in_app_or in Hj. destruct Hj as [Hj|Hj].
      * unfold vals in Hj. apply in_map_iff in Hj. destruct Hj as (t & Et & Ht).
        specialize (Hall t Ht). rewrite Et, Nat2Z.id in Hall. exact Hall.
      * apply repeat_spec in Hj. lia.
  - unfold alen in *. cbn [elems]. cbn [length] in H2. lia.
  - cbn [elems]. apply nth_overflow. unfold alen in HA. cbn [length] in H2. lia.
Qed.

Lemma pcr_list_policy_witness :
  let r := load_pcr_mask demo_machine (Some "0,7,10"%string)
             (mkIntArray (repeat 5 24) []) in
  fst (fst r) = 0 /\ overrun (snd r) = []
  /\ (check_mask (mkArr [129; 4; 0] (fun _ => 0)) (mkArr (cells (snd r)) (fun _ => 0)) = 0
      <-> forall t, In t (tokens "0,7,10") ->
            mask_bit [129; 4; 0] (Z.to_nat (to_int (strtol t))) = true).
Proof.
  exact (pcr_list_policy demo_machine "0,7,10" (mkIntArray (repeat 5 24) [])
           (mkArr [129; 4; 0] (fun _ => 0)) (fun _ => 0)
           ltac:(vm_compute; reflexivity) ltac:(reflexivity)
           ltac:(vm_compute; lia)
           ltac:(repeat constructor; vm_compute; discriminate)
           ltac:(reflexivity)).
Defined.
End PcrMaskContract.

Section FileFacts.
Import RwBuf Files.

Lemma rw_loop_rc fuel : forall op s buf B p r,
  rw_loop fuel op s buf B p = Some r -> fst (fst r) = 0 \/ fst (fst r) = - EIO.
Proof.
  induction fuel as [|fuel IH]; intros op s buf B p r; rewrite rw_loop_eq;
    destruct (p <? B); try discriminate.
  - intros [= <-]. now left.
  - destruct (rw_call op s buf B p) as [[ret b] s1].
    destruct (to_size_t ret <=? 0).
    + intros [= <-]. now right.
    + apply IH.
  - intros [= <-]. now left.
Qed.

Lemma rw_buf_rc s buf n op :
  fst (fst (attest_util_rw_buf s buf n op)) = 0
  \/ fst (fst (attest_util_rw_buf s buf n op)) = - EIO.
Proof.
  exact (rw_loop_rc _ _ _ _ _ _ _ (attest_util_rw_buf_returns s buf n op)).
Qed.

Lemma fs_write_same F path c : fs_write F path c path = Some c.
Proof. unfold fs_write. now rewrite String.eqb_refl. Qed.

Lemma fs_write_other F path c q : q <> path -> fs_write F path c q = F q.
Proof.
  intros H. unfold fs_write. destruct (String.eqb_spec q path); congruence.
Qed.

Lemma write_file_bad_fd F fd kern path len data append :
  fd < 0 -> attest_util_write_file F fd kern path len data append = (0, F).
Proof.
  intros Hfd. unfold attest_util_write_file, open_write, file_desc.
  destruct (Z.ltb_spec fd 0); [|lia]. destruct (Z.eqb_spec fd 0); [lia|].
  unfold attest_util_write_buf.
  destruct (Z.eq_dec (to_size_t len) 0) as [E|E].
  - unfold attest_util_rw_buf. rewrite rw_loop_eq, E. reflexivity.
  - pose proof (to_size_t_range len).
    rewrite (rw_buf_first_call_fails _ data len O_WRONLY (-1) []); trivial; lia.
Qed.

Lemma write_file_run F fd kern path len data append :
  0 < fd -> healthy (mkSock [] [] kern) ->
  len = Z.of_nat (length data) -> len < size_modulus ->
  let r := attest_util_write_file F fd kern path len data append in
  fst r = 0
  /\ snd r path = Some ((if append =? 0 then [] else content_of F path) ++ data)
  /\ forall q, q <> path -> snd r q = F q.
Proof.
  intros Hfd Hk Hlen Hmax. cbv zeta.
  unfold attest_util_write_file, open_write, file_desc.
  destruct (Z.ltb_spec fd 0); [lia|]. destruct (Z.eqb_spec fd 0); [lia|].
  set (c0 := if append =? 0 then [] else content_of F path).
  replace (content_of (fs_write F path c0) path) with c0
    by (unfold content_of; now rewrite fs_write_same).
  pose proof (write_buf_healthy (mkSock [] c0 kern) data len Hk Hlen Hmax) as Hw.
  cbv zeta in Hw.
  destruct (attest_util_write_buf (mkSock [] c0 kern) data len) as [[rc b] s].
  cbn [fst snd tx] in *. destruct Hw as (-> & _ & _ & -> & _).
  split; [reflexivity|]. split; [apply fs_write_same|].
  intros q Hq. now rewrite !fs_write_other.
Qed.
End FileFacts.

Section FileContract.
Import RwBuf Files.

(** X13.  [attest_util_write_file] when [open] fails: the test [!fd] does not
    catch -1, the one [write] on the bad descriptor fails unnoticed, and
    the function returns 0 with the file system as it was. *)
Theorem write_file_open_failure (F : fs) (fd : Z) (kern : list Z)
    (path : string) (len : Z) (data : list Z) (append : Z) :
  fd < 0 ->
  attest_util_write_file F fd kern path len data append = (0, F).
Proof. apply write_file_bad_fd. Qed.

Lemma write_file_open_failure_witness :
  attest_util_write_file (fun _ => None) (-1) [] "/no/such/dir/out" 3
    [104; 105; 10] 0 = (0, fun _ => None).
Proof.
  exact (write_file_open_failure (fun _ => None) (-1) [] "/no/such/dir/out" 3
           [104; 105; 10] 0 ltac:(lia)).
Defined.

(** X14.  [- EACCES] is returned exactly when [open] returned the descriptor 0,
    that is, when it succeeded; the file is then created or emptied, and
    nothing is written. *)
Theorem write_file_eacces (F : fs) (fd : Z) (kern : list Z)
    (path : string) (len : Z) (data : list Z) (append : Z) :
  (fst (attest_util_write_file F fd kern path len data append) = - EACCES
   <-> fd = 0)
  /\ snd (attest_util_write_file F 0 kern path len data append) path
     = Some (if append =? 0 then [] else content_of F path).
Proof.
  split; [|apply fs_write_same].
  unfold attest_util_write_file.
  destruct (Z.eqb_spec fd 0) as [->|Hne]; cbn [fst snd].
  - split; reflexivity.
  - pose proof (rw_buf_rc (file_desc (open_write F path append fd) path fd kern)
                  data len O_WRONLY) as Hrc.
    fold (attest_util_write_buf (file_desc (open_write F path append fd) path fd kern)
            data len) in Hrc.
    destruct (attest_util_write_buf _ data len) as [[rc b] s]. cbn [fst snd] in *.
    split; [|intros; contradiction].
    intros E. exfalso. rewrite E in Hrc.
    destruct Hrc as [Hrc|Hrc]; vm_compute in Hrc; discriminate.
Qed.

(** X15.  With a descriptor above 0 and a kernel that reports no error and
    always makes progress, the [len] bytes at [data] are the file's
    content, after what it held when [append] is set; no other file
    changes. *)
Theorem write_file_content (F : fs) (fd : Z) (kern : list Z)
    (path : string) (len : Z) (data : list Z) (append : Z) :
  0 < fd -> healthy (mkSock [] [] kern) ->
  len = Z.of_nat (length data) -> len < size_modulus ->
  let r := attest_util_write_file F fd kern path len data append in
  fst r = 0
  /\ snd r path = Some ((if append =? 0 then [] else content_of F path) ++ data)
  /\ forall q, q <> path -> snd r q = F q.
Proof. apply write_file_run. Qed.

Lemma write_file_content_witness :
  let F := fun p => if String.eqb p "log" then Some [97; 10] else None in
  let r := attest_util_write_file F 3 [1; 5] "log" 3 [98; 99; 10] 1 in
  fst r = 0
  /\ snd r "log"%string = Some ((if 1 =? 0 then [] else content_of F "log") ++ [98; 99; 10])
  /\ forall q, q <> "log"%string -> snd r q = F q.
Proof.
  exact (write_file_content
           (fun p => if String.eqb p "log" then Some [97; 10] else None)
           3 [1; 5] "log" 3 [98; 99; 10] 1
           ltac:(lia) ltac:(repeat constructor) ltac:(reflexivity)
           ltac:(reflexivity)).
Defined.

(** X16.  Copying a file that is not empty to another path, with a descriptor
    above 0 and a kernel that reports no error: the destination holds the
    content of the source, whatever it held before, and no other file
    changes. *)
Theorem copy_file_content (F : fs) (fd : Z) (kern : list Z)
    (path_source path_dest : string) (content : list Z) :
  F path_source = Some content -> content <> [] ->
  Z.of_nat (length content) < size_modulus ->
  path_source <> path_dest ->
  0 < fd -> healthy (mkSock [] [] kern) ->
  let r := attest_util_copy_file F fd kern path_source path_dest in
  fst r = 0
  /\ snd r path_dest = Some content
  /\ forall q, q <> path_dest -> snd r q = F q.
Proof.
  intros HF Hne Hmax Hp Hfd Hk. cbv zeta.
  unfold attest_util_copy_file, attest_util_read_file. rewrite HF.
  rewrite to_size_t_id by lia.
  destruct (Z.eqb_spec (Z.of_nat (length content)) 0) as [E|_].
  { destruct content; [congruence|simpl in E; lia]. }
  cbn [Z.eqb negb].
  exact (write_file_run F fd kern path_dest _ content 0 Hfd Hk eq_refl Hmax).
Qed.

Lemma copy_file_content_witness :
  let F := fun p => if String.eqb p "a" then Some [1; 2; 3] else
                    if String.eqb p "b" then Some [9; 9; 9; 9; 9] else None in
  let r := attest_util_copy_file F 4 [2] "a" "b" in
  fst r = 0 /\ snd r "b"%string = Some [1; 2; 3]
  /\ forall q, q <> "b"%string -> snd r q = F q.
Proof.
  exact (copy_file_content
           (fun p => if String.eqb p "a" then Some [1; 2; 3] else
                     if String.eqb p "b" then Some [9; 9; 9; 9; 9] else None)
           4 [2] "a" "b" [1; 2; 3]
           ltac:(reflexivity) ltac:(discriminate) ltac:(reflexivity)
           ltac:(discriminate) ltac:(lia) ltac:(repeat constructor)).
Defined.

(** X17.  A source that cannot be mapped is not copied: a missing file gives
    [- EACCES], an empty one [- ENOMEM], since a mapping of length 0 is
    refused; the destination is not opened, so it is neither created nor
    emptied. *)
Theorem copy_file_empty_source (F : fs) (fd : Z) (kern : list Z)
    (path_source path_dest : string) :
  content_of F path_source = [] ->
  attest_util_copy_file F fd kern path_source path_dest
  = (match F path_source with None => - EACCES | Some _ => - ENOMEM end, F).
Proof.
  intros H. unfold attest_util_copy_file, attest_util_read_file.
  unfold content_of in H. destruct (F path_source) as [c|]; [|reflexivity].
  subst c. reflexivity.
Qed.

Lemma copy_file_empty_source_witness :
  attest_util_copy_file (fun p => if String.eqb p "a" then Some [] else None)
    3 [] "a" "b"
  = (- ENOMEM, fun p => if String.eqb p "a" then Some [] else None).
Proof.
  exact (copy_file_empty_source
           (fun p => if String.eqb p "a" then Some [] else None) 3 [] "a" "b"
           ltac:(reflexivity)).
Defined.
End FileContract.

Section SeqFileFacts.
Import SeqFile.

Lemma sys_read_progress s c :
  0 < c ->
  to_size_t (fst (fst (sys_read s c))) = 0
  \/ (length (kern (snd (sys_read s c))) + length (rx (snd (sys_read s c)))
      < length (kern s) + length (rx s))%nat.
Proof.
  intros Hc. unfold sys_read, grant.
  destruct (kern s) as [|g ks]; cbn [tl length].
  - destruct (Z.ltb_spec c 0); [lia|]. cbn [fst snd kern rx length].
    destruct (rx s) as [|x r].
    + left. cbn [length Z.of_nat].
      replace (Z.to_nat (Z.min (Z.min c c) 0)) with 0%nat by lia. reflexivity.
    + right. rewrite length_skipn. cbn [length]. lia.
  - destruct (Z.ltb_spec g 0); cbn [fst snd kern rx]; right;
      rewrite ?length_skipn; lia.
Qed.

Lemma count_loop_fuel fuel : forall s t,
  (length (kern s) + length (rx s) < fuel)%nat -> count_loop fuel s t <> None.
Proof.
  induction fuel as [|fuel IH]; intros s t Hf; [lia|]. cbn [count_loop].
  pose proof (sys_read_progress s 512 ltac:(lia)) as Hp.
  destruct (sys_read s 512) as [[ret d] s']. cbn [fst snd] in Hp.
  destruct (Z.leb_spec (to_size_t ret) 0) as [|Hpos]; [discriminate|].
  destruct Hp as [Hp|Hp]; [lia|]. apply IH. lia.
Qed.

Lemma fill_loop_fuel fuel : forall s data off buf_len,
  0 <= buf_len ->
  (length (kern s) + length (rx s) < fuel)%nat ->
  fill_loop fuel s data off buf_len <> None.
Proof.
  induction fuel as [|fuel IH]; intros s data off bl Hbl Hf; [lia|].
  cbn [fill_loop]. destruct (Z.eqb_spec bl 0); [discriminate|].
  pose proof (sys_read_progress s bl ltac:(lia)) as Hp.
  destruct (sys_read s bl) as [[ret d] s']. cbn [fst snd] in Hp.
  destruct (Z.leb_spec (to_size_t ret) 0) as [|Hpos]; [discriminate|].
  destruct (_ && _); [discriminate|].
  destruct Hp as [Hp|Hp]; [lia|].
  apply IH; [apply to_size_t_range|lia].
Qed.

Lemma to_size_t_add_l a b : to_size_t (to_size_t a + b) = to_size_t (a + b).
Proof. unfold to_size_t. apply Z.add_mod_idemp_l. discriminate. Qed.

(** The counting pass on a descriptor that reports no error: the bytes of
    the queue are added to the count. *)
Lemma count_loop_healthy fuel : forall s t,
  healthy s -> (length (rx s) < fuel)%nat ->
  count_loop fuel s t = Some (if length (rx s) =? 0 then t
                              else to_size_t (t + Z.of_nat (length (rx s))))%nat.
Proof.
  induction fuel as [|fuel IH]; intros s t Hh Hf; [lia|]. cbn [count_loop].
  destruct (rx s) as [|x r] eqn:Er.
  - rewrite (sys_read_eof s 512 Hh ltac:(lia) Er). reflexivity.
  - destruct (sys_read_healthy s 512 Hh ltac:(lia)) as (n & Hn & Hnc & ->);
      [rewrite Er; discriminate|].
    rewrite Er in *.
    rewrite (to_size_t_id (Z.of_nat n))
      by (split; [lia|]; apply Z.le_lt_trans with 512; [lia|reflexivity]).
    destruct (Z.leb_spec (Z.of_nat n) 0); [lia|].
    rewrite IH; [|now apply healthy_tl|cbn [rx]; rewrite length_skipn; lia].
    cbn [rx]. rewrite length_skipn.
    replace (length (x :: r) =? 0)%nat with false by reflexivity.
    destruct (Nat.eqb_spec (length (x :: r) - n) 0) as [E|E].
    + f_equal. f_equal. lia.
    + f_equal. rewrite to_size_t_add_l. f_equal. lia.
Qed.

Lemma poke_nil data off : poke data off [] = data.
Proof. unfold poke. cbn [app length]. rewrite Nat.add_0_r. apply firstn_skipn. Qed.

Lemma poke_poke data off d1 d2 :
  0 <= off <= Z.of_nat (length data) ->
  poke (poke data off d1) (off + Z.of_nat (length d1)) d2 = poke data off (d1 ++ d2).
Proof.
  intros Hoff. unfold poke at 1.
  replace (Z.to_nat (off + Z.of_nat (length d1)))
    with (Z.to_nat off + length d1)%nat by lia.
  rewrite firstn_poke by lia. rewrite skipn_poke by lia.
  unfold poke. rewrite <- !app_assoc, length_app, Nat.add_assoc. reflexivity.
Qed.

Lemma poke_keeps_length data off d :
  0 <= off -> off + Z.of_nat (length d) <= Z.of_nat (length data) ->
  length (poke data off d) = length data.
Proof.
  intros H0 H1. unfold poke. rewrite !length_app, length_firstn, length_skipn. lia.
Qed.

(** The filling pass on a descriptor that reports no error: the block is
    filled from [off] on when the queue holds [buf_len] bytes; when it
    holds less, the pass stops at the end of the queue. *)
Lemma fill_loop_healthy fuel : forall s data off buf_len,
  healthy s -> 0 <= off -> 0 <= buf_len < size_modulus ->
  off + buf_len <= Z.of_nat (length data) ->
  (length (rx s) < fuel)%nat ->
  fill_loop fuel s data off buf_len
  = Some (if buf_len <=? Z.of_nat (length (rx s))
          then Filled (poke data off (firstn (Z.to_nat buf_len) (rx s)))
          else Short (poke data off (rx s))).
Proof.
  induction fuel as [|fuel IH]; intros s data off bl Hh Hoff Hbl Hfit Hf; [lia|].
  cbn [fill_loop]. destruct (Z.eqb_spec bl 0) as [->|Hne].
  - destruct (Z.leb_spec 0 (Z.of_nat (length (rx s)))); [|lia].
    cbn [Z.to_nat firstn]. now rewrite poke_nil.
  - destruct (rx s) as [|x r] eqn:Er.
    + rewrite (sys_read_eof s bl Hh ltac:(lia) Er).
      replace (to_size_t 0 <=? 0) with true by reflexivity.
      cbn [length Z.of_nat]. destruct (Z.leb_spec bl 0); [lia|].
      now rewrite poke_nil.
    + destruct (sys_read_healthy s bl Hh ltac:(lia)) as (n & Hn & Hnc & ->);
        [rewrite Er; discriminate|].
      rewrite Er in *.
      rewrite (to_size_t_id (Z.of_nat n)) by lia.
      destruct (Z.leb_spec (Z.of_nat n) 0); [lia|]. cbn [negb andb].
      destruct (Z.ltb_spec off 0); [lia|].
      destruct (Z.ltb_spec (Z.of_nat (length data)) (off + Z.of_nat n)); [lia|].
      cbn [orb]. rewrite to_size_t_id by lia.
      assert (Hd : length (firstn n (x :: r)) = n) by (rewrite length_firstn; lia).
      rewrite IH; cbn [rx];
        [|now apply healthy_tl|lia|lia
         |rewrite poke_keeps_length by lia; lia
         |rewrite length_skipn; lia].
      rewrite length_skipn. f_equal.
      replace (off + Z.of_nat n) with (off + Z.of_nat (length (firstn n (x :: r))))
        by lia.
      rewrite !poke_poke by lia.
      destruct (Z.leb_spec (bl - Z.of_nat n) (Z.of_nat (length (x :: r) - n)));
        destruct (Z.leb_spec bl (Z.of_nat (length (x :: r)))); try lia.
      * f_equal. f_equal. rewrite firstn_app_skipn. f_equal. lia.
      * f_equal. f_equal. apply firstn_skipn.
Qed.
End SeqFileFacts.

Section SeqFileContract.
Import SeqFile.
Variable M : machine.

Lemma seq_block_tail (k : nat) (d : list Z) :
  length d = k ->
  poke (poke (fresh_mem M (Z.of_nat k + 1)) (Z.of_nat k) [0]) 0 d = d ++ [0].
Proof.
  intros Hd.
  assert (Hf : length (fresh_mem M (Z.of_nat k + 1)) = S k)
    by (rewrite fresh_mem_length; lia).
  unfold poke at 1. cbn [Z.to_nat firstn app Nat.add]. f_equal. rewrite Hd.
  unfold poke. rewrite Nat2Z.id. cbn [length].
  rewrite skipn_app, length_firstn, Hf.
  rewrite (skipn_all2 (firstn k _)) by (rewrite length_firstn; lia).
  replace (k - Nat.min k (S k))%nat with 0%nat by lia.
  rewrite (skipn_all2 (fresh_mem M _)) by lia. reflexivity.
Qed.

Lemma seq_block_length (k : nat) :
  length (poke (fresh_mem M (Z.of_nat k + 1)) (Z.of_nat k) [0]) = S k.
Proof.
  rewrite poke_keeps_length; rewrite ?fresh_mem_length; cbn [length]; lia.
Qed.

Lemma read_seq_file_second (s2 : sock) (k : nat) :
  healthy s2 -> Z.of_nat k + 1 < size_modulus ->
  fill_loop (S (length (kern s2) + length (rx s2))) s2
    (poke (fresh_mem M (Z.of_nat k + 1)) (Z.of_nat k) [0]) 0 (Z.of_nat k)
  = Some (if Z.of_nat k <=? Z.of_nat (length (rx s2))
          then Filled (firstn k (rx s2) ++ [0])
          else Short (poke (poke (fresh_mem M (Z.of_nat k + 1)) (Z.of_nat k) [0])
                        0 (rx s2))).
Proof.
  intros Hh Hmax.
  rewrite fill_loop_healthy; trivial; try lia;
    [|rewrite seq_block_length; lia].
  destruct (Z.leb_spec (Z.of_nat k) (Z.of_nat (length (rx s2)))); [|reflexivity].
  rewrite Nat2Z.id, seq_block_tail; [reflexivity|]. rewrite length_firstn. lia.
Qed.

Lemma read_seq_file_after_count (second : option sock) (len : Z)
    (k : nat) :
  k <> 0%nat -> Z.of_nat k + 1 < size_modulus ->
  malloc_ok M (Z.of_nat k + 1) = true ->
  (if Z.of_nat k =? 0 then Returns (- EIO) len Null true
   else if negb (malloc_ok M (to_size_t (Z.of_nat k + 1)))
   then Returns (- ENOMEM) len Null true
   else if to_size_t (Z.of_nat k + 1) <=? Z.of_nat k
   then StoreOutside (Z.of_nat k)
   else
     let block := poke (fresh_mem M (Z.of_nat k + 1)) (Z.of_nat k) [0] in
     match second with
     | None => Returns (- EACCES) (Z.of_nat k) Freed false
     | Some s2 =>
         match fill_loop (S (length (kern s2) + length (rx s2)))
                 s2 block 0 (Z.of_nat k) with
         | None => Returns (- EIO) (Z.of_nat k) (Block block) true
         | Some (Filled b) => Returns 0 (Z.of_nat k) (Block b) false
         | Some (Short b) => Returns (- EIO) (Z.of_nat k) (Block b) true
         | Some (Outside off) => StoreOutside off
         end
     end)
  = match second with
    | None => Returns (- EACCES) (Z.of_nat k) Freed false
    | Some s2 =>
        match fill_loop (S (length (kern s2) + length (rx s2))) s2
                (poke (fresh_mem M (Z.of_nat k + 1)) (Z.of_nat k) [0])
                0 (Z.of_nat k) with
        | None => Returns (- EIO) (Z.of_nat k)
                    (Block (poke (fresh_mem M (Z.of_nat k + 1)) (Z.of_nat k) [0])) true
        | Some (Filled b) => Returns 0 (Z.of_nat k) (Block b) false
        | Some (Short b) => Returns (- EIO) (Z.of_nat k) (Block b) true
        | Some (Outside off) => StoreOutside off
        end
    end.
Proof.
  intros Hk Hmax Hm.
  destruct (Z.eqb_spec (Z.of_nat k) 0); [lia|].
  rewrite to_size_t_id by lia. rewrite Hm. cbn [negb].
  destruct (Z.leb_spec (Z.of_nat k + 1) (Z.of_nat k)); [lia|]. reflexivity.
Qed.

Lemma read_seq_file_run (s1 : sock) (second : option sock) (len : Z)
    (data : data_ptr) :
  healthy s1 -> rx s1 <> [] ->
  Z.of_nat (length (rx s1)) + 1 < size_modulus ->
  malloc_ok M (Z.of_nat (length (rx s1)) + 1) = true ->
  attest_util_read_seq_file M (Some s1) second len data
  = let k := length (rx s1) in
    match second with
    | None => Returns (- EACCES) (Z.of_nat k) Freed false
    | Some s2 =>
        match fill_loop (S (length (kern s2) + length (rx s2))) s2
                (poke (fresh_mem M (Z.of_nat k + 1)) (Z.of_nat k) [0])
                0 (Z.of_nat k) with
        | None => Returns (- EIO) (Z.of_nat k)
                    (Block (poke (fresh_mem M (Z.of_nat k + 1)) (Z.of_nat k) [0])) true
        | Some (Filled b) => Returns 0 (Z.of_nat k) (Block b) false
        | Some (Short b) => Returns (- EIO) (Z.of_nat k) (Block b) true
        | Some (Outside off) => StoreOutside off
        end
    end.
Proof.
  intros Hh Hne Hmax Hm. unfold attest_util_read_seq_file.
  rewrite count_loop_healthy by (trivial; lia).
  assert (Hk : length (rx s1) <> 0%nat)
    by (destruct (rx s1); [congruence|discriminate]).
  destruct (Nat.eqb_spec (length (rx s1)) 0); [contradiction|].
  rewrite Z.add_0_l, to_size_t_id by lia.
  now apply read_seq_file_after_count.
Qed.

(** X18.  Both passes see a descriptor that reports no error, and the file does
    not shrink between them: the function returns 0, [len] is the number
    of bytes counted in the first pass and [data] holds that many bytes of
    the second reading followed by a NUL; the descriptor is closed. *)
Theorem read_seq_file_content (s1 s2 : sock) (len : Z) (data : data_ptr) :
  healthy s1 -> healthy s2 -> rx s1 <> [] ->
  Z.of_nat (length (rx s1)) + 1 < size_modulus ->
  malloc_ok M (Z.of_nat (length (rx s1)) + 1) = true ->
  (length (rx s1) <= length (rx s2))%nat ->
  attest_util_read_seq_file M (Some s1) (Some s2) len data
  = Returns 0 (Z.of_nat (length (rx s1)))
      (Block (firstn (length (rx s1)) (rx s2) ++ [0])) false.
Proof.
  intros H1 H2 Hne Hmax Hm Hle.
  rewrite read_seq_file_run by assumption. cbv zeta.
  rewrite read_seq_file_second by assumption.
  destruct (Z.leb_spec (Z.of_nat (length (rx s1))) (Z.of_nat (length (rx s2))));
    [reflexivity|lia].
Qed.

(** X19.  The file is shorter when it is read again: [- EIO], with [len]
    already set, the block still allocated and handed out through [data],
    and the descriptor left open. *)
Theorem read_seq_file_shrunk (s1 s2 : sock) (len : Z) (data : data_ptr) :
  healthy s1 -> healthy s2 ->
  Z.of_nat (length (rx s1)) + 1 < size_modulus ->
  malloc_ok M (Z.of_nat (length (rx s1)) + 1) = true ->
  (length (rx s2) < length (rx s1))%nat ->
  exists b,
    attest_util_read_seq_file M (Some s1) (Some s2) len data
    = Returns (- EIO) (Z.of_nat (length (rx s1))) (Block b) true
    /\ firstn (length (rx s2)) b = rx s2.
Proof.
  intros H1 H2 Hmax Hm Hlt.
  assert (Hne : rx s1 <> []) by (intros E; rewrite E in Hlt; simpl in Hlt; lia).
  rewrite read_seq_file_run by assumption. cbv zeta.
  rewrite read_seq_file_second by assumption.
  destruct (Z.leb_spec (Z.of_nat (length (rx s1))) (Z.of_nat (length (rx s2))));
    [lia|].
  eexists. split; [reflexivity|].
  pose proof (seq_block_length (length (rx s1))) as Hb.
  pose proof (firstn_poke (poke (fresh_mem M (Z.of_nat (length (rx s1)) + 1))
                             (Z.of_nat (length (rx s1))) [0]) 0 (rx s2)
                ltac:(lia)) as Hf.
  cbn [Z.to_nat Nat.add firstn app] in Hf. exact Hf.
Qed.

(** X20.  A file that reads as empty: [- EIO]; [data] is [NULL], [len] is not
    written and the descriptor is left open. *)
Theorem read_seq_file_empty (s1 : sock) (second : option sock) (len : Z)
    (data : data_ptr) :
  healthy s1 -> rx s1 = [] ->
  attest_util_read_seq_file M (Some s1) second len data
  = Returns (- EIO) len Null true.
Proof.
  intros Hh He. unfold attest_util_read_seq_file.
  rewrite count_loop_healthy by (trivial; lia). rewrite He. reflexivity.
Qed.

(** X21.  The first [read] of the counting pass fails and every later call is in
    order.  The -1 lands in the unsigned [cur_len], the test for the end
    does not fire and the count wraps: the function returns 0 with one
    byte less than the file holds. *)
Theorem read_seq_file_interrupted (s1 s2 : sock) (len : Z) (data : data_ptr)
    (g : Z) (ks : list Z) :
  kern s1 = g :: ks -> g < 0 -> Forall (fun g => 0 < g) ks ->
  healthy s2 -> (2 <= length (rx s1))%nat ->
  Z.of_nat (length (rx s1)) < size_modulus ->
  malloc_ok M (Z.of_nat (length (rx s1))) = true ->
  (length (rx s1) - 1 <= length (rx s2))%nat ->
  attest_util_read_seq_file M (Some s1) (Some s2) len data
  = Returns 0 (Z.of_nat (length (rx s1)) - 1)
      (Block (firstn (length (rx s1) - 1) (rx s2) ++ [0])) false.
Proof.
  intros Hk Hg Hks H2 Hn Hmax Hm Hle. unfold attest_util_read_seq_file.
  cbn [count_loop]. unfold sys_read at 1, grant. rewrite Hk. cbn [tl].
  destruct (Z.ltb_spec g 0); [|lia].
  replace (to_size_t (-1) <=? 0) with false by reflexivity.
  rewrite count_loop_healthy; cbn [rx kern]; [|exact Hks|cbn [length]; lia].
  destruct (Nat.eqb_spec (length (rx s1)) 0); [lia|].
  rewrite to_size_t_add_l.
  set (k := (length (rx s1) - 1)%nat).
  assert (Et : to_size_t (0 + to_size_t (-1) + Z.of_nat (length (rx s1)))
               = Z.of_nat k).
  { replace (to_size_t (-1)) with (size_modulus - 1) by reflexivity.
    unfold to_size_t.
    replace (0 + (size_modulus - 1) + Z.of_nat (length (rx s1)))
      with (Z.of_nat k + 1 * size_modulus) by lia.
    rewrite Z.mod_add by discriminate. apply Z.mod_small. lia. }
  rewrite Et.
  assert (Hm' : malloc_ok M (Z.of_nat k + 1) = true)
    by (replace (Z.of_nat k + 1) with (Z.of_nat (length (rx s1))) by lia; exact Hm).
  etransitivity;
    [exact (read_seq_file_after_count (Some s2) len k ltac:(lia) ltac:(lia) Hm')|].
  rewrite read_seq_file_second by (trivial; lia).
  destruct (Z.leb_spec (Z.of_nat k) (Z.of_nat (length (rx s2)))); [|lia].
  f_equal. lia.
Qed.

(** X22.  The first [read] of the filling pass fails: [buf_ptr] steps back by
    one and the next [read] stores in front of the block. *)
Theorem read_seq_file_store_outside (s1 s2 : sock) (len : Z) (data : data_ptr)
    (g : Z) (ks : list Z) :
  healthy s1 -> rx s1 <> [] ->
  Z.of_nat (length (rx s1)) + 1 < size_modulus ->
  malloc_ok M (Z.of_nat (length (rx s1)) + 1) = true ->
  kern s2 = g :: ks -> g < 0 -> Forall (fun g => 0 < g) ks -> rx s2 <> [] ->
  attest_util_read_seq_file M (Some s1) (Some s2) len data = StoreOutside (-1).
Proof.
  intros H1 Hne Hmax Hm Hk Hg Hks Hrx.
  rewrite read_seq_file_run by assumption. cbv zeta.
  assert (Hn : length (rx s1) <> 0%nat)
    by (destruct (rx s1); [congruence|discriminate]).
  cbn [fill_loop]. destruct (Z.eqb_spec (Z.of_nat (length (rx s1))) 0); [lia|].
  unfold sys_read at 1, grant. rewrite Hk. cbn [tl].
  destruct (Z.ltb_spec g 0); [|lia].
  replace (to_size_t (-1) <=? 0) with false by reflexivity.
  replace (-1 <=? 0) with true by reflexivity. cbn [negb andb].
  cbn [length Nat.add fill_loop].
  assert (Eb : to_size_t (Z.of_nat (length (rx s1)) - to_size_t (-1))
               = Z.of_nat (length (rx s1)) + 1).
  { unfold to_size_t.
    replace (-1 mod size_modulus) with (size_modulus - 1) by reflexivity.
    replace (Z.of_nat (length (rx s1)) - (size_modulus - 1))
      with (Z.of_nat (length (rx s1)) + 1 + (-1) * size_modulus) by lia.
    rewrite Z.mod_add by discriminate. apply Z.mod_small. lia. }
  rewrite Eb.
  destruct (Z.eqb_spec (Z.of_nat (length (rx s1)) + 1) 0); [lia|].
  destruct (sys_read_healthy (mkSock (rx s2) (tx s2) ks)
              (Z.of_nat (length (rx s1)) + 1) Hks ltac:(lia) Hrx)
    as (m & Hn1 & Hn2 & ->).
  rewrite to_size_t_id by (cbn [rx] in *; lia).
  destruct (Z.leb_spec (Z.of_nat m) 0); [lia|]. reflexivity.
Qed.

(** X23.  The descriptor is left open exactly on the returns with [- EIO] and
    [- ENOMEM]: the function closes it on success and before the second
    [open] only. *)
Theorem read_seq_file_descriptor (first second : option sock) (len : Z)
    (data : data_ptr) (rc l : Z) (d : data_ptr) (fd_open : bool) :
  attest_util_read_seq_file M first second len data = Returns rc l d fd_open ->
  (fd_open = true <-> rc = - EIO \/ rc = - ENOMEM).
Proof.
  unfold attest_util_read_seq_file.
  assert (A1 : true = true <-> - EIO = - EIO \/ - EIO = - ENOMEM)
    by (split; auto).
  assert (A2 : true = true <-> - ENOMEM = - EIO \/ - ENOMEM = - ENOMEM)
    by (split; auto).
  assert (A3 : false = true <-> - EACCES = - EIO \/ - EACCES = - ENOMEM)
    by (split; [discriminate|intros [E|E]; vm_compute in E; discriminate]).
  assert (A4 : false = true <-> 0 = - EIO \/ 0 = - ENOMEM)
    by (split; [discriminate|intros [E|E]; vm_compute in E; discriminate]).
  destruct first as [s1|]; [|intros [= <- _ _ <-]; exact A3].
  destruct (count_loop _ s1 0) as [t|]; [|intros [= <- _ _ <-]; exact A1].
  destruct (t =? 0); [intros [= <- _ _ <-]; exact A1|].
  destruct (negb _); [intros [= <- _ _ <-]; exact A2|].
  destruct (_ <=? t); [discriminate|].
  destruct second as [s2|]; [|intros [= <- _ _ <-]; exact A3].
  destruct (fill_loop _ s2 _ 0 t) as [[b|b|off]|];
    [intros [= <- _ _ <-]; exact A4|intros [= <- _ _ <-]; exact A1
    |discriminate|intros [= <- _ _ <-]; exact A1].
Qed.
End SeqFileContract.

Section SeqFileRuns.
Import SeqFile.

Lemma read_seq_file_content_witness :
  attest_util_read_seq_file demo_machine
    (Some (mkSock [67; 65; 10] [] [2])) (Some (mkSock [67; 65; 10; 33] [] [1; 1]))
    0 Untouched
  = Returns 0 3 (Block [67; 65; 10; 0]) false.
Proof.
  exact (read_seq_file_content demo_machine
           (mkSock [67; 65; 10] [] [2]) (mkSock [67; 65; 10; 33] [] [1; 1])
           0 Untouched
           ltac:(repeat constructor) ltac:(repeat constructor)
           ltac:(discriminate) ltac:(reflexivity) ltac:(reflexivity)
           ltac:(simpl; lia)).
Defined.

Lemma read_seq_file_shrunk_witness :
  exists b,
    attest_util_read_seq_file demo_machine
      (Some (mkSock [67; 65; 10] [] [])) (Some (mkSock [67] [] [])) 0 Untouched
    = Returns (- EIO) 3 (Block b) true
    /\ firstn 1 b = [67].
Proof.
  exact (read_seq_file_shrunk demo_machine
           (mkSock [67; 65; 10] [] []) (mkSock [67] [] []) 0 Untouched
           ltac:(constructor) ltac:(constructor)
           ltac:(reflexivity) ltac:(reflexivity) ltac:(simpl; lia)).
Defined.

Lemma read_seq_file_empty_witness :
  attest_util_read_seq_file demo_machine (Some (mkSock [] [] [])) None 7 Untouched
  = Returns (- EIO) 7 Null true.
Proof.
  exact (read_seq_file_empty demo_machine (mkSock [] [] []) None 7 Untouched
           ltac:(constructor) ltac:(reflexivity)).
Defined.

Lemma read_seq_file_interrupted_witness :
  attest_util_read_seq_file demo_machine
    (Some (mkSock [67; 65; 10] [] [-1])) (Some (mkSock [67; 65; 10] [] []))
    0 Untouched
  = Returns 0 2 (Block [67; 65; 0]) false.
Proof.
  exact (read_seq_file_interrupted demo_machine
           (mkSock [67; 65; 10] [] [-1]) (mkSock [67; 65; 10] [] [])
           0 Untouched (-1) []
           ltac:(reflexivity) ltac:(lia) ltac:(constructor) ltac:(constructor)
           ltac:(simpl; lia) ltac:(reflexivity) ltac:(reflexivity)
           ltac:(simpl; lia)).
Defined.

Lemma read_seq_file_store_outside_witness :
  attest_util_read_seq_file demo_machine
    (Some (mkSock [67; 65; 10] [] [])) (Some (mkSock [67; 65; 10] [] [-1]))
    0 Untouched
  = StoreOutside (-1).
Proof.
  exact (read_seq_file_store_outside demo_machine
           (mkSock [67; 65; 10] [] []) (mkSock [67; 65; 10] [] [-1])
           0 Untouched (-1) []
           ltac:(constructor) ltac:(discriminate) ltac:(reflexivity)
           ltac:(reflexivity) ltac:(reflexivity) ltac:(lia)
           ltac:(constructor) ltac:(discriminate)).
Defined.

Lemma read_seq_file_descriptor_witness :
  attest_util_read_seq_file demo_machine
    (Some (mkSock [67; 65; 10] [] [])) (Some (mkSock [67] [] [])) 0 Untouched
  = Returns (- EIO) 3 (Block [67; 170; 170; 0]) true
  /\ (true = true <-> - EIO = - EIO \/ - EIO = - ENOMEM).
Proof.
  split; [vm_compute; reflexivity|].
  exact (read_seq_file_descriptor demo_machine
           (Some (mkSock [67; 65; 10] [] [])) (Some (mkSock [67] [] []))
           0 Untouched (- EIO) 3 (Block [67; 170; 170; 0]) true
           ltac:(vm_compute; reflexivity)).
Defined.
End SeqFileRuns.


Section TlsMain.
Import RwBuf TlsClient TlsClientMain.

(** The second walk through [send_receive_attest_data] agrees with the
    first: a block is left filled exactly when the function handed one
    out, and left freed only when it failed. *)
Lemma server_attest_data_left_agrees M server path :
  match server_attest_data_left M server path with
  | Stored => exists n d,
      snd (fst (send_receive_attest_data M server path)) = Some (n, d)
  | Dangling =>
      snd (fst (send_receive_attest_data M server path)) = None
      /\ fst (fst (send_receive_attest_data M server path)) < 0
  | Unset => snd (fst (send_receive_attest_data M server path)) = None
  end.
Proof.
  unfold server_attest_data_left, send_receive_attest_data.
  destruct (match path with
            | Some file =>
                let '(rc, file_size, data) := attest_util_read_file file 0 [] in
                (file_size, if rc =? 0 then file_size else 0, data)
            | None => (0, 0, [])
            end) as [[file_size data_size] client].
  destruct (attest_util_write_buf server _ sizeof_size_t) as [[rc1 b1] s1].
  destruct (rc1 <? 0); [reflexivity|].
  destruct (if negb (file_size =? 0)
            then let '(rc, _, server0) :=
                   attest_util_write_buf s1 client file_size in (rc, server0)
            else (rc1, s1)) as [rc2 s2].
  destruct (rc2 <? 0); [reflexivity|].
  destruct (attest_util_read_buf s2 _ sizeof_size_t) as [[rc3 b3] s3].
  destruct (rc3 <? 0); [reflexivity|].
  destruct (negb (ntohl M (load_size_t M b3) =? 0)); [|reflexivity].
  destruct (negb (malloc_ok M _)); [reflexivity|].
  destruct (attest_util_read_buf s3 _ _) as [[rc4 b4] s4].
  destruct (Z.ltb_spec rc4 0); cbn [fst snd].
  - split; [reflexivity|assumption].
  - eexists _, _. reflexivity.
Qed.

Lemma reply_loop_no_verdict chunks : forall total,
  ~ In GoodServerCert (reply_loop chunks total)
  /\ ~ In BadServerCert (reply_loop chunks total).
Proof.
  induction chunks as [|c rest IH]; intros total; cbn [reply_loop In].
  - split; intros [H|[]]; discriminate.
  - destruct (IH (to_size_t (total + Z.of_nat (length c)))) as [H1 H2].
    split; intros [H|H]; try discriminate; auto.
Qed.

Lemma logs_no_verdict (b : bool) (logs : string) (p : printed) :
  In p (if b then [VerifierLogs logs] else []) -> p = VerifierLogs logs.
Proof. destruct b; cbn [In]; intros [H|[]] || intros []. now subst. Qed.

Lemma main_verdict M o env p :
  p = GoodServerCert \/ p = BadServerCert ->
  In p (snd (fst (main M o env))) ->
  fst (fst (main M o env)) = SSL_connect env /\ 0 < SSL_connect env
  /\ (p = GoodServerCert <-> SSL_get_verify_result env = X509_V_OK).
Proof.
  intros Hp. unfold main.
  destruct (server_fqdn o); cbn [fst snd In];
    [|destruct Hp; subst; intros [H|[]]; discriminate].
  destruct (verify_skae o && _); cbn [fst snd In];
    [destruct Hp; subst; intros [H|[]]; discriminate|].
  destruct (negb (create_context env)); cbn [fst snd In]; [intros []|].
  destruct (configure_context env <? 0); cbn [fst snd In]; [intros []|].
  destruct (create_socket env) as [server|]; cbn [fst snd In]; [|intros []].
  destruct (if custom_protocol o
            then send_receive_attest_data M server (attest_data_path o)
            else (configure_context env, None, server)) as [[rc attest] server'].
  destruct (custom_protocol o && (rc <? 0)); cbn [fst snd In]; [intros []|].
  destruct (verify_skae o && (_ <? 0)); cbn [fst snd In]; [intros []|].
  destruct (Z.leb_spec (SSL_connect env) 0) as [Hc|Hc]; cbn [fst snd].
  - intros H. apply logs_no_verdict in H. destruct Hp; subst; discriminate.
  - unfold X509_V_OK.
    destruct (Z.eqb_spec (SSL_get_verify_result env) 0) as [Hv|Hv];
      cbn [Z.eqb fst snd]; intros H; apply in_app_or in H;
      (split; [reflexivity|]); (split; [exact Hc|]).
    + split; [intros _; exact Hv|intros _].
      destruct H as [H|H]; [apply logs_no_verdict in H; destruct Hp; subst; discriminate|].
      destruct H as [H|H]; [now subst|].
      destruct Hp as [->| ->]; [reflexivity|].
      destruct (custom_protocol o); [destruct H|].
      now apply reply_loop_no_verdict in H.
    + split; [|intros E; contradiction]. intros ->.
      destruct H as [H|H]; [apply logs_no_verdict in H; discriminate|].
      destruct H as [H|[]]. discriminate.
Qed.

(** The read of the server's evidence fails after the block for it was
    allocated: [send_receive_attest_data] frees the block and [main]
    frees it again at [cleanup], without a handshake and without a line
    printed. *)
Lemma main_frees_attest_data_twice M o env server fqdn :
  server_fqdn o = Some fqdn ->
  verify_skae o && match req_path o with None => true | Some _ => false end
    = false ->
  create_context env = true -> 0 <= configure_context env ->
  create_socket env = Some server -> custom_protocol o = true ->
  server_attest_data_left M server (attest_data_path o) = Dangling ->
  snd (main M o env) = FreedTwice /\ snd (fst (main M o env)) = [].
Proof.
  intros Hs Hv Hc Hcfg Hsock Hcp Hd. unfold main.
  rewrite Hs, Hv, Hc, Hsock, Hcp, Hd. cbn [negb].
  destruct (Z.ltb_spec (configure_context env) 0); [lia|].
  pose proof (server_attest_data_left_agrees M server (attest_data_path o)) as Ha.
  rewrite Hd in Ha. destruct Ha as [_ Hrc].
  destruct (send_receive_attest_data M server (attest_data_path o))
    as [[rc attest] server']. cbn [fst snd] in Hrc.
  destruct (Z.ltb_spec rc 0); [|lia]. cbn [andb fst snd free_attest_data].
  split; reflexivity.
Qed.

(** X25.  Whichever of the two verdicts on the server's certificate is printed,
    the handshake succeeded and [main] returns the positive value of
    [SSL_connect]: the value returned does not tell a certificate that
    failed verification from one that passed.  The verdict printed is the
    right one: the good one exactly for [X509_V_OK]. *)
Theorem tls_certificate_verdict (M : machine) (o : options) (env : tls_env)
    (p : printed) :
  p = GoodServerCert \/ p = BadServerCert ->
  In p (snd (fst (main M o env))) ->
  fst (fst (main M o env)) = SSL_connect env /\ 0 < SSL_connect env
  /\ (p = GoodServerCert <-> SSL_get_verify_result env = X509_V_OK).
Proof. apply main_verdict. Qed.


Lemma tls_certificate_verdict_witness :
  let o := mkOptions (Some "server"%string) None None false false false in
  let env := mkTlsEnv true 0 (Some (mkSock [] [] [])) (fun _ => 0) 1
               EmptyString 18 [[72; 105]] in
  fst (fst (main demo_machine o env)) = SSL_connect env /\ 0 < SSL_connect env
  /\ (BadServerCert = GoodServerCert <-> SSL_get_verify_result env = X509_V_OK).
Proof.
  exact (tls_certificate_verdict demo_machine
           (mkOptions (Some "server"%string) None None false false false)
           (mkTlsEnv true 0 (Some (mkSock [] [] [])) (fun _ => 0) 1
              EmptyString 18 [[72; 105]])
           BadServerCert ltac:(right; reflexivity)
           ltac:(vm_compute; left; reflexivity)).
Defined.
End TlsMain.

Section RwContract.
Import RwBuf.

(** X27.  On a descriptor that reports no error and always makes progress,
    [attest_util_write_buf] sends exactly the [buf_len] bytes of the
    buffer, in order, however the kernel splits them, and returns 0. *)
Theorem write_buf_exact (s : sock) (buf : list Z) (buf_len : Z) :
  healthy s -> buf_len = Z.of_nat (length buf) -> buf_len < size_modulus ->
  let r := attest_util_write_buf s buf buf_len in
  fst (fst r) = 0 /\ snd (fst r) = buf /\ rx (snd r) = rx s
  /\ tx (snd r) = tx s ++ buf /\ healthy (snd r).
Proof. apply write_buf_healthy. Qed.

Lemma write_buf_exact_witness :
  let r := attest_util_write_buf (mkSock [] [7] [2; 1]) [1; 2; 3; 4; 5] 5 in
  fst (fst r) = 0 /\ snd (fst r) = [1; 2; 3; 4; 5] /\ rx (snd r) = []
  /\ tx (snd r) = [7] ++ [1; 2; 3; 4; 5] /\ healthy (snd r).
Proof.
  exact (write_buf_exact (mkSock [] [7] [2; 1]) [1; 2; 3; 4; 5] 5
           ltac:(repeat constructor) ltac:(reflexivity) ltac:(reflexivity)).
Defined.

(** X28.  On such a descriptor with [buf_len] bytes to deliver,
    [attest_util_read_buf] stores exactly the first [buf_len] bytes of the
    queue at the start of the buffer, leaves the rest of the buffer and of
    the queue as they are, and returns 0. *)
Theorem read_buf_exact (s : sock) (buf : list Z) (buf_len : Z) :
  healthy s -> 0 <= buf_len < size_modulus ->
  buf_len <= Z.of_nat (length (rx s)) ->
  let r := attest_util_read_buf s buf buf_len in
  fst (fst r) = 0
  /\ snd (fst r) = firstn (Z.to_nat buf_len) (rx s) ++ skipn (Z.to_nat buf_len) buf
  /\ rx (snd r) = skipn (Z.to_nat buf_len) (rx s)
  /\ tx (snd r) = tx s /\ healthy (snd r).
Proof. apply read_buf_healthy. Qed.

Lemma read_buf_exact_witness :
  let r := attest_util_read_buf (mkSock [1; 2; 3; 4; 5] [] [1; 1]) [0; 0; 0; 9] 3 in
  fst (fst r) = 0
  /\ snd (fst r) = firstn (Z.to_nat 3) [1; 2; 3; 4; 5] ++ skipn (Z.to_nat 3) [0; 0; 0; 9]
  /\ rx (snd r) = skipn (Z.to_nat 3) [1; 2; 3; 4; 5]
  /\ tx (snd r) = [] /\ healthy (snd r).
Proof.
  exact (read_buf_exact (mkSock [1; 2; 3; 4; 5] [] [1; 1]) [0; 0; 0; 9] 3
           ltac:(repeat constructor) ltac:(split; [lia|reflexivity])
           ltac:(simpl; lia)).
Defined.

(** X29.  When the peer shuts down before [buf_len] bytes have arrived,
    [attest_util_read_buf] consumes what there is and returns [- EIO]. *)
Theorem read_buf_short (s : sock) (buf : list Z) (buf_len : Z) :
  healthy s -> buf_len < size_modulus ->
  Z.of_nat (length (rx s)) < buf_len ->
  let r := attest_util_read_buf s buf buf_len in
  fst (fst r) = - EIO /\ rx (snd r) = [] /\ tx (snd r) = tx s
  /\ healthy (snd r).
Proof. apply read_buf_eof. Qed.

Lemma read_buf_short_witness :
  let r := attest_util_read_buf (mkSock [1; 2] [] []) [0; 0; 0; 0] 4 in
  fst (fst r) = - EIO /\ rx (snd r) = [] /\ tx (snd r) = []
  /\ healthy (snd r).
Proof.
  exact (read_buf_short (mkSock [1; 2] [] []) [0; 0; 0; 0] 4
           ltac:(constructor) ltac:(reflexivity) ltac:(simpl; lia)).
Defined.

(** X30.  Whatever the buffer, the length and the direction: when the first
    system call fails, [attest_util_rw_buf] returns 0 with the buffer and
    both queues as they were. *)
Theorem rw_buf_failure_unnoticed (s : sock) (buf : list Z) (buf_len op : Z)
    (g : Z) (ks : list Z) :
  kern s = g :: ks -> g < 0 -> 0 < to_size_t buf_len ->
  attest_util_rw_buf s buf buf_len op = (0, buf, mkSock (rx s) (tx s) ks).
Proof. apply rw_buf_first_call_fails. Qed.

Lemma rw_buf_failure_unnoticed_witness :
  attest_util_rw_buf (mkSock [1; 2; 3] [] [-1; 2]) [0; 0; 0] 3 O_RDONLY
  = (0, [0; 0; 0], mkSock [1; 2; 3] [] [2]).
Proof.
  exact (rw_buf_failure_unnoticed (mkSock [1; 2; 3] [] [-1; 2]) [0; 0; 0] 3
           O_RDONLY (-1) [2] ltac:(reflexivity) ltac:(lia)
           ltac:(vm_compute; reflexivity)).
Defined.
End RwContract.

Section StalePointers.
Import RwBuf RaServer.

Lemma out_free_message_in p p' :
  out_free p = Some p' -> p_message_in p = Live -> p_message_in p' = Freed.
Proof.
  unfold out_free. intros H Hl. rewrite Hl in H. cbn [free] in H.
  destruct (free (p_message_out p)), (free (p_csr_str p)),
    (free (p_cert_str p)), (free (p_ca_cert_str p)); try discriminate.
  now injection H as <-.
Qed.

Lemma out_free_stale p : p_message_in p = Freed -> out_free p = None.
Proof. unfold out_free. now intros ->. Qed.

Lemma after_switch_message_in E op message_in message_out :
  p_message_in (after_switch E op message_in message_out) = Live.
Proof.
  unfold after_switch. destruct (op =? 2); [|reflexivity].
  destruct (attest_enroll_msg_process_csr E message_in) as [rc1 csr].
  destruct (rc1 <? 0); [reflexivity|].
  destruct (attest_enroll_sign_csr E csr) as [rc2 cert].
  destruct (rc2 <? 0); [reflexivity|].
  destruct (attest_util_read_seq_file_ca E) as [rc3 ca]. reflexivity.
Qed.

Lemma leave_next p op len rc fd :
  fst (fst (leave p op len rc fd)) = NextConnection ->
  exists p', out_free p = Some p'
             /\ l_ptrs (snd (fst (leave p op len rc fd))) = p'.
Proof.
  unfold leave. destruct (out_free p) as [p'|]; [|discriminate].
  intros _. exists p'. split; reflexivity.
Qed.

Lemma respond_next M p op len message_out fd :
  fst (fst (respond M p op len message_out fd)) = NextConnection ->
  exists p', out_free p = Some p'
             /\ l_ptrs (snd (fst (respond M p op len message_out fd))) = p'.
Proof.
  unfold respond.
  destruct (attest_util_write_buf fd _ sizeof_size_t) as [[rc1 b1] s1].
  destruct (negb (rc1 =? 0)); [discriminate|].
  destruct (negb (len =? 0)); [|apply leave_next].
  destruct (attest_util_write_buf s1 _ _) as [[rc2 b2] s2]. apply leave_next.
Qed.

(** A turn that got a request and goes on to the next connection leaves
    in [message_in] the address of the block it freed. *)
Lemma serve_next_stale M E st fd message_in :
  fst (fst (read_request M st fd)) = Request message_in ->
  fst (fst (serve M E st fd)) = NextConnection ->
  p_message_in (l_ptrs (snd (fst (serve M E st fd)))) = Freed.
Proof.
  unfold serve. destruct (read_request M st fd) as [[rq st1] fd1].
  cbn [fst snd]. intros ->.
  destruct (dispatch E (l_op st1) message_in) as [rc mo].
  pose proof (after_switch_message_in E (l_op st1) message_in mo) as Hl.
  destruct (rc =? 0); [destruct mo as [m|]; [|discriminate]|];
    intros Hv; destruct (respond_next _ _ _ _ _ _ Hv) as (p' & Hp & ->);
    exact (out_free_message_in _ _ Hp Hl).
Qed.

(** A client that closes before the length field is complete, when
    [message_in] still holds a freed block: nothing is sent and the block
    is freed again. *)
Lemma serve_closed_stale M E st fd :
  healthy fd -> Z.of_nat (length (rx fd)) < 8 ->
  p_message_in (l_ptrs st) = Freed ->
  fst (fst (serve M E st fd)) = FreesTwice
  /\ tx (snd (serve M E st fd)) = tx fd.
Proof.
  intros Hh Hrx Hp. unfold serve, read_request.
  pose proof (read_buf_eof fd (store_size_t M (l_len st)) sizeof_size_t Hh
                ltac:(reflexivity) Hrx) as H1.
  call_as H1 rc1 b1 s1. destruct H1 as (-> & _ & Htx & _).
  replace (negb (- EIO =? 0)) with true by reflexivity.
  cbn [l_ptrs l_op l_len]. unfold leave. rewrite (out_free_stale _ Hp).
  split; [reflexivity|exact Htx].
Qed.

(** X24.  After a connection whose request was read and answered -
    whether its handler succeeded or failed - a client that closes before
    it has sent the eight bytes of the length field makes the server free
    [message_in] a second time: the pointers are set anew only after the
    three reads, and the failed read jumps to [out_free] before that.
    Nothing is sent to that client and no later connection is served. *)
Theorem served_then_closed (M : machine) (E : enroll_server) (st : locals)
    (fd1 fd2 : sock) (conns : list (option sock)) (message_in : list Z) :
  fst (fst (read_request M st fd1)) = Request message_in ->
  fst (fst (serve M E st fd1)) = NextConnection ->
  healthy fd2 -> Z.of_nat (length (rx fd2)) < 8 ->
  exists fd1' fd2',
    accept_loop M E st (Some fd1 :: Some fd2 :: conns)
    = ([fd1'; fd2'], FreesTwice)
    /\ tx fd2' = tx fd2.
Proof.
  intros Hrq Hv Hh Hrx.
  pose proof (serve_next_stale M E st fd1 message_in Hrq Hv) as Hp.
  cbn [accept_loop]. destruct (serve M E st fd1) as [[v st1] fd1'].
  cbn [fst snd] in Hv, Hp. subst v.
  destruct (serve_closed_stale M E st1 fd2 Hh Hrx Hp) as [Hv2 Htx].
  destruct (serve M E st1 fd2) as [[v2 st2] fd2']. cbn [fst snd] in Hv2, Htx.
  subst v2. exists fd1', fd2'. split; [reflexivity|exact Htx].
Qed.

Lemma served_then_closed_witness :
  exists fd1' fd2',
    accept_loop demo_machine demo_enroll (mkLocals 0 0)
      [Some (mkSock [18; 0; 0; 0; 0; 0; 0; 0; 3; 0; 0; 0; 104; 105] [] []);
       Some (mkSock [] [] []);
       Some (mkSock [18; 0; 0; 0; 0; 0; 0; 0; 3; 0; 0; 0; 104; 105] [] [])]
    = ([fd1'; fd2'], FreesTwice)
    /\ tx fd2' = [].
Proof.
  refine (served_then_closed demo_machine demo_enroll (mkLocals 0 0)
            (mkSock [18; 0; 0; 0; 0; 0; 0; 0; 3; 0; 0; 0; 104; 105] [] [])
            (mkSock [] [] [])
            [Some (mkSock [18; 0; 0; 0; 0; 0; 0; 0; 3; 0; 0; 0; 104; 105] [] [])]
            [104; 105; 0] _ _ _ _).
  - vm_compute; reflexivity.
  - vm_compute; reflexivity.
  - constructor.
  - simpl; lia.
Defined.
End StalePointers.
